(** * Accessible-Documentation-Generator: the accessibility core

    A shallow embedding of the two modules that carry the accessibility
    rules of the generator:

    - the Enhancer, [enhanceWithAria] (accessibility/aria.js), a mutating
      pass over the parsed HTML tree;
    - the Auditor, [checkAccessibility] (src/accessibility/checker.js), a
      read-only analysis that returns a list of issues.

    The HTML tree is a rose tree; an element the JavaScript holds a
    reference to is a path into that tree, and a loop over the result of
    [querySelectorAll] is a fold over the paths the query returned, each
    step reading the tree as the steps before it left it.

    Strings are ASCII: a character above 127 is an opaque symbol that is
    neither a space, a digit, a word character nor a letter with a case. *)

From Stdlib Require Import Ascii String ZArith QArith Qabs Qround.
From stdpp Require Import base option list strings gmap pretty.
Local Open Scope string_scope.
Local Open Scope list_scope.
Local Open Scope Z_scope.

(** ** JavaScript strings *)

Module JsString.

Definition code (c : ascii) : nat := nat_of_ascii c.

(** The double quote character, as a string. *)
Definition dq : string := String (ascii_of_nat 34) EmptyString.

(** [\s] and the characters [String.prototype.trim] removes. *)
Definition is_space (c : ascii) : bool :=
  let n := code c in
  ((9 <=? n)%nat && (n <=? 13)%nat) || (n =? 32)%nat.

Definition is_digit (c : ascii) : bool :=
  let n := code c in (48 <=? n)%nat && (n <=? 57)%nat.

Definition is_upper (c : ascii) : bool :=
  let n := code c in (65 <=? n)%nat && (n <=? 90)%nat.

Definition is_lower (c : ascii) : bool :=
  let n := code c in (97 <=? n)%nat && (n <=? 122)%nat.

(** [\w] is [A-Za-z0-9_]. *)
Definition is_word (c : ascii) : bool :=
  is_upper c || is_lower c || is_digit c || (code c =? 95)%nat.

Definition is_hyphen (c : ascii) : bool := (code c =? 45)%nat.

Definition lower_char (c : ascii) : ascii :=
  if is_upper c then ascii_of_nat (code c + 32) else c.

Definition upper_char (c : ascii) : ascii :=
  if is_lower c then ascii_of_nat (code c - 32) else c.

Fixpoint map_chars (f : ascii → ascii) (s : string) : string :=
  match s with
  | EmptyString => EmptyString
  | String c r => String (f c) (map_chars f r)
  end.

Definition toLowerCase : string → string := map_chars lower_char.
Definition toUpperCase : string → string := map_chars upper_char.

Fixpoint trimStart (s : string) : string :=
  match s with
  | String c r => if is_space c then trimStart r else s
  | EmptyString => EmptyString
  end.

Fixpoint trimEnd (s : string) : string :=
  match s with
  | EmptyString => EmptyString
  | String c r =>
      match trimEnd r with
      | EmptyString => if is_space c then EmptyString else String c EmptyString
      | r' => String c r'
      end
  end.

Definition trim (s : string) : string := trimEnd (trimStart s).

Definition startsWith (s pre : string) : bool := String.prefix pre s.

Fixpoint includes (s sub : string) : bool :=
  String.prefix sub s ||
  match s with
  | EmptyString => false
  | String _ r => includes r sub
  end.

(** [s.substring(n)] *)
Fixpoint substring_from (n : nat) (s : string) : string :=
  match n, s with
  | O, _ => s
  | S n', String _ r => substring_from n' r
  | S _, EmptyString => EmptyString
  end.

(** [s.charAt(n)]: a string of one character, or the empty string. *)
Definition charAt (n : nat) (s : string) : string :=
  match substring_from n s with
  | String c _ => String c EmptyString
  | EmptyString => EmptyString
  end.

(** A string is truthy when it is not empty. *)
Definition truthy (s : string) : bool :=
  match s with EmptyString => false | _ => true end.

(** [s.split(' ')]: the pieces between single spaces, empty pieces kept. *)
Fixpoint split_space (s : string) : list string :=
  match s with
  | EmptyString => [EmptyString]
  | String c r =>
      if (code c =? 32)%nat then EmptyString :: split_space r
      else match split_space r with
           | w :: ws => String c w :: ws
           | [] => [String c EmptyString]
           end
  end.

(** The tokens of a space-separated attribute such as [class]. *)
Fixpoint tokens_go (cur : string) (s : string) : list string :=
  match s with
  | EmptyString => if truthy cur then [cur] else []
  | String c r =>
      if is_space c
      then (if truthy cur then [cur] else []) ++ tokens_go EmptyString r
      else tokens_go (cur +:+ String c EmptyString) r
  end.

Definition tokens (s : string) : list string := tokens_go EmptyString s.

Fixpoint join (sep : string) (l : list string) : string :=
  match l with
  | [] => EmptyString
  | [x] => x
  | x :: r => x +:+ sep +:+ join sep r
  end.

(** [s.replace(/[^\w\s-]/g, '')] *)
Fixpoint strip_special (s : string) : string :=
  match s with
  | EmptyString => EmptyString
  | String c r =>
      if is_word c || is_space c || is_hyphen c
      then String c (strip_special r) else strip_special r
  end.

(** [s.replace(/P+/g, '-')] for a character class [P]: every maximal run
    of characters of the class becomes one hyphen. *)
Fixpoint collapse_runs (P : ascii → bool) (in_run : bool) (s : string) : string :=
  match s with
  | EmptyString => EmptyString
  | String c r =>
      if P c
      then (if in_run then collapse_runs P true r
            else String "-" (collapse_runs P true r))
      else String c (collapse_runs P false r)
  end.

(** ** Numbers

    The numbers the two modules compute with are integers or [NaN];
    [None] is [NaN], and every comparison with [NaN] is false. *)

Definition num := option Z.

Definition digit_value (c : ascii) : option Z :=
  if is_digit c then Some (Z.of_nat (code c - 48))
  else if is_lower c then Some (Z.of_nat (code c - 87))
  else if is_upper c then Some (Z.of_nat (code c - 55))
  else None.

Fixpoint digits_go (radix : Z) (acc : num) (s : string) : num :=
  match s with
  | EmptyString => acc
  | String c r =>
      match digit_value c with
      | Some v =>
          if v <? radix
          then digits_go radix (Some (radix * default 0 acc + v)) r
          else acc
      | None => acc
      end
  end.

Definition has_hex_prefix (s : string) : bool :=
  String.prefix "0x" s || String.prefix "0X" s.

(** [parseInt(s)] and [parseInt(s, 16)]: leading white space, a sign, a
    [0x] prefix when the radix allows it, then the longest run of
    digits; [NaN] when there is no digit. *)
Definition parseInt_radix (radix : option Z) (s : string) : num :=
  let s := trimStart s in
  let '(neg, s) :=
    match s with
    | String "-" r => (true, r)
    | String "+" r => (false, r)
    | _ => (false, s)
    end in
  let '(rdx, s) :=
    match radix with
    | Some 16 => (16, if has_hex_prefix s then substring_from 2 s else s)
    | Some r => (r, s)
    | None => if has_hex_prefix s then (16, substring_from 2 s) else (10, s)
    end in
  (λ v : Z, if neg then - v else v) <$> digits_go rdx None s.

Definition parseInt : string → num := parseInt_radix None.

Definition num_gt (a b : num) : bool :=
  match a, b with Some x, Some y => y <? x | _, _ => false end.
Definition num_ge (a b : num) : bool :=
  match a, b with Some x, Some y => y <=? x | _, _ => false end.
Definition num_eq (a b : num) : bool :=
  match a, b with Some x, Some y => x =? y | _, _ => false end.
Definition num_add (a b : num) : num :=
  match a, b with Some x, Some y => Some (x + y) | _, _ => None end.

(** [`${n}`] and [n.toString()] *)
Definition num_to_string (n : num) : string :=
  match n with Some z => pretty z | None => "NaN" end.

End JsString.
Import JsString.

(** ** The HTML tree *)

#[local] Unset Elimination Schemes.
Inductive node : Type :=
| Text (data : string)
| Elem (tag : string) (attrs : list (string * string)) (kids : list node).
#[local] Set Elimination Schemes.

(** A document, or a fragment: the children of the root. *)
Abbreviation document := (list node).

(** An element reference: the child indices from the root down. *)
Abbreviation path := (list nat).

Section node_induction.
Variable P : node → Prop.
Hypothesis P_text : ∀ s, P (Text s).
Hypothesis P_elem : ∀ t a ks, Forall P ks → P (Elem t a ks).

Fixpoint node_ind' (n : node) : P n :=
  match n with
  | Text s => P_text s
  | Elem t a ks =>
      P_elem t a ks
        ((fix go (l : list node) : Forall P l :=
            match l with
            | [] => List.Forall_nil P
            | k :: l' => List.Forall_cons P k l' (node_ind' k) (go l')
            end) ks)
  end.
End node_induction.

Module Dom.

(** *** Attributes: an ordered list, one entry per name *)

Abbreviation attrs_t := (list (string * string)).

Fixpoint lookup_attr (a : string) (l : attrs_t) : option string :=
  match l with
  | [] => None
  | (k, v) :: r => if String.eqb k a then Some v else lookup_attr a r
  end.

Fixpoint set_attr (a v : string) (l : attrs_t) : attrs_t :=
  match l with
  | [] => [(a, v)]
  | (k, w) :: r => if String.eqb k a then (k, v) :: r else (k, w) :: set_attr a v r
  end.

Definition node_attrs (n : node) : attrs_t :=
  match n with Elem _ a _ => a | Text _ => [] end.

Definition node_tag (n : node) : string :=
  match n with Elem t _ _ => t | Text _ => "" end.

Definition node_kids (n : node) : list node :=
  match n with Elem _ _ ks => ks | Text _ => [] end.

Definition is_elem (n : node) : bool :=
  match n with Elem _ _ _ => true | Text _ => false end.

(** [el.getAttribute(a)]: [None] is [null]. *)
Definition getAttribute (a : string) (n : node) : option string :=
  lookup_attr a (node_attrs n).

Definition hasAttribute (a : string) (n : node) : bool :=
  bool_decide (is_Some (getAttribute a n)).

(** [el.setAttribute(a, v)] *)
Definition setAttribute (a v : string) (n : node) : node :=
  match n with
  | Elem t l ks => Elem t (set_attr a v l) ks
  | Text _ => n
  end.

(** [el.id]: the attribute, or the empty string. *)
Definition id_of (n : node) : string := default "" (getAttribute "id" n).

(** [el.tagName]: upper case. *)
Definition tagName (n : node) : string := toUpperCase (node_tag n).

(** [el.textContent]: the text of the descendants, in order. *)
Fixpoint textContent (n : node) : string :=
  match n with
  | Text s => s
  | Elem _ _ ks => foldr (λ k acc, textContent k +:+ acc) "" ks
  end.

(** [el.textContent = s] *)
Definition set_textContent (s : string) (n : node) : node :=
  match n with
  | Elem t a _ => Elem t a (if truthy s then [Text s] else [])
  | Text _ => Text s
  end.

Definition classList (n : node) : list string :=
  remove_dups (tokens (default "" (getAttribute "class" n))).

(** [el.classList.contains(c)] *)
Definition classList_contains (c : string) (n : node) : bool :=
  bool_decide (c ∈ classList n).

(** [el.classList.add(c)]: the token set, with [c] appended when it is
    new, written back to the [class] attribute. *)
Definition classList_add (c : string) (n : node) : node :=
  let toks := classList n in
  setAttribute "class"
    (join " " (if bool_decide (c ∈ toks) then toks else toks ++ [c])) n.

(** *** Navigation by path *)

Definition on_kids (h : list node → list node) (n : node) : node :=
  match n with
  | Elem t a ks => Elem t a (h ks)
  | Text _ => n
  end.

Fixpoint get_node (p : path) (f : list node) : option node :=
  match p with
  | [] => None
  | i :: p' =>
      match f !! i with
      | Some n => match p' with [] => Some n | _ => get_node p' (node_kids n) end
      | None => None
      end
  end.

(** Apply [g] to the node a path names; a path that names no node
    changes nothing. *)
Fixpoint alter_at (g : node → node) (p : path) (f : list node) : list node :=
  match p with
  | [] => f
  | i :: p' =>
      alter (match p' with [] => g | _ => on_kids (alter_at g p') end) i f
  end.

(** The elements of a forest in document order, each with its path. *)
Definition walk_list (w : node → list (path * node)) : nat → list node → list (path * node) :=
  fix go (i : nat) (ks : list node) : list (path * node) :=
    match ks with
    | [] => []
    | k :: ks' => ((λ pn, (i :: pn.1, pn.2)) <$> w k) ++ go (S i) ks'
    end.

Fixpoint walk_node (n : node) : list (path * node) :=
  match n with
  | Text _ => []
  | Elem _ _ ks => ([], n) :: walk_list walk_node 0 ks
  end.

Definition walk_from : nat → list node → list (path * node) := walk_list walk_node.
Definition walk (d : document) : list (path * node) := walk_from 0 d.

(** The proper prefixes of a path, nearest ancestor first. *)
Fixpoint proper_prefixes (p : path) : list path :=
  match p with
  | [] => []
  | i :: p' => (cons i <$> proper_prefixes p') ++ [[]]
  end.

Definition ancestors (d : document) (p : path) : list (path * node) :=
  omap (λ q, (λ n, (q, n)) <$> get_node q d) (proper_prefixes p).

(** *** Selectors

    The selectors the two modules use are comma-separated lists of
    compound selectors, joined at most by the descendant combinator. *)

Inductive simple : Type :=
| STag (t : string)
| SClass (c : string)
| SId (i : string)
| SHas (a : string)
| SAttr (a v : string).

Abbreviation compound := (list simple).

(** A descendant chain, the subject last. *)
Abbreviation complex := (list (list simple)).
Abbreviation selector := (list (list (list simple))).

Definition matches_simple (n : node) (s : simple) : bool :=
  is_elem n &&
  match s with
  | STag t => String.eqb (node_tag n) t
  | SClass c => classList_contains c n
  | SId i => bool_decide (getAttribute "id" n = Some i)
  | SHas a => hasAttribute a n
  | SAttr a v => bool_decide (getAttribute a n = Some v)
  end.

Definition matches_compound (n : node) (c : compound) : bool :=
  forallb (matches_simple n) c.

(** The chain above the subject, innermost first, against the ancestors,
    nearest first. *)
Fixpoint matches_above (ancs : list node) (chain : list compound) : bool :=
  match chain with
  | [] => true
  | c :: chain' =>
      (fix find (l : list node) : bool :=
         match l with
         | [] => false
         | a :: l' =>
             if matches_compound a c then matches_above l' chain' else find l'
         end) ancs
  end.

Definition matches_complex (ancs : list node) (n : node) (c : complex) : bool :=
  match reverse c with
  | [] => false
  | subject :: above => matches_compound n subject && matches_above ancs above
  end.

Definition matches (d : document) (sel : selector) (pn : path * node) : bool :=
  existsb (matches_complex (snd <$> ancestors d pn.1) pn.2) sel.

Definition select (sel : selector) (d : document) : list (path * node) :=
  filter (λ pn, matches d sel pn) (walk d).

(** [querySelectorAll(sel)] and [querySelector(sel)] on the root. *)
Definition querySelectorAll (sel : selector) (d : document) : list path :=
  fst <$> select sel d.

Definition querySelector (sel : selector) (d : document) : option path :=
  head (querySelectorAll sel d).

(** [el.querySelectorAll(sel)]: the matches below the element. *)
Definition is_below (p q : path) : bool :=
  bool_decide (p `prefix_of` q) && negb (bool_decide (p = q)).

Definition querySelectorAll_in (p : path) (sel : selector) (d : document) : list path :=
  filter (λ q, is_below p q) (querySelectorAll sel d).

Definition querySelector_in (p : path) (sel : selector) (d : document) : option path :=
  head (querySelectorAll_in p sel d).

(** [el.closest(sel)]: the element itself or its nearest ancestor. *)
Definition closest (sel : selector) (p : path) (d : document) : option path :=
  fst <$> head (filter (λ pn, matches d sel pn)
                  (omap (λ q, (λ n, (q, n)) <$> get_node q d) [p] ++ ancestors d p)).

(** [getElementById(i)]: an element with an empty [id] has no id. *)
Definition getElementById (i : string) (d : document) : option path :=
  if truthy i then querySelector [[[SId i]]] d else None.

Definition tag_sel (t : string) : selector := [[[STag t]]].
Definition tags_sel (ts : list string) : selector := (λ t, [[STag t]]) <$> ts.

Definition heading_tags : list string := ["h1"; "h2"; "h3"; "h4"; "h5"; "h6"].

End Dom.
Import Dom.

(** ** Exceptions *)

Inductive outcome (A : Type) : Type :=
| Ret (a : A)
| Throw (msg : string).
Arguments Ret {A} a.
Arguments Throw {A} msg.

Definition obind {A B} (m : outcome A) (k : A → outcome B) : outcome B :=
  match m with
  | Ret a => k a
  | Throw e => Throw e
  end.

(** [try { m } catch (error) { h(error.message) }] *)
Definition try_catch {A} (m : outcome A) (h : string → A) : A :=
  match m with
  | Ret a => a
  | Throw e => h e
  end.

(** A property read on an object literal: an own property, or else what
    the object inherits from [Object.prototype]. *)
Definition object_prototype_keys : list string :=
  ["constructor"; "toString"; "toLocaleString"; "valueOf"; "hasOwnProperty";
   "isPrototypeOf"; "propertyIsEnumerable"; "__proto__"; "__defineGetter__";
   "__defineSetter__"; "__lookupGetter__"; "__lookupSetter__"].

Inductive property (A : Type) : Type :=
| Own (v : A)
| Inherited
| Undefined.
Arguments Own {A} v.
Arguments Inherited {A}.
Arguments Undefined {A}.

Definition get_property {A} (own : gmap string A) (k : string) : property A :=
  match own !! k with
  | Some v => Own v
  | None => if bool_decide (k ∈ object_prototype_keys) then Inherited else Undefined
  end.

(** The values [===] compares in the Auditor. *)
Inductive jsval : Type :=
| JBool (b : bool)
| JStr (s : string).

Definition strict_eq (x y : jsval) : bool :=
  match x, y with
  | JBool a, JBool b => eqb a b
  | JStr a, JStr b => String.eqb a b
  | _, _ => false
  end.

(** [!v] for a value that is a string or [null]. *)
Definition not_value (v : option string) : bool :=
  match v with
  | Some s => negb (truthy s)
  | None => true
  end.

(** ** The Auditor (src/accessibility/checker.js) *)

Module Checker.

Inductive IssueKind : Type :=
| wcag | heading | contrast | html | aria | keyboard | screen_reader | error.

(** An issue; [element] is the element whose [outerHTML] the issue
    carries, [fields] the rule-specific fields. *)
Record issue : Type := Issue {
  type : IssueKind;
  message : string;
  element : option node;
  fields : list (string * list string)
}.

Record config : Type := Config {
  checkWCAG : bool;
  checkHeadingHierarchy_on : bool;
  checkColorContrast_on : bool;
  validateHTML_on : bool;
  checkARIA : bool;
  checkKeyboardAccessibility_on : bool;
  checkScreenReaderAnnouncements_on : bool
}.

(** *** Heading hierarchy *)

Definition headings_selector : selector := tags_sel heading_tags.

Definition level_of (h : node) : num := parseInt (charAt 1 (tagName h)).

(** One turn of the loop over the headings: the issues it pushes and the
    new [previousLevel]. *)
Definition heading_turn (previousLevel : num) (h : node) : list issue * num :=
  let currentLevel := level_of h in
  ((if num_eq previousLevel (Some 0) && negb (num_eq currentLevel (Some 1))
    then [Issue heading
            ("Document doesn't start with an h1. First heading is " +:+ tagName h)
            (Some h) []]
    else []) ++
   (if num_gt currentLevel (num_add previousLevel (Some 1))
    then [Issue heading
            ("Heading level skipped from h" +:+ num_to_string previousLevel +:+
             " to h" +:+ num_to_string currentLevel)
            (Some h) []]
    else []),
   currentLevel).

Fixpoint heading_loop (previousLevel : num) (hs : list node) : list issue :=
  match hs with
  | [] => []
  | h :: rest =>
      let '(pushed, lvl) := heading_turn previousLevel h in
      pushed ++ heading_loop lvl rest
  end.

Definition checkHeadingHierarchy (d : document) : list issue :=
  let headings := snd <$> select headings_selector d in
  if (length headings =? 0)%nat
  then [Issue heading
          "Document has no headings, which may make navigation difficult for screen reader users"
          None []]
  else
    (if querySelector (tag_sel "h1") d is Some _ then []
     else [Issue heading
             "Document lacks a main heading (h1), which is important for document structure"
             None []]) ++
    heading_loop (Some 0) headings.

(** *** ARIA usage *)

Definition validRoles : list string :=
  ["alert"; "alertdialog"; "application"; "article"; "banner";
   "button"; "cell"; "checkbox"; "columnheader"; "combobox";
   "complementary"; "contentinfo"; "definition"; "dialog";
   "directory"; "document"; "feed"; "figure"; "form"; "grid";
   "gridcell"; "group"; "heading"; "img"; "link"; "list";
   "listbox"; "listitem"; "log"; "main"; "marquee"; "math";
   "menu"; "menubar"; "menuitem"; "menuitemcheckbox";
   "menuitemradio"; "navigation"; "none"; "note"; "option";
   "presentation"; "progressbar"; "radio"; "radiogroup";
   "region"; "row"; "rowgroup"; "rowheader"; "scrollbar";
   "search"; "searchbox"; "separator"; "slider"; "spinbutton";
   "status"; "switch"; "tab"; "table"; "tablist"; "tabpanel";
   "term"; "textbox"; "timer"; "toolbar"; "tooltip"; "tree";
   "treegrid"; "treeitem"].

Definition rolesThatRequireAttributes : gmap string (list string) :=
  list_to_map
    [("checkbox", ["aria-checked"]);
     ("combobox", ["aria-expanded"]);
     ("slider", ["aria-valuemin"; "aria-valuemax"; "aria-valuenow"]);
     ("progressbar", ["aria-valuemin"; "aria-valuemax"; "aria-valuenow"]);
     ("scrollbar", ["aria-valuemin"; "aria-valuemax"; "aria-valuenow"]);
     ("listbox", ["aria-multiselectable"]);
     ("radiogroup", ["aria-required"])].

Definition role_of (el : node) : string := default "" (getAttribute "role" el).

Definition invalid_role_issues (el : node) : list issue :=
  let role := role_of el in
  if bool_decide (role ∈ validRoles) then []
  else [Issue aria ("Invalid ARIA role: " +:+ dq +:+ role +:+ dq) (Some el) []].

(** The second loop: [for (const attr of requiredAttributes)] throws a
    [TypeError] when the value read from the table is not iterable. *)
Definition required_attribute_issues (el : node) : outcome (list issue) :=
  let role := role_of el in
  match get_property rolesThatRequireAttributes role with
  | Own requiredAttributes =>
      Ret ((λ attr,
             Issue aria
               ("Element with role=" +:+ dq +:+ role +:+ dq +:+
                " is missing required attribute: " +:+ attr)
               (Some el) [])
           <$> filter (λ attr, negb (hasAttribute attr el)) requiredAttributes)
  | Inherited => Throw "requiredAttributes is not iterable"
  | Undefined => Ret []
  end.

Fixpoint collect {A B} (f : A → outcome (list B)) (l : list A) : outcome (list B) :=
  match l with
  | [] => Ret []
  | x :: r => obind (f x) (λ ys, obind (collect f r) (λ zs, Ret (ys ++ zs)))
  end.

Definition checkARIAUsage (d : document) : outcome (list issue) :=
  let elementsWithRole := snd <$> select [[[SHas "role"]]] d in
  obind (collect required_attribute_issues elementsWithRole) (λ missing,
    Ret (concat (invalid_role_issues <$> elementsWithRole) ++ missing)).

(** *** Keyboard accessibility *)

Definition interactive_selector : selector :=
  [[[STag "a"]]; [[STag "button"]]; [[STag "input"]]; [[STag "select"]];
   [[STag "textarea"]]; [[SAttr "role" "button"]]; [[SAttr "role" "link"]]].

Definition tabindex_issues (el : node) : list issue :=
  let tabindex := getAttribute "tabindex" el in
  (if bool_decide (tabindex = Some "-1")
   then [Issue keyboard
           ("Interactive element is not keyboard accessible (tabindex=" +:+
            dq +:+ "-1" +:+ dq +:+ ")")
           (Some el) []]
   else []) ++
  (if negb (not_value tabindex) && num_gt (parseInt (default "" tabindex)) (Some 0)
   then [Issue keyboard
           ("Tabindex greater than 0 (" +:+ default "" tabindex +:+
            ") can cause navigation issues")
           (Some el) []]
   else []).

Definition checkKeyboardAccessibility (d : document) : list issue :=
  concat (tabindex_issues <$> (snd <$> select interactive_selector d)) ++
  concat ((λ div,
            if hasAttribute "tabindex" div then []
            else [Issue keyboard
                    ("Element with role=" +:+ dq +:+ "button" +:+ dq +:+
                     " needs tabindex attribute for keyboard access")
                    (Some div) []])
          <$> (snd <$> select [[[STag "div"; SAttr "role" "button"]]] d)).

(** *** Screen-reader hazards *)

Definition empty_alt_message : string := "Non-decorative image has empty alt text".

Definition image_issues (d : document) (pn : path * node) : list issue :=
  let img := pn.2 in
  match getAttribute "alt" img with
  | None => [Issue screen_reader "Image missing alt attribute" (Some img) []]
  | Some alt =>
      if String.eqb (trim alt) ""
      then
        if negb (classList_contains "decorative" img) &&
           negb (bool_decide (is_Some (closest (tag_sel "figure") pn.1 d))) &&
           strict_eq (JBool (not_value (getAttribute "aria-hidden" img))) (JStr "true")
        then [Issue screen_reader empty_alt_message (Some img) []]
        else []
      else if includes (toLowerCase alt) "image of" ||
              includes (toLowerCase alt) "picture of"
      then [Issue screen_reader
              ("Alt text should not include phrases like " +:+ dq +:+ "image of" +:+
               dq +:+ " or " +:+ dq +:+ "picture of" +:+ dq)
              (Some img) []]
      else []
  end.

Definition hidden_interactive_selector : selector :=
  [[[STag "a"; SAttr "aria-hidden" "true"]];
   [[STag "button"; SAttr "aria-hidden" "true"]];
   [[STag "input"; SAttr "aria-hidden" "true"]]].

(** The loop over the elements with an [id]; [allIds] is the object used
    as a set. *)
Fixpoint duplicate_id_loop (allIds : gmap string bool) (els : list node) : list issue :=
  match els with
  | [] => []
  | el :: rest =>
      let id := id_of el in
      match get_property allIds id with
      | Own false | Undefined => duplicate_id_loop (<[id := true]> allIds) rest
      | Own true | Inherited =>
          Issue screen_reader
            ("Duplicate ID: " +:+ dq +:+ id +:+ dq +:+
             " - can cause issues with aria references")
            (Some el) []
          :: duplicate_id_loop allIds rest
      end
  end.

Definition labelledby_issues (d : document) (el : node) : list issue :=
  let labelIds := split_space (default "" (getAttribute "aria-labelledby" el)) in
  (λ id,
    Issue screen_reader
      ("aria-labelledby references non-existent ID: " +:+ dq +:+ id +:+ dq)
      (Some el) [])
  <$> filter (λ id, negb (bool_decide (is_Some (getElementById id d)))) labelIds.

Definition checkScreenReaderAnnouncements (d : document) : list issue :=
  concat (image_issues d <$> select (tag_sel "img") d) ++
  ((λ el,
     Issue screen_reader
       ("Interactive element is hidden from screen readers (aria-hidden=" +:+
        dq +:+ "true" +:+ dq +:+ ")")
       (Some el) [])
   <$> (snd <$> select hidden_interactive_selector d)) ++
  duplicate_id_loop ∅ (snd <$> select [[[SHas "id"]]] d) ++
  concat (labelledby_issues d <$> (snd <$> select [[[SHas "aria-labelledby"]]] d)).

(** *** Colour contrast *)

(** What the check reads from a computed style. *)
Record style : Type := Style {
  color : string;
  backgroundColor : string;
  fontSize : string;
  fontWeight : string
}.

Fixpoint take_while (P : ascii → bool) (s : string) : string * string :=
  match s with
  | EmptyString => (EmptyString, EmptyString)
  | String c r =>
      if P c then let '(a, b) := take_while P r in (String c a, b)
      else (EmptyString, s)
  end.

(** [/(\d+),\s*(\d+),\s*(\d+)/] anchored at the start of [s]: the three
    groups. Each repetition is followed by a character outside its
    class, so the greedy match is the only one. *)
Definition rgb_match_here (s : string) : option (string * string * string) :=
  let '(g1, r1) := take_while is_digit s in
  if negb (truthy g1) then None else
  match r1 with
  | String "," r1' =>
      let '(g2, r2) := take_while is_digit (take_while is_space r1').2 in
      if negb (truthy g2) then None else
      match r2 with
      | String "," r2' =>
          let '(g3, _) := take_while is_digit (take_while is_space r2').2 in
          if negb (truthy g3) then None else Some (g1, g2, g3)
      | _ => None
      end
  | _ => None
  end.

(** [color.match(...)]: the leftmost match. *)
Fixpoint rgb_match (s : string) : option (string * string * string) :=
  match rgb_match_here s with
  | Some m => Some m
  | None =>
      match s with
      | EmptyString => None
      | String _ r => rgb_match r
      end
  end.

(** [hex.substr(i, 2)] *)
Definition substr2 (i : nat) (s : string) : string :=
  String.substring i 2 s.

Fixpoint double_chars (s : string) : string :=
  match s with
  | EmptyString => EmptyString
  | String c r => String c (String c (double_chars r))
  end.

Definition parseColor (color : string) : option (list num) :=
  if negb (truthy color) then None
  else if startsWith color "rgb" then
    match rgb_match color with
    | Some (m1, m2, m3) => Some [parseInt m1; parseInt m2; parseInt m3]
    | None => None
    end
  else if startsWith color "#" then
    let hex := substring_from 1 color in
    let hex := if (String.length hex =? 3)%nat then double_chars hex else hex in
    Some [parseInt_radix (Some 16) (substr2 0 hex);
          parseInt_radix (Some 16) (substr2 2 hex);
          parseInt_radix (Some 16) (substr2 4 hex)]
  else None.

(** [x.toFixed(2)] for a finite [x]: the nearest multiple of 1/100, the
    larger one on a tie, with two decimals. *)
Definition toFixed2 (x : Q) : string :=
  let neg := (Qnum x <? 0) in
  let a := Qabs x in
  let n := Qfloor (a * (100 # 1) + (1 # 2))%Q in
  (if neg then "-" else "") +:+
  pretty (n / 100) +:+ "." +:+ pretty (n mod 100 / 10) +:+ pretty (n mod 10).

(** [x < y] on finite numbers. *)
Definition q_lt (x y : Q) : bool := negb (Qle_bool y x).

Definition text_selector : selector :=
  tags_sel ["p"; "h1"; "h2"; "h3"; "h4"; "h5"; "h6"; "li"; "td"; "th"; "label"].

Section with_environment.

(** The environment of the module: the style resolver, the contrast
    library ([None] is [NaN]), the rule engine, the markup validator
    and the parser. *)
Variable getComputedStyle : document → path → style.
Variable wcagContrast_rgb : list num → list num → option Q.

Definition contrast_issue (d : document) (pn : path * node) : list issue :=
  let st := getComputedStyle d pn.1 in
  if negb (truthy (color st)) || negb (truthy (backgroundColor st)) then []
  else
    match parseColor (color st), parseColor (backgroundColor st) with
    | Some foreground, Some background =>
        let ratio := wcagContrast_rgb foreground background in
        let fontSize := parseInt (fontSize st) in
        let isBold := num_ge (parseInt (fontWeight st)) (Some 700) in
        let isLargeText :=
          num_ge fontSize (Some 18) || (num_ge fontSize (Some 14) && isBold) in
        let minimumRatio : Q := if isLargeText then (3 # 1)%Q else (45 # 10)%Q in
        match ratio with
        | Some r =>
            if q_lt r minimumRatio
            then [Issue contrast
                    ("Insufficient color contrast ratio (" +:+ toFixed2 r +:+
                     ":1), should be at least " +:+
                     (if isLargeText then "3" else "4.5") +:+ ":1")
                    (Some pn.2)
                    [("foreground", [color st]);
                     ("background", [backgroundColor st])]]
            else []
        | None => []
        end
    | _, _ => []
    end.

Definition checkColorContrast (d : document) : list issue :=
  concat (contrast_issue d <$> select text_selector d).

(** *** The rule engine and the validator *)

Record violation : Type := Violation {
  v_id : string;
  v_impact : string;
  v_help : string;
  v_description : string;
  v_helpUrl : string;
  v_nodes : list string
}.

Record validator_message : Type := ValidatorMessage {
  m_type : string;
  m_message : string;
  m_line : string;
  m_column : string
}.

Variable axe_run : document → outcome (list violation).
Variable htmlValidator : string → outcome (list validator_message).
Variable JSDOM : string → outcome document.

Definition runAxeChecks (d : document) : list issue :=
  try_catch
    (obind (axe_run d) (λ violations,
       Ret ((λ v,
              Issue wcag (v_help v) None
                [("rule", [v_id v]); ("impact", [v_impact v]);
                 ("description", [v_description v]);
                 ("helpUrl", [v_helpUrl v]); ("elements", v_nodes v)])
            <$> violations)))
    (λ msg, [Issue wcag ("Error running axe checks: " +:+ msg) None
               [("rule", ["axe-error"])]]).

Definition validateHTML (html_text : string) : list issue :=
  try_catch
    (obind (htmlValidator html_text) (λ messages,
       if (length messages =? 0)%nat then Ret []
       else
         Ret ((λ m,
                Issue html (m_message m) None
                  [("subtype", [m_type m]); ("line", [m_line m]);
                   ("column", [m_column m])])
              <$> filter (λ m, bool_decide (m_type m ∈ ["error"; "warning"]))
                    messages)))
    (λ msg, [Issue html ("HTML validation failed: " +:+ msg) None []]).

(** *** [checkAccessibility] *)

Definition when {A} (b : bool) (m : outcome (list A)) : outcome (list A) :=
  if b then m else Ret [].

Definition checkAccessibility (cfg : config) (html_text : string) : list issue :=
  try_catch
    (obind (JSDOM html_text) (λ d,
     obind (when (checkWCAG cfg) (Ret (runAxeChecks d))) (λ axeIssues,
     obind (when (checkHeadingHierarchy_on cfg) (Ret (checkHeadingHierarchy d))) (λ headingIssues,
     obind (when (checkColorContrast_on cfg) (Ret (checkColorContrast d))) (λ contrastIssues,
     obind (when (validateHTML_on cfg) (Ret (validateHTML html_text))) (λ validationIssues,
     obind (when (checkARIA cfg) (checkARIAUsage d)) (λ ariaIssues,
     obind (when (checkKeyboardAccessibility_on cfg) (Ret (checkKeyboardAccessibility d))) (λ keyboardIssues,
     obind (when (checkScreenReaderAnnouncements_on cfg) (Ret (checkScreenReaderAnnouncements d))) (λ srIssues,
       Ret (axeIssues ++ headingIssues ++ contrastIssues ++ validationIssues ++
            ariaIssues ++ keyboardIssues ++ srIssues))))))))))
    (λ msg, [Issue error ("Accessibility check failed: " +:+ msg) None []]).

End with_environment.

End Checker.

(** ** The Enhancer (accessibility/aria.js) *)

Module Enhancer.

(** The frontmatter keys the Enhancer reads; [None] is an absent key. *)
Record frontmatter : Type := Frontmatter {
  language : option string;
  title : option string
}.

(** *** Reading an element through its path *)

Definition attr_at (a : string) (p : path) (d : document) : option string :=
  get_node p d ≫= getAttribute a.

Definition has_attr_at (a : string) (p : path) (d : document) : bool :=
  bool_decide (is_Some (attr_at a p d)).

Definition id_at (p : path) (d : document) : string :=
  default "" (attr_at "id" p d).

Definition text_at (p : path) (d : document) : string :=
  default "" (textContent <$> get_node p d).

Definition tag_at (p : path) (d : document) : string :=
  default "" (node_tag <$> get_node p d).

Definition set_at (a v : string) (p : path) (d : document) : document :=
  alter_at (setAttribute a v) p d.

(** [el.previousElementSibling] *)
Definition siblings_of (p : path) (d : document) : list node :=
  match removelast p with
  | [] => d
  | parent => default [] (node_kids <$> get_node parent d)
  end.

Definition previousElementSibling (p : path) (d : document) : option path :=
  match last p with
  | None => None
  | Some i =>
      (λ j, removelast p ++ [j]) <$>
      last (filter (λ j, bool_decide (is_elem <$> siblings_of p d !! j = Some true))
              (seq 0 i))
  end.

(** *** Language and title *)

Definition ensureHtmlLangAttribute (d : document) (language : string) : document :=
  match querySelector (tag_sel "html") d with
  | Some htmlElement => set_at "lang" language htmlElement d
  | None => d
  end.

Definition fill_title (title : string) (headElement : path) (d : document) : document :=
  match querySelector_in headElement (tag_sel "title") d with
  | None =>
      alter_at (on_kids (λ ks, ks ++ [Elem "title" [] [Text title]])) headElement d
  | Some titleElement =>
      if negb (truthy (trim (text_at titleElement d)))
      then alter_at (set_textContent title) titleElement d
      else d
  end.

Definition ensureDocumentTitle (d : document) (title : option string) : document :=
  match title with
  | None => d
  | Some title =>
      if negb (truthy title) then d
      else
        match querySelector (tag_sel "head") d with
        | Some headElement => fill_title title headElement d
        | None =>
            match querySelector (tag_sel "html") d with
            | Some htmlElement =>
                fill_title title (htmlElement ++ [0%nat])
                  (alter_at (on_kids (cons (Elem "head" [] []))) htmlElement d)
            | None => d
            end
        end
  end.

(** *** Landmarks *)

Definition main_candidates : selector :=
  [[[SClass "content"]]; [[SId "content"]]; [[STag "article"]];
   [[SClass "main"]]; [[SId "main"]]].

(** The main element, after the wrapper was made where one is needed. *)
Definition resolve_main (d : document) : document * option path :=
  match querySelector (tag_sel "main") d with
  | Some mainElement => (d, Some mainElement)
  | None =>
      match querySelectorAll main_candidates d with
      | mainElement :: _ => (set_at "role" "main" mainElement d, Some mainElement)
      | [] =>
          match querySelector (tag_sel "body") d with
          | Some body =>
              (alter_at (on_kids (λ ks, [Elem "main" [] ks])) body d,
               Some (body ++ [0%nat]))
          | None => (d, None)
          end
      end
  end.

Definition mark_main (mainElement : node) : node :=
  let m := setAttribute "role" "main" mainElement in
  if truthy (id_of m) then m else setAttribute "id" "main-content" m.

Definition label_nav (nav : node) : node :=
  if hasAttribute "aria-label" nav then nav
  else setAttribute "aria-label" "Main Navigation" nav.

Definition mark_aside (i : nat) (aside : node) : node :=
  let a := setAttribute "role" "complementary" aside in
  if hasAttribute "aria-label" a then a
  else setAttribute "aria-label" ("Complementary Content " +:+ pretty (i + 1)%nat) a.

Definition mark_first (t role : string) (d : document) : document :=
  match querySelector (tag_sel t) d with
  | Some el => set_at "role" role el d
  | None => d
  end.

Definition for_each (step : document → path → document) (ps : list path)
    (d : document) : document :=
  fold_left step ps d.

Definition addDocumentLandmarks (d : document) : document :=
  let '(d, mainElement) := resolve_main d in
  let d := match mainElement with
           | Some m => alter_at mark_main m d
           | None => d
           end in
  let d := mark_first "header" "banner" d in
  let d := for_each (λ d nav, alter_at label_nav nav d)
             (querySelectorAll (tag_sel "nav") d) d in
  let d := mark_first "footer" "contentinfo" d in
  let asideElements := querySelectorAll (tag_sel "aside") d in
  fold_left (λ d ip, alter_at (mark_aside ip.1) ip.2 d)
    (zip (seq 0 (length asideElements)) asideElements) d.

(** *** Headings *)

Definition slugify (headingText : string) : string :=
  collapse_runs is_hyphen false
    (collapse_runs is_space false (strip_special (toLowerCase headingText))).

Definition heading_step (h : node) : node :=
  let h := if truthy (id_of h) then h
           else setAttribute "id" (slugify (trim (textContent h))) h in
  let h := setAttribute "tabindex" "-1" h in
  if bool_decide (getAttribute "role" h = Some "heading") &&
     negb (hasAttribute "aria-level" h)
  then setAttribute "aria-level" (num_to_string (parseInt (charAt 1 (tagName h)))) h
  else h.

Definition enhanceHeadings (d : document) : document :=
  for_each (λ d heading, alter_at heading_step heading d)
    (querySelectorAll (tags_sel heading_tags) d) d.

(** *** Links *)

Definition external_icon : selector :=
  [[[STag "i"; SClass "external"]]; [[SClass "fa-external-link"]];
   [[SClass "icon-external"]]].

Definition external_link (link : path) (d : document) : document :=
  let d := if not_value (attr_at "rel" link d)
           then set_at "rel" "noopener noreferrer" link d else d in
  let linkText := toLowerCase (text_at link d) in
  let hasExternalIndicator :=
    includes linkText "external" ||
    bool_decide (is_Some (querySelector_in link external_icon d)) in
  if negb hasExternalIndicator && not_value (attr_at "aria-label" link d)
  then set_at "aria-label" (text_at link d +:+ " (external link)") link d
  else d.

Definition anchor_link (href : string) (link : path) (d : document) : document :=
  let targetId := substring_from 1 href in
  match getElementById targetId d with
  | Some targetElement =>
      let d := if has_attr_at "tabindex" targetElement d then d
               else set_at "tabindex" "-1" targetElement d in
      if not_value (attr_at "aria-label" link d)
      then set_at "aria-label" ("Jump to " +:+ text_at link d) link d
      else d
  | None => d
  end.

Definition warn (text : string) (el : node) : node :=
  setAttribute "data-a11y-warning" text (classList_add "a11y-warning" el).

Definition accessible_text (link : path) (d : document) : document :=
  if negb (truthy (trim (text_at link d))) && negb (has_attr_at "aria-label" link d)
  then
    match querySelector_in link (tag_sel "img") d ≫= (λ img, attr_at "alt" img d) with
    | Some alt =>
        if truthy alt then set_at "aria-label" alt link d
        else alter_at (warn "Link has no accessible text") link d
    | None => alter_at (warn "Link has no accessible text") link d
    end
  else d.

Definition link_step (d : document) (link : path) : document :=
  match attr_at "href" link d with
  | None => d
  | Some href =>
      if negb (truthy href) then d
      else
        let d := if startsWith href "http://" || startsWith href "https://"
                 then external_link link d else d in
        let d := if startsWith href "#" then anchor_link href link d else d in
        accessible_text link d
  end.

Definition enhanceLinks (d : document) : document :=
  for_each link_step (querySelectorAll (tag_sel "a") d) d.

(** *** Code blocks *)

Definition code_language (codeBlock : node) : string :=
  match filter (λ className, startsWith className "language-") (classList codeBlock) with
  | className :: _ => substring_from 9 className
  | [] => "code"
  end.

Definition code_step (d : document) (codeBlock : path) : document :=
  match closest (tag_sel "pre") codeBlock d with
  | Some pre =>
      let d := set_at "tabindex" "0" pre d in
      let d := set_at "role" "region" pre d in
      let language := default "code" (code_language <$> get_node codeBlock d) in
      set_at "aria-label" ("Code example in " +:+ language) pre d
  | None => d
  end.

Definition enhanceCodeBlocks (d : document) : document :=
  for_each code_step (querySelectorAll [[[STag "pre"]; [STag "code"]]] d) d.

(** *** The skip link *)

Definition skip_targets : selector :=
  [[[STag "a"; SAttr "href" "#main"]]; [[STag "a"; SAttr "href" "#main-content"]];
   [[STag "a"; SAttr "href" "#content"]]].

Definition skipLink : node :=
  Elem "a" [("href", "#main-content"); ("class", "skip-link")]
    [Text "Skip to main content"].

Definition addSkipNavigation (d : document) : document :=
  match querySelector (tag_sel "body") d, querySelector skip_targets d with
  | Some body, None => alter_at (on_kids (cons skipLink)) body d
  | _, _ => d
  end.

(** *** Tables and forms

    These two passes draw identifiers from [Math.random]; the state they
    thread is the tree and the number of identifiers drawn so far. The
    forms pass builds a selector from an [id], and the selector engine
    throws on text that is not a selector. *)

Section with_environment.

(** The [n]-th value of [Math.random().toString(36).substr(2, 9)]. *)
Variable random_id : nat → string.

(** The selector engine's parser, for the selector built at run time. *)
Variable parse_selector : string → outcome selector.

Definition state : Type := document * nat.

Definition fresh_id (prefix : string) (el : path) (s : state) : state :=
  if truthy (id_at el s.1) then s
  else (set_at "id" (prefix +:+ random_id s.2) el s.1, S s.2).

Definition is_heading_tag (n : node) : bool :=
  bool_decide (toLowerCase (tagName n) ∈ heading_tags).

Definition table_caption (table : path) (s : state) : state :=
  match querySelector_in table (tag_sel "caption") s.1 with
  | Some _ => s
  | None =>
      let potentialCaption := previousElementSibling table s.1 in
      match potentialCaption with
      | Some pc =>
          if default false (is_heading_tag <$> get_node pc s.1)
          then
            let s := fresh_id "table-heading-" pc s in
            (set_at "aria-labelledby" (id_at pc s.1) table s.1, s.2)
          else if has_attr_at "aria-label" table s.1 then s
          else (set_at "aria-label" "Table" table s.1, s.2)
      | None =>
          if has_attr_at "aria-label" table s.1 then s
          else (set_at "aria-label" "Table" table s.1, s.2)
      end
  end.

Definition default_scope (th : node) : node :=
  setAttribute "scope"
    (match getAttribute "scope" th with
     | Some sc => if truthy sc then sc else "col"
     | None => "col"
     end) th.

Definition table_step (s : state) (table : path) : state :=
  let d := set_at "role" "table" table s.1 in
  let d := for_each (λ d th, alter_at default_scope th d)
             (querySelectorAll_in table (tag_sel "th") d) d in
  let '(d, n) := table_caption table (d, s.2) in
  let d := for_each (λ d row, set_at "role" "row" row d)
             (querySelectorAll_in table (tag_sel "tr") d) d in
  let d := for_each (λ d cell, set_at "role" "cell" cell d)
             (querySelectorAll_in table (tag_sel "td") d) d in
  (d, n).

Definition enhanceTables (s : state) : state :=
  fold_left table_step (querySelectorAll (tag_sel "table") s.1) s.

Definition form_step (s : state) (form : path) : state :=
  if negb (has_attr_at "aria-label" form s.1) &&
     negb (has_attr_at "aria-labelledby" form s.1)
  then
    match querySelector_in form (tags_sel heading_tags) s.1 with
    | Some formHeading =>
        let s := fresh_id "form-heading-" formHeading s in
        (set_at "aria-labelledby" (id_at formHeading s.1) form s.1, s.2)
    | None => (set_at "aria-label" "Form" form s.1, s.2)
    end
  else s.

Definition input_types : list string :=
  ["hidden"; "text"; "search"; "tel"; "url"; "email"; "password"; "date";
   "month"; "week"; "time"; "datetime-local"; "number"; "range"; "color";
   "checkbox"; "radio"; "file"; "submit"; "image"; "reset"; "button"].

(** [el.type] of an [input], [select] or [textarea]. *)
Definition type_of (el : node) : string :=
  if String.eqb (node_tag el) "input" then
    let t := toLowerCase (default "" (getAttribute "type" el)) in
    if bool_decide (t ∈ input_types) then t else "text"
  else if String.eqb (node_tag el) "select" then
    (if hasAttribute "multiple" el then "select-multiple" else "select-one")
  else "textarea".

(** [parsedHtml.querySelector(`label[for="${inputId}"]`)] *)
Definition label_for (inputId : string) (d : document) : outcome (option path) :=
  obind (parse_selector ("label[for=" +:+ dq +:+ inputId +:+ dq +:+ "]"))
    (λ sel, Ret (querySelector sel d)).

Definition input_step (s : state) (input : path) : outcome state :=
  let inputId := id_at input s.1 in
  let type := default "" (type_of <$> get_node input s.1) in
  if bool_decide (type ∈ ["hidden"; "submit"; "button"]) then Ret s
  else
    let s := if negb (truthy inputId)
             then (set_at "id" ("input-" +:+ random_id s.2) input s.1, S s.2)
             else s in
    obind (if truthy inputId
           then obind (label_for inputId s.1) (λ label, Ret (bool_decide (is_Some label)))
           else Ret false) (λ hasAssociatedLabel,
    let hasAssociatedLabel :=
      if negb hasAssociatedLabel
      then bool_decide (is_Some (closest (tag_sel "label") input s.1))
      else hasAssociatedLabel in
    let hasAssociatedLabel :=
      if negb hasAssociatedLabel
      then has_attr_at "aria-label" input s.1 || has_attr_at "aria-labelledby" input s.1
      else hasAssociatedLabel in
    let d := if negb hasAssociatedLabel
             then alter_at (warn "Input has no accessible label") input s.1
             else s.1 in
    let d := if has_attr_at "required" input d
             then set_at "aria-required" "true" input d else d in
    Ret (d, s.2)).

Fixpoint for_each_throwing {S A} (step : S → A → outcome S) (l : list A) (s : S) : outcome S :=
  match l with
  | [] => Ret s
  | x :: r => obind (step s x) (for_each_throwing step r)
  end.

Definition enhanceForms (s : state) : outcome state :=
  let s := fold_left form_step (querySelectorAll (tag_sel "form") s.1) s in
  for_each_throwing input_step
    (querySelectorAll (tags_sel ["input"; "select"; "textarea"]) s.1) s.

(** *** [enhanceWithAria] *)

Definition enhanceWithAria (parsedHtml : document) (fm : frontmatter) : outcome document :=
  let d := match language fm with
           | Some lang => if truthy lang then ensureHtmlLangAttribute parsedHtml lang
                          else parsedHtml
           | None => parsedHtml
           end in
  let d := ensureDocumentTitle d (title fm) in
  let d := addDocumentLandmarks d in
  let d := enhanceHeadings d in
  let d := enhanceLinks d in
  let s := enhanceTables (d, 0%nat) in
  obind (enhanceForms s) (λ s,
    let d := enhanceCodeBlocks s.1 in
    Ret (addSkipNavigation d)).

End with_environment.

(** A parser for the one shape of selector the Enhancer builds at run
    time, [label[for="v"]]: the quoted value ends at the first double
    quote, a backslash would start an escape and a line break ends the
    string token early, so a value with none of these is read as it
    stands; the parser rejects every other text. *)
Definition plain_char (c : ascii) : bool :=
  negb ((code c =? 34)%nat || (code c =? 92)%nat || (code c =? 10)%nat ||
        (code c =? 12)%nat || (code c =? 13)%nat).

Fixpoint all_chars (P : ascii → bool) (s : string) : bool :=
  match s with
  | EmptyString => true
  | String c r => P c && all_chars P r
  end.

Definition plain (s : string) : bool := all_chars plain_char s.

Definition parse_label_for (text : string) : outcome selector :=
  if startsWith text ("label[for=" +:+ dq) then
    let '(v, rest) := Checker.take_while plain_char (substring_from 11 text) in
    if String.eqb rest (dq +:+ "]") then Ret [[[STag "label"; SAttr "for" v]]]
    else Throw ("'" +:+ text +:+ "' is not a valid selector")
  else Throw ("'" +:+ text +:+ "' is not a valid selector").

End Enhancer.

(** * Properties *)

(** ** Lists *)

Lemma elem_of_concat {A} (x : A) (ls : list (list A)) :
  x ∈ concat ls ↔ ∃ l, x ∈ l ∧ l ∈ ls.
Proof.
  induction ls as [|l ls IH]; simpl.
  - split; [by inversion 1 | by intros (? & _ & ?%elem_of_nil)].
  - rewrite elem_of_app, IH. split.
    + intros [?|(l' & ? & ?)]; [exists l | exists l'];
        (split; [done|]); [apply list_elem_of_here | by apply list_elem_of_further].
    + intros (l' & ? & [->|?]%elem_of_cons); [by left | right; by exists l'].
Qed.

(** ** Queries by tag *)

Section select_facts.

Lemma matches_above_nil ancs : matches_above ancs [] = true.
Proof. by destruct ancs. Qed.

Lemma matches_tags d ts pn :
  matches d (tags_sel ts) pn = is_elem pn.2 && bool_decide (node_tag pn.2 ∈ ts).
Proof.
  unfold matches, tags_sel. induction ts as [|t ts IH].
  - simpl. by rewrite andb_false_r.
  - rewrite fmap_cons. cbn [existsb]. rewrite IH.
    unfold matches_complex, matches_compound; simpl.
    rewrite matches_above_nil, !andb_true_r. unfold matches_simple.
    destruct (is_elem pn.2); simpl; [|done].
    destruct (String.eqb_spec (node_tag pn.2) t) as [->|Hne]; simpl.
    + symmetry. apply bool_decide_eq_true_2. left.
    + apply bool_decide_ext. rewrite elem_of_cons.
      split; [by right | intros [?|?]; [congruence | done]].
Qed.

Lemma matches_tag d t pn :
  matches d (tag_sel t) pn = is_elem pn.2 && String.eqb (node_tag pn.2) t.
Proof.
  unfold matches, tag_sel, matches_complex, matches_compound; simpl.
  by rewrite matches_above_nil, !andb_true_r, orb_false_r.
Qed.

Lemma elem_of_select sel d pn :
  pn ∈ select sel d ↔ matches d sel pn = true ∧ pn ∈ walk d.
Proof.
  unfold select. rewrite list_elem_of_filter.
  by rewrite Is_true_true.
Qed.

Lemma select_tags_tag ts d pn :
  pn ∈ select (tags_sel ts) d → node_tag pn.2 ∈ ts.
Proof.
  rewrite elem_of_select, matches_tags. intros [H _].
  apply andb_true_iff in H as [_ H]. by apply bool_decide_eq_true in H.
Qed.

Lemma querySelector_is_Some sel d pn :
  pn ∈ select sel d → is_Some (querySelector sel d).
Proof.
  unfold querySelector, querySelectorAll.
  destruct (select sel d) as [|x l]; [by inversion 1 | by eexists].
Qed.

(** A heading with tag [t] among the headings is found by the query for
    [t] alone. *)
Lemma heading_found_by_tag d t n :
  n ∈ (snd <$> select (tags_sel heading_tags) d) → node_tag n = t →
  is_Some (querySelector (tag_sel t) d).
Proof.
  intros Hin Ht. apply list_elem_of_fmap in Hin as (pn & -> & Hin).
  apply (querySelector_is_Some _ _ pn).
  apply elem_of_select in Hin as [Hm Hw]. apply elem_of_select. split; [|done].
  rewrite matches_tags in Hm. rewrite matches_tag.
  apply andb_true_iff in Hm as [-> _]. simpl.
  by apply String.eqb_eq.
Qed.

End select_facts.

(** ** The heading hierarchy *)

Section heading_facts.
Import Checker.

Lemma level_of_tag n :
  node_tag n ∈ heading_tags →
  ∃ k, level_of n = Some k ∧ 1 ≤ k ≤ 6 ∧
       node_tag n = "h" +:+ pretty k ∧ tagName n = "H" +:+ pretty k.
Proof.
  unfold level_of, tagName. intros H.
  repeat (apply elem_of_cons in H as [->|H]);
    [exists 1|exists 2|exists 3|exists 4|exists 5|exists 6|by inversion H];
    (split; [reflexivity|split; [lia|split; reflexivity]]).
Qed.

Lemma heading_turn_snd lv h : (heading_turn lv h).2 = level_of h.
Proof. done. Qed.

Lemma heading_loop_app lv hs1 hs2 :
  heading_loop lv (hs1 ++ hs2) =
  heading_loop lv hs1 ++
  heading_loop (fold_left (λ l h, (heading_turn l h).2) hs1 lv) hs2.
Proof.
  revert lv. induction hs1 as [|h hs1 IH]; intros lv; simpl; [done|].
  rewrite IH. by rewrite app_assoc.
Qed.

(** A heading that does not go deeper than the one before it pushes
    nothing. *)
Lemma heading_turn_backward a b :
  node_tag a ∈ heading_tags → node_tag b ∈ heading_tags →
  num_ge (level_of a) (level_of b) = true →
  heading_turn (level_of a) b = ([], level_of b).
Proof.
  intros Ha Hb Hge.
  destruct (level_of_tag a Ha) as (ka & Ea & Hka & _).
  destruct (level_of_tag b Hb) as (kb & Eb & Hkb & _).
  unfold heading_turn. rewrite Ea, Eb in *. simpl in *.
  apply Z.leb_le in Hge.
  replace (ka =? 0) with false by (symmetry; apply Z.eqb_neq; lia).
  replace (ka + 1 <? kb) with false by (symmetry; apply Z.ltb_ge; lia).
  done.
Qed.

End heading_facts.

Section heading_claims.
Import Checker.

Definition headings_of (d : document) : list node :=
  snd <$> select headings_selector d.

Lemma headings_of_tag d n : n ∈ headings_of d → node_tag n ∈ heading_tags.
Proof.
  intros H. apply list_elem_of_fmap in H as (pn & -> & H).
  by apply select_tags_tag in H.
Qed.

Lemma checkHeadingHierarchy_with_h1 d h hs :
  headings_of d = h :: hs → node_tag h = "h1" →
  checkHeadingHierarchy d = heading_loop (Some 1) hs.
Proof.
  intros Hh Ht. unfold checkHeadingHierarchy. fold (headings_of d).
  rewrite Hh. simpl length. cbn [Nat.eqb].
  destruct (heading_found_by_tag d "h1" h) as [p ->]; [|done|].
  { fold headings_selector. fold (headings_of d). rewrite Hh. left. }
  simpl. unfold heading_turn, level_of, tagName. rewrite Ht. by simpl.
Qed.

(** C6. For every document whose headings are, in order, h1 h2 h3 the
    check returns no issue; for every document whose headings are
    h1 h2 h4 it returns exactly one issue, the skip from h2 to h4, on the
    h4; and in every document a heading whose level is lower than or
    equal to that of the heading just before it adds no issue: the issues
    of the loop are those up to the heading before it followed by those
    of the headings after it. *)
Theorem heading_hierarchy_skips (d : document) :
  (node_tag <$> headings_of d = ["h1"; "h2"; "h3"] →
   checkHeadingHierarchy d = []) ∧
  (node_tag <$> headings_of d = ["h1"; "h2"; "h4"] →
   ∃ h4, headings_of d !! 2%nat = Some h4 ∧
     checkHeadingHierarchy d =
       [Issue heading "Heading level skipped from h2 to h4" (Some h4) []]) ∧
  (∀ before a b after,
     headings_of d = before ++ a :: b :: after →
     num_ge (level_of a) (level_of b) = true →
     heading_loop (Some 0) (headings_of d) =
       heading_loop (Some 0) (before ++ [a]) ++ heading_loop (level_of b) after).
Proof.
  split; [|split].
  - intros H. destruct (headings_of d) as [|a [|b [|c [|? ?]]]] eqn:E; try done.
    simplify_eq/=. rewrite (checkHeadingHierarchy_with_h1 d a [b; c]); [|done..].
    simpl. unfold heading_turn, level_of, tagName.
    by repeat match goal with H : node_tag _ = _ |- _ => rewrite H; clear H end.
  - intros H. destruct (headings_of d) as [|a [|b [|c [|? ?]]]] eqn:E; try done.
    simplify_eq/=. exists c. split; [done|].
    rewrite (checkHeadingHierarchy_with_h1 d a [b; c]); [|done..].
    simpl. unfold heading_turn, level_of, tagName.
    by repeat match goal with H : node_tag _ = _ |- _ => rewrite H; clear H end.
  - intros before a b after E Hge.
    assert (Ha : node_tag a ∈ heading_tags).
    { apply (headings_of_tag d). rewrite E.
      apply elem_of_app. right. apply list_elem_of_here. }
    assert (Hb : node_tag b ∈ heading_tags).
    { apply (headings_of_tag d). rewrite E.
      apply elem_of_app. right. apply list_elem_of_further, list_elem_of_here. }
    rewrite E.
    replace (before ++ a :: b :: after) with ((before ++ [a]) ++ b :: after)
      by (by rewrite <- app_assoc).
    rewrite heading_loop_app. f_equal.
    rewrite fold_left_app. cbn [fold_left heading_loop].
    rewrite heading_turn_snd.
    by rewrite (heading_turn_backward a b Ha Hb Hge).
Qed.

Definition sample_h1_h2_h3 : document :=
  [Elem "h1" [] [Text "a"]; Elem "p" [] [Elem "h2" [] [Text "b"]]; Elem "h3" [] []].
Definition sample_h1_h2_h4 : document :=
  [Elem "h1" [] [Text "a"]; Elem "h2" [] [Text "b"]; Elem "h4" [] [Text "d"]].
Definition sample_h2_h1 : document := [Elem "h2" [] [Text "b"]; Elem "h1" [] [Text "a"]].

Lemma heading_hierarchy_skips_witness :
  checkHeadingHierarchy sample_h1_h2_h3 = [] ∧
  (∃ h4, headings_of sample_h1_h2_h4 !! 2%nat = Some h4 ∧
     checkHeadingHierarchy sample_h1_h2_h4 =
       [Issue heading "Heading level skipped from h2 to h4" (Some h4) []]) ∧
  heading_loop (Some 0) (headings_of sample_h2_h1) =
  heading_loop (Some 0) [Elem "h2" [] [Text "b"]] ++ heading_loop (Some 1) [].
Proof.
  split; [|split].
  - exact (proj1 (heading_hierarchy_skips sample_h1_h2_h3) eq_refl).
  - exact (proj1 (proj2 (heading_hierarchy_skips sample_h1_h2_h4)) eq_refl).
  - exact (proj2 (proj2 (heading_hierarchy_skips sample_h2_h1))
             [] (Elem "h2" [] [Text "b"]) (Elem "h1" [] [Text "a"]) []
             eq_refl eq_refl).
Defined.

(** C10. When the first heading of a document has level L ≥ 2 the check
    reports, besides that the document does not start with an h1, a skip
    from h0 to hL: the first heading is compared with an initial
    previous level of 0. *)
Theorem first_heading_skip_from_h0 (d : document) (h : node) (hs : list node) (L : Z) :
  headings_of d = h :: hs →
  level_of h = Some L → 2 ≤ L →
  Issue heading ("Document doesn't start with an h1. First heading is " +:+ tagName h)
    (Some h) [] ∈ checkHeadingHierarchy d ∧
  Issue heading ("Heading level skipped from h0 to h" +:+ pretty L) (Some h) []
    ∈ checkHeadingHierarchy d.
Proof.
  intros Hh HL Hge. unfold checkHeadingHierarchy. fold (headings_of d).
  rewrite Hh. simpl length. cbn [Nat.eqb]. cbn [heading_loop heading_turn].
  rewrite HL. cbn [num_eq num_add num_gt num_to_string].
  replace (0 =? 0) with true by done.
  replace (L =? 1) with false by (symmetry; apply Z.eqb_neq; lia).
  replace (0 + 1 <? L) with true by (symmetry; apply Z.ltb_lt; lia).
  cbn [negb andb app]. change (pretty 0) with "0".
  split; apply elem_of_app; right;
    [apply list_elem_of_here | apply list_elem_of_further, list_elem_of_here].
Qed.

Definition sample_h3_first : document := [Elem "h3" [] [Text "c"]; Elem "h1" [] [Text "a"]].

Lemma first_heading_skip_from_h0_witness :
  Issue heading "Document doesn't start with an h1. First heading is H3"
    (Some (Elem "h3" [] [Text "c"])) [] ∈ checkHeadingHierarchy sample_h3_first ∧
  Issue heading "Heading level skipped from h0 to h3"
    (Some (Elem "h3" [] [Text "c"])) [] ∈ checkHeadingHierarchy sample_h3_first.
Proof.
  exact (first_heading_skip_from_h0 sample_h3_first (Elem "h3" [] [Text "c"])
           [Elem "h1" [] [Text "a"]] 3 eq_refl eq_refl ltac:(lia)).
Defined.

End heading_claims.

(** ** Screen-reader hazards: the empty [alt] *)

Section empty_alt.
Import Checker.

Lemma strict_eq_bool_string b s : strict_eq (JBool b) (JStr s) = false.
Proof. done. Qed.

Lemma image_issues_no_empty_alt d pn i :
  i ∈ image_issues d pn → message i ≠ empty_alt_message.
Proof.
  unfold image_issues. rewrite strict_eq_bool_string, andb_false_r.
  destruct (getAttribute "alt" pn.2) as [alt|].
  - destruct (String.eqb (trim alt) ""); [by inversion 1|].
    destruct (_ || _); [|by inversion 1].
    intros ->%list_elem_of_singleton. done.
  - intros ->%list_elem_of_singleton. done.
Qed.

Lemma duplicate_id_loop_no_empty_alt allIds els i :
  i ∈ duplicate_id_loop allIds els → message i ≠ empty_alt_message.
Proof.
  revert allIds. induction els as [|el els IH]; intros allIds; simpl.
  - by inversion 1.
  - destruct (get_property allIds (id_of el)) as [[]| |]; eauto;
      intros [->|?]%elem_of_cons; eauto; done.
Qed.

(** C1 (as the code behaves). The empty-alt branch of the screen-reader
    check compares the Boolean [!img.getAttribute('aria-hidden')] with the
    string ['true'] by [===]; the comparison is false for every image, so
    no document makes the check emit the issue "Non-decorative image has
    empty alt text": in particular a lone [img] with an empty [alt], which has no
    [decorative] class, no [figure] ancestor and no [aria-hidden], yields
    no issue at all. *)
Theorem empty_alt_never_reported :
  (∀ d i, i ∈ checkScreenReaderAnnouncements d → message i ≠ empty_alt_message) ∧
  checkScreenReaderAnnouncements [Elem "img" [("alt", "")] []] = [].
Proof.
  split; [|by vm_compute].
  intros d i. unfold checkScreenReaderAnnouncements.
  rewrite !elem_of_app. intros [H|[H|[H|H]]].
  - apply elem_of_concat in H as (l & Hi & Hl).
    apply list_elem_of_fmap in Hl as (pn & -> & _).
    by eapply image_issues_no_empty_alt.
  - apply list_elem_of_fmap in H as (el & -> & _). done.
  - by eapply duplicate_id_loop_no_empty_alt.
  - apply elem_of_concat in H as (l & Hi & Hl).
    apply list_elem_of_fmap in Hl as (el & -> & _).
    unfold labelledby_issues in Hi.
    apply list_elem_of_fmap in Hi as (id & -> & _). done.
Qed.

End empty_alt.

(** ** Recovery from exceptions in the Auditor *)

Section audit_recovery.
Import Checker.

Variable getComputedStyle : document → path → style.
Variable wcagContrast_rgb : list num → list num → option Q.
Variable axe_run : document → outcome (list violation).
Variable htmlValidator : string → outcome (list validator_message).
Variable JSDOM : string → outcome document.

Abbreviation audit := (checkAccessibility getComputedStyle wcagContrast_rgb axe_run
                     htmlValidator JSDOM).

Definition failed (msg : string) : list issue :=
  [Issue error ("Accessibility check failed: " +:+ msg) None []].

Definition enabled (b : bool) (l : list issue) : list issue := if b then l else [].


End audit_recovery.

Section audit_recovery_examples.
Import Checker.

Definition all_checks : config := Config true true true true true true true.

Definition no_style : document → path → style := λ _ _, Style "" "" "" "".
Definition no_ratio : list num → list num → option Q := λ _ _, None.

(** A page with an element whose role is named like a member of
    [Object.prototype], and a link taken out of the tab order. *)
Definition page_with_inherited_role : document :=
  [Elem "div" [("role", "constructor")] []; Elem "a" [("tabindex", "-1")] []].

Definition link_out_of_tab_order : issue :=
  Issue keyboard
    ("Interactive element is not keyboard accessible (tabindex=" +:+ dq +:+ "-1" +:+ dq +:+ ")")
    (Some (Elem "a" [("tabindex", "-1")] [])) [].



End audit_recovery_examples.

(** ** Colour contrast *)

Section contrast.
Import Checker.

Variable getComputedStyle : document → path → style.
Variable wcagContrast_rgb : list num → list num → option Q.

Abbreviation contrast_of := (contrast_issue getComputedStyle wcagContrast_rgb).

(** Large text: at least 18px, or at least 14px and a weight of at least
    700. *)
Definition large_text (st : style) : bool :=
  num_ge (parseInt (fontSize st)) (Some 18) ||
  (num_ge (parseInt (fontSize st)) (Some 14) &&
   num_ge (parseInt (fontWeight st)) (Some 700)).

Definition contrast_message (ratio : Q) (large : bool) : string :=
  "Insufficient color contrast ratio (" +:+ toFixed2 ratio +:+
  ":1), should be at least " +:+ (if large then "3" else "4.5") +:+ ":1".

Lemma q_lt_spec x y : q_lt x y = true ↔ (x < y)%Q.
Proof.
  unfold q_lt. rewrite negb_true_iff. split.
  - intros H. apply Qnot_le_lt. intros Hle.
    apply Qle_bool_iff in Hle. congruence.
  - intros H. destruct (Qle_bool y x) eqn:E; [|done].
    apply Qle_bool_iff in E. by apply Qlt_not_le in H.
Qed.

Lemma parseColor_truthy c rgb : parseColor c = Some rgb → truthy c = true.
Proof. by destruct c. Qed.

Lemma contrast_issue_cases d pn fg bg r :
  let st := getComputedStyle d pn.1 in
  parseColor (color st) = Some fg →
  parseColor (backgroundColor st) = Some bg →
  wcagContrast_rgb fg bg = Some r →
  contrast_of d pn =
    if q_lt r (if large_text st then 3 # 1 else 45 # 10)
    then [Issue contrast (contrast_message r (large_text st)) (Some pn.2)
            [("foreground", [color st]); ("background", [backgroundColor st])]]
    else [].
Proof.
  intros st Hfg Hbg Hr. unfold contrast_issue. fold st.
  rewrite (parseColor_truthy _ _ Hfg), (parseColor_truthy _ _ Hbg), Hfg, Hbg.
  simpl. rewrite Hr. fold (large_text st). done.
Qed.


End contrast.

Section contrast_examples.
Import Checker.

Definition paragraph : node := Elem "p" [] [Text "x"].

Definition black_on_white : document → path → style :=
  λ _ _, Style "rgb(0,0,0)" "rgb(255,255,255)" "16px" "400".
Definition grey_on_white : document → path → style :=
  λ _ _, Style "rgb(150,150,150)" "rgb(255,255,255)" "16px" "400".

(** The values of the contrast library on the two pairs, to three
    decimals. *)
Definition ratio_table (fg bg : list num) : option Q :=
  if bool_decide (fg = [Some 0; Some 0; Some 0]) then Some (21 # 1)
  else Some (2958 # 1000).


End contrast_examples.

(** ** Paths, updates and the document order *)

Section tree_facts.

(** What a selector without combinators sees of an element. *)
Definition local (n : node) : string * attrs_t := (node_tag n, node_attrs n).

(** The elements in document order: path, tag and attributes. *)
Definition outline_node (n : node) : list (path * (string * attrs_t)) :=
  (λ pn, (pn.1, local pn.2)) <$> walk_node n.

Definition outline_from (i : nat) (ks : list node) : list (path * (string * attrs_t)) :=
  (λ pn, (pn.1, local pn.2)) <$> walk_from i ks.

Definition outline (d : document) : list (path * (string * attrs_t)) :=
  outline_from 0 d.

Definition under (p : path) {T} (x : path * T) : path * T := (p ++ x.1, x.2).

Lemma walk_from_cons i k ks :
  walk_from i (k :: ks) = (under [i] <$> walk_node k) ++ walk_from (S i) ks.
Proof. done. Qed.

Lemma outline_from_nil i : outline_from i [] = [].
Proof. done. Qed.

Lemma outline_from_cons i k ks :
  outline_from i (k :: ks) = (under [i] <$> outline_node k) ++ outline_from (S i) ks.
Proof.
  unfold outline_from, outline_node. rewrite walk_from_cons, fmap_app.
  f_equal. rewrite <- !list_fmap_compose. by apply list_fmap_ext.
Qed.

Lemma outline_node_elem t a ks :
  outline_node (Elem t a ks) = ([], (t, a)) :: outline_from 0 ks.
Proof. done. Qed.

Lemma outline_from_app i ks1 ks2 :
  outline_from i (ks1 ++ ks2) = outline_from i ks1 ++ outline_from (i + length ks1) ks2.
Proof.
  revert i. induction ks1 as [|k ks1 IH]; intros i; simpl.
  - by rewrite Nat.add_0_r.
  - rewrite !outline_from_cons, IH, <- app_assoc.
    by replace (S i + length ks1)%nat with (i + S (length ks1))%nat by lia.
Qed.

Lemma under_under {T} p q (l : list (path * T)) :
  under p <$> (under q <$> l) = under (p ++ q) <$> l.
Proof.
  rewrite <- list_fmap_compose. apply list_fmap_ext.
  intros _ [r x] _. unfold under; simpl. by rewrite app_assoc.
Qed.

Lemma get_node_one i ks : get_node [i] ks = ks !! i.
Proof. simpl. by destruct (ks !! i). Qed.

Lemma get_node_deeper i q ks :
  q ≠ [] → get_node (i :: q) ks = ks !! i ≫= λ n, get_node q (node_kids n).
Proof. intros Hq. simpl. destruct (ks !! i); [|done]. by destruct q. Qed.

Lemma alter_at_one g i ks : alter_at g [i] ks = alter g i ks.
Proof. done. Qed.

Lemma alter_at_deeper g i q ks :
  q ≠ [] → alter_at g (i :: q) ks = alter (on_kids (alter_at g q)) i ks.
Proof. intros Hq. by destruct q. Qed.

Lemma get_node_nil_kids q : get_node q [] = None.
Proof. by destruct q. Qed.

Lemma get_node_lookup_succ i q k ks : get_node (S i :: q) (k :: ks) = get_node (i :: q) ks.
Proof. done. Qed.

Lemma alter_at_lookup_succ g i q k ks :
  alter_at g (S i :: q) (k :: ks) = k :: alter_at g (i :: q) ks.
Proof. done. Qed.

(** The path of a node of [ks] inside a forest that starts at index [i]. *)
Definition shift (i : nat) (p : path) : path :=
  match p with
  | [] => []
  | j :: q => (i + j)%nat :: q
  end.

Lemma shift_0 p : shift 0 p = p.
Proof. by destruct p. Qed.

(** Updating the node at [p] changes the outline only in the segment of
    that node: what comes before, with paths other than that of the node,
    and what comes after stay. *)
Lemma outline_splice p : ∀ ks n i,
  get_node p ks = Some n →
  ∃ w1 w2,
    Forall (λ x, x.1 ≠ shift i p) w1 ∧
    ∀ g, outline_from i (alter_at g p ks) =
         w1 ++ (under (shift i p) <$> outline_node (g n)) ++ w2.
Proof.
  induction p as [|j q IHq]; [done|].
  intros ks. revert j. induction ks as [|k ks IHks]; intros j n i Hn; [done|].
  destruct j as [|j].
  - destruct (decide (q = [])) as [->|Hq].
    + rewrite get_node_one in Hn. simpl in Hn. simplify_eq.
      exists [], (outline_from (S i) ks). split; [done|].
      intros g. rewrite alter_at_one. simpl alter.
      rewrite outline_from_cons. simpl shift. by rewrite Nat.add_0_r.
    + rewrite get_node_deeper in Hn by done. simpl in Hn.
      destruct k as [s|t a kk]; [by rewrite get_node_nil_kids in Hn|]. simpl in Hn.
      destruct (IHq kk n 0%nat Hn) as (v1 & v2 & Hv1 & Hv).
      rewrite shift_0 in Hv1.
      exists (([i], (t, a)) :: (under [i] <$> v1)),
        ((under [i] <$> v2) ++ outline_from (S i) ks).
      split.
      * constructor; [simpl; rewrite Nat.add_0_r; congruence|].
        apply Forall_fmap. eapply Forall_impl; [exact Hv1|].
        intros [r x] Hr. simpl in *. rewrite Nat.add_0_r. congruence.
      * intros g. rewrite alter_at_deeper by done.
        change (alter ?f 0%nat (?x :: ?l)) with (f x :: l).
        rewrite outline_from_cons. cbn [on_kids]. rewrite outline_node_elem.
        rewrite fmap_cons, Hv, shift_0, !fmap_app, under_under. simpl shift.
        rewrite Nat.add_0_r. unfold under at 1; simpl.
        by rewrite <- !app_assoc.
  - rewrite get_node_lookup_succ in Hn.
    destruct (IHks j n (S i) Hn) as (w1 & w2 & Hw1 & Hw).
    exists ((under [i] <$> outline_node k) ++ w1), w2. split.
    + apply Forall_app. split.
      * apply Forall_fmap, Forall_forall. intros [r x] _. simpl.
        intros ?. simplify_eq. lia.
      * eapply Forall_impl; [exact Hw1|]. intros [r x]. simpl.
        by replace (i + S j)%nat with (S (i + j)) by lia.
    + intros g. rewrite alter_at_lookup_succ, outline_from_cons, Hw. simpl shift.
      replace (i + S j)%nat with (S (i + j)) by lia. by rewrite <- app_assoc.
Qed.

Lemma alter_at_None g p : ∀ ks, get_node p ks = None → alter_at g p ks = ks.
Proof.
  induction p as [|j q IH]; intros ks Hn; [done|].
  destruct (ks !! j) as [n|] eqn:E.
  - destruct (decide (q = [])) as [->|Hq].
    { rewrite get_node_one in Hn. congruence. }
    rewrite get_node_deeper, E in Hn by done. simpl in Hn.
    rewrite alter_at_deeper by done.
    rewrite <- (list_alter_id id ks j) at 2 by done.
    apply list_alter_ext; [|done]. intros m Hm. rewrite E in Hm. simplify_eq.
    destruct m as [s|t a kk]; simpl in *; [done|]. by rewrite IH.
  - simpl. apply list_eq. intros i. destruct (decide (i = j)) as [->|Hne].
    + by rewrite list_lookup_alter_eq, E.
    + by rewrite list_lookup_alter_ne.
Qed.

Lemma alter_at_ext_at g g' p : ∀ ks,
  (∀ n, get_node p ks = Some n → g n = g' n) → alter_at g p ks = alter_at g' p ks.
Proof.
  induction p as [|j q IH]; intros ks Hg; [done|].
  destruct (decide (q = [])) as [->|Hq].
  - rewrite !alter_at_one. apply list_alter_ext; [|done].
    intros n Hn. apply Hg. by rewrite get_node_one.
  - rewrite !alter_at_deeper by done. apply list_alter_ext; [|done].
    intros n Hn. destruct n as [s|t a kk]; simpl; [done|]. f_equal.
    apply IH. intros m Hm. apply Hg. rewrite get_node_deeper, Hn by done. done.
Qed.

Lemma alter_at_id p ks : alter_at id p ks = ks.
Proof.
  destruct (get_node p ks) as [n|] eqn:E; [|by apply alter_at_None].
  revert ks n E. induction p as [|j q IH]; intros ks n E; [done|].
  destruct (decide (q = [])) as [->|Hq].
  - rewrite alter_at_one. by apply list_alter_id.
  - rewrite alter_at_deeper by done.
    rewrite <- (list_alter_id id ks j) at 2 by done.
    apply list_alter_ext; [|done]. intros m Hm.
    rewrite get_node_deeper, Hm in E by done. simpl in E.
    destruct m as [s|t a kk]; simpl in *; [done|]. f_equal. by eapply IH.
Qed.

Lemma alter_at_alter_at g1 g2 p : ∀ ks,
  alter_at g2 p (alter_at g1 p ks) = alter_at (g2 ∘ g1) p ks.
Proof.
  induction p as [|j q IH]; intros ks; [done|].
  destruct (decide (q = [])) as [->|Hq].
  - rewrite !alter_at_one. apply list_alter_alter_eq.
  - rewrite !alter_at_deeper by done. rewrite list_alter_alter_eq.
    apply list_alter_ext; [|done]. intros n _.
    destruct n as [s|t a kk]; simpl; [done|]. by rewrite IH.
Qed.

Lemma get_node_alter_at_eq g p : ∀ ks,
  get_node p (alter_at g p ks) = g <$> get_node p ks.
Proof.
  induction p as [|j q IH]; intros ks; [done|].
  destruct (decide (q = [])) as [->|Hq].
  - rewrite alter_at_one, !get_node_one. apply list_lookup_alter_eq.
  - rewrite alter_at_deeper, !get_node_deeper by done.
    rewrite list_lookup_alter_eq. destruct (ks !! j) as [n|]; simpl; [|done].
    destruct n as [s|t a kk]; simpl; [by rewrite !get_node_nil_kids|]. apply IH.
Qed.

(** *** The elements without their paths *)

Fixpoint flat_node (n : node) : list (string * attrs_t) :=
  match n with
  | Text _ => []
  | Elem t a ks => (t, a) :: concat (flat_node <$> ks)
  end.

Definition flat (d : list node) : list (string * attrs_t) := concat (flat_node <$> d).

Lemma flat_cons k ks : flat (k :: ks) = flat_node k ++ flat ks.
Proof. done. Qed.

Lemma flat_app ks1 ks2 : flat (ks1 ++ ks2) = flat ks1 ++ flat ks2.
Proof. unfold flat. by rewrite fmap_app, concat_app. Qed.

Lemma flat_node_elem t a ks : flat_node (Elem t a ks) = (t, a) :: flat ks.
Proof. done. Qed.

Lemma snd_under {T} p (l : list (path * T)) : (under p <$> l).*2 = l.*2.
Proof. rewrite <- list_fmap_compose. by apply list_fmap_ext. Qed.

Lemma outline_node_flat n : (outline_node n).*2 = flat_node n.
Proof.
  induction n as [s|t a ks IH] using node_ind'; [done|].
  rewrite outline_node_elem, flat_node_elem, fmap_cons. f_equal. simpl.
  generalize 0%nat. induction IH as [|k ks Hk _ IHks]; intros i; [done|].
  rewrite outline_from_cons, fmap_app, snd_under, Hk, IHks. done.
Qed.

Lemma outline_from_flat i ks : (outline_from i ks).*2 = flat ks.
Proof.
  revert i. induction ks as [|k ks IH]; intros i; [done|].
  by rewrite outline_from_cons, fmap_app, snd_under, outline_node_flat, IH.
Qed.

Lemma outline_flat d : (outline d).*2 = flat d.
Proof. apply outline_from_flat. Qed.

(** The outline around the node at [p], before and after an update. *)
Lemma outline_alter_at g p d n :
  get_node p d = Some n →
  ∃ w1 w2,
    Forall (λ x, x.1 ≠ p) w1 ∧
    outline d = w1 ++ (under p <$> outline_node n) ++ w2 ∧
    outline (alter_at g p d) = w1 ++ (under p <$> outline_node (g n)) ++ w2.
Proof.
  intros Hn. destruct (outline_splice p d n 0%nat Hn) as (w1 & w2 & Hw1 & Hw).
  rewrite shift_0 in Hw1. exists w1, w2. split; [done|]. split.
  - specialize (Hw id). by rewrite alter_at_id, shift_0 in Hw.
  - specialize (Hw g). by rewrite shift_0 in Hw.
Qed.

Lemma flat_alter_at g p d n :
  get_node p d = Some n →
  ∃ l1 l2,
    flat d = l1 ++ flat_node n ++ l2 ∧
    flat (alter_at g p d) = l1 ++ flat_node (g n) ++ l2.
Proof.
  intros Hn. destruct (outline_alter_at g p d n Hn) as (w1 & w2 & _ & H1 & H2).
  exists w1.*2, w2.*2. rewrite <- !outline_flat, H1, H2.
  by rewrite !fmap_app, !snd_under, !outline_node_flat.
Qed.

(** *** What a query returns *)

Lemma walk_from_get ks :
  Forall (λ k, ∀ q m, (q, m) ∈ walk_node k →
            is_elem m = true ∧ ((q = [] ∧ m = k) ∨ get_node q (node_kids k) = Some m)) ks →
  ∀ i q m, (q, m) ∈ walk_from i ks →
    is_elem m = true ∧ ∃ j q', q = (i + j)%nat :: q' ∧ get_node (j :: q') ks = Some m.
Proof.
  induction 1 as [|k ks Hk _ IH]; intros i q m Hin; [by apply elem_of_nil in Hin|].
  rewrite walk_from_cons in Hin. apply elem_of_app in Hin as [Hin|Hin].
  - apply list_elem_of_fmap in Hin as ([q0 m0] & Heq & Hin). unfold under in Heq.
    simpl in Heq. simplify_eq. destruct (Hk q0 m0 Hin) as [He [[-> ->]|Hg]].
    + split; [done|]. exists 0%nat, []. by rewrite Nat.add_0_r.
    + split; [done|]. exists 0%nat, q0. rewrite Nat.add_0_r. split; [done|].
      destruct (decide (q0 = [])) as [->|Hq]; [done|].
      by rewrite get_node_deeper.
  - destruct (IH (S i) q m Hin) as [He (j & q' & -> & Hg)]. split; [done|].
    exists (S j), q'. split; [f_equal; lia | done].
Qed.

Lemma walk_node_get n : ∀ q m,
  (q, m) ∈ walk_node n →
  is_elem m = true ∧ ((q = [] ∧ m = n) ∨ get_node q (node_kids n) = Some m).
Proof.
  induction n as [s|t a ks IH] using node_ind'; intros q m Hin.
  - by apply elem_of_nil in Hin.
  - simpl in Hin. apply elem_of_cons in Hin as [Heq|Hin].
    + simplify_eq. split; [done|]. by left.
    + destruct (walk_from_get ks IH 0%nat q m Hin) as [He (j & q' & -> & Hg)].
      split; [done|]. by right.
Qed.

(** A pair the walk lists is an element, at its path. *)
Lemma walk_get d q m : (q, m) ∈ walk d → get_node q d = Some m ∧ is_elem m = true.
Proof.
  intros Hin.
  destruct (walk_from_get d) with (i := 0%nat) (q := q) (m := m)
    as [He (j & q' & -> & Hg)]; [|done|done].
  apply Forall_forall. intros k _. apply walk_node_get.
Qed.

Lemma select_get sel d pn :
  pn ∈ select sel d →
  get_node pn.1 d = Some pn.2 ∧ is_elem pn.2 = true ∧ matches d sel pn = true.
Proof.
  intros [Hm Hw]%elem_of_select. destruct pn as [q m].
  by destruct (walk_get d q m Hw).
Qed.

Lemma querySelectorAll_get sel d p :
  p ∈ querySelectorAll sel d →
  ∃ n, get_node p d = Some n ∧ is_elem n = true ∧ matches d sel (p, n) = true.
Proof.
  intros ([q n] & -> & Hin)%list_elem_of_fmap. exists n. by apply select_get in Hin.
Qed.

Lemma querySelector_get sel d p :
  querySelector sel d = Some p →
  ∃ n, get_node p d = Some n ∧ is_elem n = true ∧ matches d sel (p, n) = true.
Proof.
  intros H. apply querySelectorAll_get. unfold querySelector in H.
  destruct (querySelectorAll sel d); simplify_eq/=. apply list_elem_of_here.
Qed.

Lemma querySelector_tag t d p :
  querySelector (tag_sel t) d = Some p →
  ∃ a ks, get_node p d = Some (Elem t a ks).
Proof.
  intros (n & Hn & He & Hm)%querySelector_get. rewrite matches_tag in Hm.
  apply andb_true_iff in Hm as [_ Ht]. apply String.eqb_eq in Ht.
  destruct n as [|t' a ks]; simplify_eq/=. eauto.
Qed.

End tree_facts.

(** ** How the Enhancer changes a tree

    Every step of every pass rewrites one node, in one of a few ways: it
    sets an attribute other than [id] and [href], gives an [id] to an
    element that has none, inserts the [head], [title], [main] or skip-link
    element it has made, or replaces the children of an element by a text.
    [reach] is the closure of these steps; each pass is shown to stay
    within it, and what the steps preserve is then preserved by the
    passes. *)

Section attribute_facts.

Lemma lookup_set_attr_eq a v l : lookup_attr a (set_attr a v l) = Some v.
Proof.
  induction l as [|[k w] l IH]; simpl.
  - by rewrite String.eqb_refl.
  - destruct (String.eqb k a) eqn:E; simpl; by rewrite E.
Qed.

Lemma lookup_set_attr_ne a b v l :
  a ≠ b → lookup_attr b (set_attr a v l) = lookup_attr b l.
Proof.
  intros Hne. induction l as [|[k w] l IH]; simpl.
  - by apply String.eqb_neq in Hne as ->.
  - destruct (String.eqb_spec k a) as [->|Hka]; simpl.
    + by apply String.eqb_neq in Hne as ->.
    + by rewrite IH.
Qed.

Lemma getAttribute_setAttribute_ne a b v n :
  a ≠ b → getAttribute b (setAttribute a v n) = getAttribute b n.
Proof. intros Hne. destruct n; [done|]. by apply lookup_set_attr_ne. Qed.

Lemma id_of_setAttribute_ne a v n : a ≠ "id" → id_of (setAttribute a v n) = id_of n.
Proof. intros Hne. unfold id_of. by rewrite getAttribute_setAttribute_ne. Qed.

Lemma truthy_false s : truthy s = false → s = "".
Proof. by destruct s. Qed.

End attribute_facts.

Section evolution.
Import Enhancer.

Variable random_id : nat → string.
Variable parse_selector : string → outcome selector.

Definition id_prefixes : list string := ["table-heading-"; "form-heading-"; "input-"].

(** The identifiers the Enhancer makes up. *)
Inductive newid : string → Prop :=
| newid_main : newid "main-content"
| newid_slug s : newid (slugify s)
| newid_random prefix k : prefix ∈ id_prefixes → newid (prefix +:+ random_id k).

Definition text_only (ks : list node) : bool := forallb (λ k, negb (is_elem k)) ks.

(** One change of one node. With [strict], a text replaces only children
    that are texts; with [skip], the skip link may be inserted. *)
Inductive change (strict skip : bool) : node → node → Prop :=
| ch_attr t al ks a v :
    a ≠ "id" → a ≠ "href" →
    change strict skip (Elem t al ks) (Elem t (set_attr a v al) ks)
| ch_id t al ks v :
    default "" (lookup_attr "id" al) = "" → newid v →
    change strict skip (Elem t al ks) (Elem t (set_attr "id" v al) ks)
| ch_head t al ks :
    t ≠ "title" →
    change strict skip (Elem t al ks) (Elem t al (Elem "head" [] [] :: ks))
| ch_title t al ks s :
    t ≠ "title" →
    change strict skip (Elem t al ks) (Elem t al (ks ++ [Elem "title" [] [Text s]]))
| ch_text t al ks s :
    (strict = true → text_only ks = true) →
    change strict skip (Elem t al ks) (Elem t al (if truthy s then [Text s] else []))
| ch_main t al ks :
    t ≠ "title" →
    change strict skip (Elem t al ks) (Elem t al [Elem "main" [] ks])
| ch_skip t al ks :
    skip = true → t ≠ "title" →
    change strict skip (Elem t al ks) (Elem t al (skipLink :: ks)).

Definition step (strict skip : bool) (d d' : document) : Prop :=
  ∃ p n m, get_node p d = Some n ∧ change strict skip n m ∧
           d' = alter_at (λ _, m) p d.

Definition reach (strict skip : bool) : document → document → Prop :=
  rtc (step strict skip).

Definition changes (strict skip : bool) : node → node → Prop :=
  rtc (change strict skip).

Context {strict skip : bool}.

Lemma reach_alter g p d :
  (∀ n, get_node p d = Some n → changes strict skip n (g n)) →
  reach strict skip d (alter_at g p d).
Proof.
  intros Hg. destruct (get_node p d) as [n|] eqn:E.
  - rewrite (alter_at_ext_at g (λ _, g n)) by (intros; by simplify_eq).
    specialize (Hg n eq_refl). revert d E.
    induction Hg as [n|n y m Hny _ IH]; intros d E.
    + rewrite (alter_at_ext_at _ id), alter_at_id by (intros; by simplify_eq).
      apply rtc_refl.
    + eapply rtc_l; [by exists p, n, y|].
      replace (alter_at (λ _, m) p d)
        with (alter_at (λ _, m) p (alter_at (λ _, y) p d))
        by (by rewrite alter_at_alter_at).
      apply IH. by rewrite get_node_alter_at_eq, E.
  - rewrite alter_at_None by done. apply rtc_refl.
Qed.

Lemma reach_trans d1 d2 d3 :
  reach strict skip d1 d2 → reach strict skip d2 d3 → reach strict skip d1 d3.
Proof. apply rtc_trans. Qed.

(** *** The node functions of the passes *)

Lemma changes_setAttribute a v n :
  a ≠ "id" → a ≠ "href" → changes strict skip n (setAttribute a v n).
Proof.
  intros. destruct n as [s|t al ks]; [apply rtc_refl|].
  apply rtc_once. by apply ch_attr.
Qed.

Lemma changes_set_id v n :
  truthy (id_of n) = false → newid v → changes strict skip n (setAttribute "id" v n).
Proof.
  intros Hid Hv. destruct n as [s|t al ks]; [apply rtc_refl|].
  apply rtc_once. apply ch_id; [|done]. by apply truthy_false in Hid.
Qed.

Lemma changes_trans n1 n2 n3 :
  changes strict skip n1 n2 → changes strict skip n2 n3 → changes strict skip n1 n3.
Proof. apply rtc_trans. Qed.

Lemma changes_classList_add c n : changes strict skip n (classList_add c n).
Proof. by apply changes_setAttribute. Qed.

Lemma changes_warn text n : changes strict skip n (warn text n).
Proof.
  eapply changes_trans; [apply changes_classList_add|].
  by apply changes_setAttribute.
Qed.

Lemma changes_mark_main n : changes strict skip n (mark_main n).
Proof.
  unfold mark_main.
  eapply changes_trans; [by apply (changes_setAttribute "role" "main")|].
  destruct (truthy _) eqn:E; [apply rtc_refl|].
  apply changes_set_id; [done | constructor].
Qed.

Lemma changes_label_nav n : changes strict skip n (label_nav n).
Proof.
  unfold label_nav. destruct (hasAttribute _ _); [apply rtc_refl|].
  by apply changes_setAttribute.
Qed.

Lemma changes_mark_aside i n : changes strict skip n (mark_aside i n).
Proof.
  unfold mark_aside.
  eapply changes_trans; [by apply (changes_setAttribute "role" "complementary")|].
  destruct (hasAttribute _ _); [apply rtc_refl|]. by apply changes_setAttribute.
Qed.

Lemma changes_heading_step n : changes strict skip n (heading_step n).
Proof.
  unfold heading_step.
  assert (changes strict skip n
            (if truthy (id_of n) then n
             else setAttribute "id" (slugify (trim (textContent n))) n)) as H1.
  { destruct (truthy _) eqn:E; [apply rtc_refl|].
    apply changes_set_id; [done | constructor]. }
  eapply changes_trans; [exact H1|].
  eapply changes_trans; [by apply (changes_setAttribute "tabindex" "-1")|].
  destruct (_ && _); [|apply rtc_refl]. by apply changes_setAttribute.
Qed.

Lemma changes_default_scope n : changes strict skip n (default_scope n).
Proof. by apply changes_setAttribute. Qed.

(** *** Titles hold only text

    The content of a [title] element is text; the parser of a document
    never puts an element inside one. *)

Fixpoint wf_node (n : node) : bool :=
  match n with
  | Text _ => true
  | Elem t _ ks =>
      (if String.eqb t "title" then text_only ks else true) && forallb wf_node ks
  end.

Definition title_text_only (d : document) : bool := forallb wf_node d.

Lemma forallb_lookup {A} (P : A → bool) l i x :
  forallb P l = true → l !! i = Some x → P x = true.
Proof.
  revert i. induction l as [|y l IH]; intros i Hl Hx; [done|].
  simpl in Hl. apply andb_true_iff in Hl as [Hy Hl].
  destruct i; simplify_eq/=; eauto.
Qed.

Lemma forallb_alter {A} (P : A → bool) (f : A → A) l i :
  forallb P l = true → (∀ x, l !! i = Some x → P (f x) = true) →
  forallb P (alter f i l) = true.
Proof.
  revert i. induction l as [|y l IH]; intros i Hl Hf; [done|].
  simpl in Hl. apply andb_true_iff in Hl as [Hy Hl].
  destruct i; simpl; apply andb_true_iff; split; try done.
  - by apply Hf.
  - apply IH; [done|]. intros x Hx. by apply Hf.
Qed.

Lemma wf_get p : ∀ d n,
  title_text_only d = true → get_node p d = Some n → wf_node n = true.
Proof.
  induction p as [|j q IH]; intros d n Hd Hn; [done|].
  destruct (decide (q = [])) as [->|Hq].
  - rewrite get_node_one in Hn. by eapply forallb_lookup.
  - rewrite get_node_deeper in Hn by done.
    destruct (d !! j) as [k|] eqn:E; simpl in Hn; [|done].
    pose proof (forallb_lookup _ _ _ _ Hd E) as Hk.
    destruct k as [s|t a kk]; [by rewrite get_node_nil_kids in Hn|].
    simpl in Hk. apply andb_true_iff in Hk as [_ Hk]. by eapply IH.
Qed.

Lemma text_only_get q ks n :
  text_only ks = true → get_node q ks = Some n → is_elem n = false ∧ ∃ j, q = [j].
Proof.
  intros Hks Hn. destruct q as [|j q]; [done|].
  destruct (decide (q = [])) as [->|Hq].
  - rewrite get_node_one in Hn. apply (forallb_lookup _ _ _ _ Hks) in Hn.
    apply negb_true_iff in Hn. eauto.
  - rewrite get_node_deeper in Hn by done.
    destruct (ks !! j) as [k|] eqn:E; simpl in Hn; [|done].
    apply (forallb_lookup _ _ _ _ Hks) in E. apply negb_true_iff in E.
    destruct k; [by rewrite get_node_nil_kids in Hn | done].
Qed.

Lemma wf_alter_at m p : ∀ d n,
  get_node p d = Some n → title_text_only d = true →
  wf_node m = true → is_elem m = is_elem n →
  title_text_only (alter_at (λ _, m) p d) = true.
Proof.
  induction p as [|j q IH]; intros d n Hn Hd Hm He; [done|].
  destruct (decide (q = [])) as [->|Hq].
  - rewrite alter_at_one. by apply forallb_alter.
  - rewrite alter_at_deeper by done. apply forallb_alter; [done|].
    intros k Hk. rewrite get_node_deeper, Hk in Hn by done. simpl in Hn.
    pose proof (forallb_lookup _ _ _ _ Hd Hk) as Hwk.
    destruct k as [s|t a kk]; [done|]. simpl in *.
    apply andb_true_iff in Hwk as [Ht Hkk]. apply andb_true_iff. split.
    + destruct (String.eqb t "title"); [|done].
      destruct (text_only_get q kk n Ht Hn) as [Hen [i ->]].
      rewrite alter_at_one. apply forallb_alter; [done|].
      intros _ _. rewrite He, Hen. done.
    + by eapply IH.
Qed.

Lemma change_wf n m :
  change strict skip n m → wf_node n = true →
  wf_node m = true ∧ is_elem m = is_elem n.
Proof.
  destruct 1 as [t al ks a v|t al ks v|t al ks Ht|t al ks s Ht|t al ks s Hs|t al ks Ht
                |t al ks Hk Ht]; simpl; intros Hn; (split; [|done]);
    try done; apply andb_true_iff in Hn as [H1 H2];
    try (apply String.eqb_neq in Ht; rewrite Ht in *; simpl).
  - by rewrite H2.
  - unfold text_only. rewrite forallb_app. simpl. by rewrite H2.
  - apply andb_true_iff. split; by destruct (String.eqb t "title"), (truthy s).
  - by rewrite H2.
  - by rewrite H2.
Qed.

Lemma reach_wf d d' :
  reach strict skip d d' → title_text_only d = true → title_text_only d' = true.
Proof.
  induction 1 as [d|d d1 d' (p & n & m & Hn & Hc & ->) _ IH]; intros Hd; [done|].
  apply IH. destruct (change_wf n m Hc (wf_get p d n Hd Hn)) as [Hm He].
  by eapply wf_alter_at.
Qed.

(** *** The passes stay within [reach] *)

Lemma id_at_get p d n : get_node p d = Some n → id_at p d = id_of n.
Proof. unfold id_at, attr_at. by intros ->. Qed.

Lemma reach_set_at a v p d :
  a ≠ "id" → a ≠ "href" → reach strict skip d (set_at a v p d).
Proof. intros. apply reach_alter. intros n _. by apply changes_setAttribute. Qed.

Lemma reach_set_id v p d :
  truthy (id_at p d) = false → newid v → reach strict skip d (set_at "id" v p d).
Proof.
  intros Hid Hv. apply reach_alter. intros n Hn. apply changes_set_id; [|done].
  by rewrite <- (id_at_get p d n).
Qed.

Lemma reach_fold {A} (f : document → A → document) l d :
  (∀ d x, reach strict skip d (f d x)) → reach strict skip d (fold_left f l d).
Proof.
  intros Hf. revert d. induction l as [|x l IH]; intros d; simpl; [apply rtc_refl|].
  eapply reach_trans; [apply Hf | apply IH].
Qed.

Lemma reach_for_each f ps d :
  (∀ d p, reach strict skip d (f d p)) → reach strict skip d (for_each f ps d).
Proof. apply reach_fold. Qed.

Lemma querySelector_in_get p sel d q :
  querySelector_in p sel d = Some q →
  ∃ n, get_node q d = Some n ∧ is_elem n = true ∧ matches d sel (q, n) = true.
Proof.
  unfold querySelector_in, querySelectorAll_in. intros H.
  apply head_Some_elem_of, list_elem_of_filter in H as [_ H].
  by apply querySelectorAll_get.
Qed.

Lemma querySelector_in_tag p t d q :
  querySelector_in p (tag_sel t) d = Some q → ∃ a ks, get_node q d = Some (Elem t a ks).
Proof.
  intros (n & Hn & He & Hm)%querySelector_in_get. rewrite matches_tag in Hm.
  apply andb_true_iff in Hm as [_ Ht]. apply String.eqb_eq in Ht.
  destruct n as [|t' a ks]; simplify_eq/=. eauto.
Qed.

Lemma get_node_snoc p i : ∀ d,
  p ≠ [] → get_node (p ++ [i]) d = get_node p d ≫= λ n, node_kids n !! i.
Proof.
  induction p as [|j q IH]; intros d Hp; [done|].
  change ((j :: q) ++ [i]) with (j :: (q ++ [i])).
  rewrite get_node_deeper by (by destruct q).
  destruct (decide (q = [])) as [->|Hq].
  - rewrite get_node_one. destruct (d !! j) as [n|]; simpl; [|done].
    by destruct (node_kids n !! i).
  - rewrite get_node_deeper by done.
    destruct (d !! j); simpl; [|done]. by apply IH.
Qed.

Lemma reach_ensureHtmlLangAttribute d lang :
  reach strict skip d (ensureHtmlLangAttribute d lang).
Proof.
  unfold ensureHtmlLangAttribute. destruct (querySelector _ d); [|apply rtc_refl].
  by apply reach_set_at.
Qed.

Lemma reach_fill_title text h d :
  (∀ n, get_node h d = Some n → node_tag n ≠ "title") →
  (strict = true → title_text_only d = true) →
  reach strict skip d (fill_title text h d).
Proof.
  intros Hh Hwf. unfold fill_title.
  destruct (querySelector_in h (tag_sel "title") d) as [tp|] eqn:E.
  - destruct (negb _); [|apply rtc_refl].
    apply querySelector_in_tag in E as (a & ks & Hn).
    apply reach_alter. intros n Hn'. rewrite Hn in Hn'. simplify_eq. simpl.
    apply rtc_once, ch_text. intros Hs.
    pose proof (wf_get tp d _ (Hwf Hs) Hn) as Hw. simpl in Hw.
    by apply andb_true_iff in Hw as [Hw _].
  - apply reach_alter. intros n Hn. specialize (Hh n Hn).
    destruct n as [s|t a ks]; [apply rtc_refl|]. simpl. by apply rtc_once, ch_title.
Qed.

Lemma reach_ensureDocumentTitle d text :
  (strict = true → title_text_only d = true) →
  reach strict skip d (ensureDocumentTitle d text).
Proof.
  intros Hwf. unfold ensureDocumentTitle.
  destruct text as [text|]; [|apply rtc_refl].
  destruct (negb _); [apply rtc_refl|].
  destruct (querySelector (tag_sel "head") d) as [hp|] eqn:Eh.
  - apply reach_fill_title; [|done].
    apply querySelector_tag in Eh as (a & ks & Hn). intros n Hn'.
    rewrite Hn in Hn'. by simplify_eq.
  - destruct (querySelector (tag_sel "html") d) as [hp|] eqn:Et; [|apply rtc_refl].
    pose proof Et as (a & ks & Hn)%querySelector_tag.
    assert (reach strict skip d
              (alter_at (on_kids (cons (Elem "head" [] []))) hp d)) as Hr.
    { apply reach_alter. intros n Hn'. rewrite Hn in Hn'. simplify_eq.
      by apply rtc_once, ch_head. }
    eapply reach_trans; [exact Hr|]. apply reach_fill_title.
    + intros n. rewrite get_node_snoc by (intros ->; done).
      rewrite get_node_alter_at_eq, Hn. simpl. by intros [= <-].
    + intros Hs. eapply reach_wf; [exact Hr | by apply Hwf].
Qed.

Lemma reach_resolve_main d : reach strict skip d (resolve_main d).1.
Proof.
  unfold resolve_main. destruct (querySelector (tag_sel "main") d); [apply rtc_refl|].
  destruct (querySelectorAll main_candidates d); simpl.
  - destruct (querySelector (tag_sel "body") d) as [b|] eqn:E; [|apply rtc_refl].
    apply querySelector_tag in E as (a & ks & Hn). simpl.
    apply reach_alter. intros n Hn'. rewrite Hn in Hn'. simplify_eq.
    by apply rtc_once, ch_main.
  - by apply reach_set_at.
Qed.

Lemma reach_mark_first t role d : reach strict skip d (mark_first t role d).
Proof.
  unfold mark_first. destruct (querySelector _ d); [|apply rtc_refl].
  by apply reach_set_at.
Qed.

Lemma reach_addDocumentLandmarks d : reach strict skip d (addDocumentLandmarks d).
Proof.
  unfold addDocumentLandmarks. pose proof (reach_resolve_main d) as H0.
  destruct (resolve_main d) as [d1 m]. simpl in H0.
  eapply reach_trans; [exact H0|]. clear H0.
  eapply reach_trans.
  { instantiate (1 := match m with Some m0 => alter_at mark_main m0 d1 | None => d1 end).
    destruct m; [|apply rtc_refl]. apply reach_alter. intros. apply changes_mark_main. }
  eapply reach_trans; [apply reach_mark_first|].
  eapply reach_trans.
  { apply reach_for_each. intros. apply reach_alter. intros. apply changes_label_nav. }
  eapply reach_trans; [apply reach_mark_first|].
  apply reach_fold. intros. apply reach_alter. intros. apply changes_mark_aside.
Qed.

Lemma reach_enhanceHeadings d : reach strict skip d (enhanceHeadings d).
Proof.
  apply reach_for_each. intros. apply reach_alter. intros. apply changes_heading_step.
Qed.

Lemma reach_external_link link d : reach strict skip d (external_link link d).
Proof.
  unfold external_link.
  set (d1 := if not_value (attr_at "rel" link d)
             then set_at "rel" "noopener noreferrer" link d else d).
  assert (reach strict skip d d1) as H1.
  { subst d1. destruct (not_value _); [by apply reach_set_at | apply rtc_refl]. }
  eapply reach_trans; [exact H1|].
  destruct (_ && _); [by apply reach_set_at | apply rtc_refl].
Qed.

Lemma reach_anchor_link href link d : reach strict skip d (anchor_link href link d).
Proof.
  unfold anchor_link. destruct (getElementById _ d) as [target|]; [|apply rtc_refl].
  set (d1 := if has_attr_at "tabindex" target d then d
             else set_at "tabindex" "-1" target d).
  assert (reach strict skip d d1) as H1.
  { subst d1. destruct (has_attr_at _ _ _); [apply rtc_refl | by apply reach_set_at]. }
  eapply reach_trans; [exact H1|].
  destruct (not_value _); [by apply reach_set_at | apply rtc_refl].
Qed.

Lemma reach_warn text p d : reach strict skip d (alter_at (warn text) p d).
Proof. apply reach_alter. intros. apply changes_warn. Qed.

Lemma reach_accessible_text link d : reach strict skip d (accessible_text link d).
Proof.
  unfold accessible_text. destruct (_ && _); [|apply rtc_refl].
  destruct (_ ≫= _) as [alt|]; [|apply reach_warn].
  destruct (truthy alt); [by apply reach_set_at | apply reach_warn].
Qed.

Lemma reach_link_step d link : reach strict skip d (link_step d link).
Proof.
  unfold link_step. destruct (attr_at "href" link d) as [href|]; [|apply rtc_refl].
  destruct (negb _); [apply rtc_refl|].
  set (d1 := if startsWith href "http://" || startsWith href "https://"
             then external_link link d else d).
  assert (reach strict skip d d1) as H1.
  { subst d1. destruct (_ || _); [apply reach_external_link | apply rtc_refl]. }
  set (d2 := if startsWith href "#" then anchor_link href link d1 else d1).
  assert (reach strict skip d1 d2) as H2.
  { subst d2. destruct (startsWith href "#"); [apply reach_anchor_link | apply rtc_refl]. }
  eapply reach_trans; [exact H1|]. eapply reach_trans; [exact H2|].
  apply reach_accessible_text.
Qed.

Lemma reach_enhanceLinks d : reach strict skip d (enhanceLinks d).
Proof. apply reach_for_each. apply reach_link_step. Qed.

Lemma reach_code_step d codeBlock : reach strict skip d (code_step d codeBlock).
Proof.
  unfold code_step. destruct (closest _ _ d) as [pre|]; [|apply rtc_refl].
  eapply reach_trans; [by apply (reach_set_at "tabindex" "0")|].
  eapply reach_trans; [by apply (reach_set_at "role" "region")|].
  by apply reach_set_at.
Qed.

Lemma reach_enhanceCodeBlocks d : reach strict skip d (enhanceCodeBlocks d).
Proof. apply reach_for_each. apply reach_code_step. Qed.

Lemma reach_addSkipNavigation d :
  skip = true → reach strict skip d (addSkipNavigation d).
Proof.
  intros Hs. unfold addSkipNavigation.
  destruct (querySelector (tag_sel "body") d) as [b|] eqn:E; [|apply rtc_refl].
  destruct (querySelector skip_targets d); [apply rtc_refl|].
  apply querySelector_tag in E as (a & ks & Hn).
  apply reach_alter. intros n Hn'. rewrite Hn in Hn'. simplify_eq.
  by apply rtc_once, ch_skip.
Qed.

(** Tables and forms *)

Lemma reach_fresh_id prefix el (s : state) :
  prefix ∈ id_prefixes → reach strict skip s.1 (fresh_id random_id prefix el s).1.
Proof.
  intros Hp. unfold fresh_id. destruct (truthy _) eqn:E; [apply rtc_refl|].
  simpl. apply reach_set_id; [done | by constructor].
Qed.

Lemma reach_label_table table (s : state) :
  reach strict skip s.1
    (if has_attr_at "aria-label" table s.1 then s
     else (set_at "aria-label" "Table" table s.1, s.2)).1.
Proof. destruct (has_attr_at _ _ _); [apply rtc_refl | by apply reach_set_at]. Qed.

Lemma reach_table_caption table (s : state) :
  reach strict skip s.1 (table_caption random_id table s).1.
Proof.
  unfold table_caption. destruct (querySelector_in _ _ _); [apply rtc_refl|].
  destruct (previousElementSibling table s.1) as [pc|]; [|apply reach_label_table].
  destruct (default false _); [|apply reach_label_table].
  eapply reach_trans; [apply (reach_fresh_id "table-heading-" pc s)|]; simpl.
  - unfold id_prefixes. apply list_elem_of_here.
  - by apply reach_set_at.
Qed.

Lemma reach_table_step (s : state) table :
  reach strict skip s.1 (table_step random_id s table).1.
Proof.
  unfold table_step.
  set (d1 := set_at "role" "table" table s.1).
  set (d2 := for_each _ _ d1).
  assert (reach strict skip s.1 d2) as H2.
  { eapply reach_trans; [by apply (reach_set_at "role" "table" table)|].
    apply reach_for_each. intros. apply reach_alter. intros. apply changes_default_scope. }
  pose proof (reach_table_caption table (d2, s.2)) as H3.
  destruct (table_caption random_id table (d2, s.2)) as [d3 n]. simpl in *.
  eapply reach_trans; [exact H2|]. eapply reach_trans; [exact H3|].
  eapply reach_trans; apply reach_for_each; intros; by apply reach_set_at.
Qed.

Lemma reach_fold_state {A} (f : state → A → state) l (s : state) :
  (∀ s x, reach strict skip s.1 (f s x).1) →
  reach strict skip s.1 (fold_left f l s).1.
Proof.
  intros Hf. revert s. induction l as [|x l IH]; intros s; simpl; [apply rtc_refl|].
  eapply reach_trans; [apply Hf | apply IH].
Qed.

Lemma reach_enhanceTables (s : state) :
  reach strict skip s.1 (enhanceTables random_id s).1.
Proof. apply reach_fold_state. apply reach_table_step. Qed.

Lemma reach_form_step (s : state) form :
  reach strict skip s.1 (form_step random_id s form).1.
Proof.
  unfold form_step. destruct (_ && _); [|apply rtc_refl].
  destruct (querySelector_in _ _ _) as [fh|]; [|by apply reach_set_at].
  eapply reach_trans; [apply (reach_fresh_id "form-heading-" fh s)|]; simpl.
  - unfold id_prefixes. apply list_elem_of_further, list_elem_of_here.
  - by apply reach_set_at.
Qed.

Lemma reach_input_step (s s' : state) input :
  input_step random_id parse_selector s input = Ret s' → reach strict skip s.1 s'.1.
Proof.
  unfold input_step. destruct (bool_decide _); [by intros [= ->]; apply rtc_refl|].
  set (s1 := if negb (truthy (id_at input s.1))
             then (set_at "id" ("input-" +:+ random_id s.2) input s.1, S s.2) else s).
  assert (reach strict skip s.1 s1.1) as H1.
  { subst s1. destruct (truthy _) eqn:E; simpl; [apply rtc_refl|].
    apply reach_set_id; [done|]. constructor. unfold id_prefixes.
    do 2 apply list_elem_of_further. apply list_elem_of_here. }
  destruct (if truthy (id_at input s.1) then _ else _) as [lbl|msg]; [|done].
  simpl. intros [= <-]. simpl. eapply reach_trans; [exact H1|].
  set (d2 := if negb _ then alter_at _ input s1.1 else s1.1).
  assert (reach strict skip s1.1 d2) as H2.
  { subst d2.
    match goal with |- reach _ _ _ (if ?c then _ else _) => destruct c end;
      [apply reach_warn | apply rtc_refl]. }
  eapply reach_trans; [exact H2|].
  destruct (has_attr_at "required" input d2); [by apply reach_set_at | apply rtc_refl].
Qed.

Lemma reach_for_each_throwing {A} (f : state → A → outcome state) l (s s' : state) :
  (∀ s x s', f s x = Ret s' → reach strict skip s.1 s'.1) →
  for_each_throwing f l s = Ret s' → reach strict skip s.1 s'.1.
Proof.
  intros Hf. revert s. induction l as [|x l IH]; intros s; simpl.
  - intros [= ->]. apply rtc_refl.
  - destruct (f s x) as [s1|msg] eqn:E; [|done]. simpl. intros H.
    eapply reach_trans; [by eapply Hf | by apply IH].
Qed.

Lemma reach_enhanceForms (s s' : state) :
  enhanceForms random_id parse_selector s = Ret s' → reach strict skip s.1 s'.1.
Proof.
  unfold enhanceForms. intros H.
  eapply reach_trans; [apply (reach_fold_state (form_step random_id)), reach_form_step|].
  eapply reach_for_each_throwing; [|exact H].
  intros s1 x s2. apply reach_input_step.
Qed.

(** The passes before the skip link, and the whole Enhancer. *)
Lemma reach_before_skip d fm d' :
  (strict = true → title_text_only d = true) →
  enhanceWithAria random_id parse_selector d fm = Ret d' →
  ∃ d8, reach strict skip d d8 ∧ d' = addSkipNavigation d8.
Proof.
  intros Hwf. unfold enhanceWithAria.
  set (d1 := match language fm with
             | Some lang => if truthy lang then ensureHtmlLangAttribute d lang else d
             | None => d
             end).
  assert (reach strict skip d d1) as H1.
  { subst d1. destruct (language fm) as [lang|]; [|apply rtc_refl].
    destruct (truthy lang); [apply reach_ensureHtmlLangAttribute | apply rtc_refl]. }
  set (d2 := ensureDocumentTitle d1 (title fm)).
  assert (reach strict skip d1 d2) as H2.
  { apply reach_ensureDocumentTitle. intros Hs. eapply reach_wf; [exact H1 | by apply Hwf]. }
  set (d5 := enhanceLinks _).
  assert (reach strict skip d2 d5) as H5.
  { eapply reach_trans; [apply reach_addDocumentLandmarks|].
    eapply reach_trans; [apply reach_enhanceHeadings|]. apply reach_enhanceLinks. }
  pose proof (reach_enhanceTables (d5, 0%nat)) as H6. simpl in H6.
  destruct (enhanceForms _ _ _) as [s7|msg] eqn:E7; [|done]. simpl.
  apply reach_enhanceForms in E7. intros [= <-].
  exists (enhanceCodeBlocks s7.1). split; [|done].
  eapply reach_trans; [exact H1|]. eapply reach_trans; [exact H2|].
  eapply reach_trans; [exact H5|]. eapply reach_trans; [exact H6|].
  eapply reach_trans; [exact E7|]. apply reach_enhanceCodeBlocks.
Qed.

End evolution.

(** ** Queries without combinators, read off the outline *)

Section local_queries.

Fixpoint count {A} (f : A → bool) (l : list A) : nat :=
  match l with
  | [] => 0
  | x :: r => ((if f x then 1 else 0) + count f r)%nat
  end.

Lemma count_app {A} (f : A → bool) l1 l2 :
  count f (l1 ++ l2) = (count f l1 + count f l2)%nat.
Proof. induction l1 as [|x l1 IH]; simpl; [done|]. rewrite IH. lia. Qed.

Lemma count_length_filter {A} (f : A → bool) l : length (filter (λ x, f x) l) = count f l.
Proof.
  induction l as [|x l IH]; [done|]. simpl. destruct (f x) eqn:E.
  - rewrite (filter_cons_True (λ x, f x)) by (by apply Is_true_true). simpl.
    by rewrite IH.
  - rewrite (filter_cons_False (λ x, f x)) by (by apply Is_true_false). by rewrite IH.
Qed.

Lemma filter_fmap_ext {A B} (f : A → B) (P : A → bool) (Q : B → bool) l :
  Forall (λ x, P x = Q (f x)) l →
  f <$> filter (λ x, P x) l = filter (λ y, Q y) (f <$> l).
Proof.
  induction 1 as [|x l Hx _ IH]; [done|].
  rewrite fmap_cons. destruct (P x) eqn:E.
  - rewrite (filter_cons_True (λ x, P x)) by (by apply Is_true_true).
    rewrite (filter_cons_True (λ y, Q y)) by (apply Is_true_true; congruence).
    by rewrite fmap_cons, IH.
  - rewrite (filter_cons_False (λ x, P x)) by (by apply Is_true_false).
    rewrite (filter_cons_False (λ y, Q y)) by (apply Is_true_false; congruence).
    done.
Qed.

Lemma filter_snd {A B} (Q : B → bool) (l : list (A * B)) :
  (filter (λ x, Q x.2) l).*2 = filter (λ y, Q y) l.*2.
Proof. apply filter_fmap_ext. by apply Forall_forall. Qed.

(** An element as a selector without combinators sees it. *)
Definition seen (x : string * attrs_t) : node := Elem x.1 x.2 [].

Definition matchesl (cs : list compound) (x : string * attrs_t) : bool :=
  existsb (matches_compound (seen x)) cs.

Definition local_sel (cs : list compound) : selector := (λ c, [c]) <$> cs.

Lemma matches_simple_seen n s :
  is_elem n = true → matches_simple n s = matches_simple (seen (local n)) s.
Proof. destruct n; [done|]. by destruct s. Qed.

Lemma matches_local d cs pn :
  is_elem pn.2 = true → matches d (local_sel cs) pn = matchesl cs (local pn.2).
Proof.
  intros He. unfold matches, matchesl, local_sel.
  induction cs as [|c cs IH]; [done|].
  rewrite fmap_cons. cbn [existsb]. rewrite IH. f_equal.
  unfold matches_complex. simpl. rewrite matches_above_nil, andb_true_r.
  unfold matches_compound. induction c as [|s c IHc]; [done|].
  simpl. by rewrite IHc, (matches_simple_seen _ _ He).
Qed.

Lemma walk_elems d : Forall (λ pn, is_elem pn.2 = true) (walk d).
Proof. apply Forall_forall. intros [q m] H. by apply walk_get in H as [_ ?]. Qed.

Lemma select_outline cs d :
  (λ pn, (pn.1, local pn.2)) <$> select (local_sel cs) d =
  filter (λ x, matchesl cs x.2) (outline d).
Proof.
  unfold select, outline, outline_from.
  apply (filter_fmap_ext _ (λ pn, matches d (local_sel cs) pn) (λ x, matchesl cs x.2)).
  eapply Forall_impl; [apply walk_elems|]. intros pn He. by apply matches_local.
Qed.

Lemma querySelectorAll_outline cs d :
  querySelectorAll (local_sel cs) d = (filter (λ x, matchesl cs x.2) (outline d)).*1.
Proof.
  rewrite <- select_outline, <- list_fmap_compose. unfold querySelectorAll.
  by apply list_fmap_ext.
Qed.

Lemma length_querySelectorAll cs d :
  length (querySelectorAll (local_sel cs) d) = count (matchesl cs) (flat d).
Proof.
  rewrite querySelectorAll_outline, length_fmap, <- outline_flat.
  rewrite <- (length_fmap snd), filter_snd. apply count_length_filter.
Qed.

Lemma querySelector_is_Some_count cs d :
  is_Some (querySelector (local_sel cs) d) ↔ (0 < count (matchesl cs) (flat d))%nat.
Proof.
  rewrite <- length_querySelectorAll. unfold querySelector.
  destruct (querySelectorAll _ d); simpl; split; try lia; try done.
Qed.

Lemma querySelector_None_count cs d :
  querySelector (local_sel cs) d = None ↔ count (matchesl cs) (flat d) = 0%nat.
Proof.
  rewrite <- length_querySelectorAll. unfold querySelector.
  destruct (querySelectorAll _ d); simpl; split; done.
Qed.

(** Rewriting the first match keeps it the first match. *)
Lemma first_match_alter cs g p d n :
  querySelector (local_sel cs) d = Some p → get_node p d = Some n →
  is_elem (g n) = true → matchesl cs (local (g n)) = true →
  querySelector (local_sel cs) (alter_at g p d) = Some p.
Proof.
  intros Hq Hn He Hm.
  destruct (outline_alter_at g p d n Hn) as (w1 & w2 & Hw1 & H1 & H2).
  unfold querySelector in *. rewrite querySelectorAll_outline in *.
  rewrite H1 in Hq. rewrite H2. rewrite filter_app in *. rewrite fmap_app in *.
  assert (filter (λ x, matchesl cs x.2) w1 = []) as Hnil.
  { destruct (filter (λ x, matchesl cs x.2) w1) as [|x l] eqn:E; [done|].
    simpl in Hq. simplify_eq.
    assert (x ∈ filter (λ x, matchesl cs x.2) w1) as Hx by (rewrite E; left).
    apply list_elem_of_filter in Hx as [_ Hx].
    by apply (proj1 (Forall_forall _ _) Hw1) in Hx. }
  rewrite Hnil. simpl. destruct (g n) as [s|t a ks]; [done|].
  rewrite outline_node_elem, fmap_cons, filter_app.
  rewrite filter_cons_True by (by apply Is_true_true).
  unfold under at 1. simpl. by rewrite app_nil_r.
Qed.

End local_queries.

(** ** What the passes preserve *)

Section invariants.
Import Enhancer.

Variable random_id : nat → string.
Variable parse_selector : string → outcome selector.

Lemma reach_flat strict skip (H : list (string * attrs_t) → Prop) d d' :
  (∀ n m l1 l2, change random_id strict skip n m →
     H (l1 ++ flat_node n ++ l2) → H (l1 ++ flat_node m ++ l2)) →
  reach random_id strict skip d d' → H (flat d) → H (flat d').
Proof.
  intros Hch. induction 1 as [d|d d1 d' (p & n & m & Hn & Hc & ->) _ IH]; [done|].
  intros Hd. apply IH.
  destruct (flat_alter_at (λ _, m) p d n Hn) as (l1 & l2 & E1 & E2).
  rewrite E2. eapply Hch; [exact Hc|]. by rewrite <- E1.
Qed.

Lemma flat_text_only ks : text_only ks = true → flat ks = [].
Proof.
  induction ks as [|k ks IH]; [done|]. simpl. intros [Hk Hks]%andb_true_iff.
  rewrite flat_cons, IH by done. by destruct k.
Qed.

(** *** Anchors and bodies *)

(** A test on elements that looks at the tag and the [href] only and
    rejects the elements the Enhancer makes before the skip link. *)
Definition blind (f : string * attrs_t → bool) : Prop :=
  (∀ t al a v, a ≠ "href" → f (t, set_attr a v al) = f (t, al)) ∧
  f ("head", []) = false ∧ f ("title", []) = false ∧ f ("main", []) = false.

Lemma change_count f n m :
  blind f → change random_id true false n m →
  count f (flat_node m) = count f (flat_node n).
Proof.
  intros (Hset & Hhead & Htitle & Hmain).
  destruct 1 as [t al ks a v|t al ks v|t al ks Ht|t al ks s Ht|t al ks s Hs|t al ks Ht
                |t al ks Hk Ht]; rewrite ?flat_node_elem; cbn [count].
  - by rewrite Hset.
  - by rewrite Hset.
  - rewrite flat_cons, flat_node_elem. change (flat []) with (@nil (string * attrs_t)).
    cbn [app count]. by rewrite Hhead.
  - rewrite flat_app, count_app.
    change (flat [Elem "title" [] [Text s]]) with [("title", @nil (string * string))].
    cbn [count]. rewrite Htitle. lia.
  - rewrite (flat_text_only ks) by auto. by destruct (truthy s).
  - rewrite flat_cons, flat_node_elem.
    change (flat []) with (@nil (string * attrs_t)).
    rewrite app_nil_r. cbn [count]. by rewrite Hmain.
  - done.
Qed.

Lemma reach_count f d d' :
  blind f → reach random_id true false d d' →
  count f (flat d') = count f (flat d).
Proof.
  intros Hf Hr.
  apply (reach_flat true false (λ l, count f l = count f (flat d)) d d'); [|done|done].
  intros n m l1 l2 Hc. rewrite !count_app, (change_count f n m Hf Hc). done.
Qed.

Definition body_cs : list compound := [[STag "body"]].
Definition anchor_cs : list compound := [[STag "a"]].
Definition skip_cs : list compound :=
  [[STag "a"; SAttr "href" "#main"]; [STag "a"; SAttr "href" "#main-content"];
   [STag "a"; SAttr "href" "#content"]].

Lemma blind_tag t :
  t ≠ "head" → t ≠ "title" → t ≠ "main" → blind (matchesl [[STag t]]).
Proof.
  intros H1 H2 H3. unfold blind, matchesl, matches_compound. cbn [existsb forallb].
  unfold matches_simple, seen. cbn [is_elem node_tag fst snd andb].
  rewrite !orb_false_r, !andb_true_r.
  split; [done|]. repeat split; apply String.eqb_neq; congruence.
Qed.

Lemma blind_skip : blind (matchesl skip_cs).
Proof.
  unfold blind, matchesl, skip_cs, matches_compound. cbn [existsb forallb].
  unfold matches_simple, seen, getAttribute.
  cbn [is_elem node_tag node_attrs fst snd andb].
  split; [|by vm_compute]. intros t al a v Ha.
  by rewrite lookup_set_attr_ne.
Qed.

(** *** Identifiers that can stand in a quoted selector value *)

Definition plain_id (x : string * attrs_t) : bool :=
  plain (default "" (lookup_attr "id" x.2)).

Definition ids_plain (d : document) : bool := forallb plain_id (flat d).

Definition slug_char (c : ascii) : bool := is_word c || is_hyphen c.

Lemma slug_char_plain c : slug_char c = true → plain_char c = true.
Proof. destruct c as [[] [] [] [] [] [] [] []]; by vm_compute. Qed.

Lemma all_chars_impl (P Q : ascii → bool) s :
  (∀ c, P c = true → Q c = true) → all_chars P s = true → all_chars Q s = true.
Proof.
  intros HPQ. induction s as [|c s IH]; [done|]. simpl.
  intros [Hc Hs]%andb_true_iff. rewrite (HPQ c Hc). simpl. auto.
Qed.

Lemma all_chars_app P s1 s2 :
  all_chars P s1 = true → all_chars P s2 = true → all_chars P (s1 +:+ s2) = true.
Proof.
  intros H1 H2. induction s1 as [|c s1 IH]; [done|]. simpl in *.
  apply andb_true_iff in H1 as [-> H1]. simpl. auto.
Qed.

Lemma strip_special_chars s :
  all_chars (λ c, is_word c || is_space c || is_hyphen c) (strip_special s) = true.
Proof.
  induction s as [|c s IH]; [done|]. simpl.
  destruct (is_word c || is_space c || is_hyphen c) eqn:E; [|done].
  simpl. by rewrite E.
Qed.

Lemma collapse_runs_chars (P Q Q' : ascii → bool) b s :
  (∀ c, Q c = true → P c = false → Q' c = true) → Q' "-"%char = true →
  all_chars Q s = true → all_chars Q' (collapse_runs P b s) = true.
Proof.
  intros HQ Hh. revert b. induction s as [|c s IH]; intros b; [done|]. simpl.
  intros [Hc Hs]%andb_true_iff. destruct (P c) eqn:E.
  - destruct b; simpl; rewrite ?Hh; simpl; auto.
  - simpl. rewrite (HQ c Hc E). simpl. auto.
Qed.

Lemma slugify_plain s : plain (slugify s) = true.
Proof.
  unfold plain, slugify. apply (all_chars_impl slug_char); [apply slug_char_plain|].
  apply (collapse_runs_chars _ slug_char); [done|done|].
  apply (collapse_runs_chars _ (λ c, is_word c || is_space c || is_hyphen c));
    [|done|apply strip_special_chars].
  intros c Hc Hs. unfold slug_char. rewrite Hs, orb_false_r in Hc. done.
Qed.

Hypothesis random_plain : ∀ k, plain (random_id k) = true.

Lemma newid_plain v : newid random_id v → plain v = true.
Proof.
  destruct 1 as [|s|prefix k Hp]; [done|apply slugify_plain|].
  apply all_chars_app; [|apply random_plain].
  unfold id_prefixes in Hp. repeat (apply elem_of_cons in Hp as [->|Hp]); try done.
  by apply elem_of_nil in Hp.
Qed.

Lemma change_plain strict skip n m :
  change random_id strict skip n m →
  forallb plain_id (flat_node n) = true → forallb plain_id (flat_node m) = true.
Proof.
  destruct 1 as [t al ks a v|t al ks v|t al ks Ht|t al ks s Ht|t al ks s Hs|t al ks Ht
                |t al ks Hk Ht]; rewrite ?flat_node_elem; cbn [forallb];
    intros [H1 H2]%andb_true_iff; apply andb_true_iff.
  - split; [|done]. unfold plain_id in *. simpl in *. by rewrite lookup_set_attr_ne.
  - split; [|done]. unfold plain_id. simpl. rewrite lookup_set_attr_eq. simpl.
    by apply newid_plain.
  - split; [done|]. rewrite flat_cons, forallb_app, H2. done.
  - split; [done|]. rewrite flat_app, forallb_app, H2. done.
  - split; [done|]. by destruct (truthy s).
  - split; [done|]. rewrite flat_cons, flat_node_elem.
    change (flat []) with (@nil (string * attrs_t)). rewrite app_nil_r. by simpl.
  - split; [done|]. rewrite flat_cons, forallb_app, H2. done.
Qed.

Lemma reach_plain strict skip d d' :
  reach random_id strict skip d d' → ids_plain d = true → ids_plain d' = true.
Proof.
  unfold ids_plain. intros Hr.
  apply (reach_flat strict skip (λ l, forallb plain_id l = true) d d'); [|done].
  intros n m l1 l2 Hc. rewrite !forallb_app.
  intros [-> [Hn ->]%andb_true_iff]%andb_true_iff.
  by rewrite (change_plain _ _ n m Hc Hn).
Qed.

Lemma id_at_plain p d : ids_plain d = true → plain (id_at p d) = true.
Proof.
  intros Hd. unfold id_at, attr_at. destruct (get_node p d) as [n|] eqn:E; [|done].
  destruct n as [s|t a ks]; [done|]. simpl.
  destruct (flat_alter_at id p d _ E) as (l1 & l2 & E1 & _).
  unfold ids_plain in Hd. rewrite E1, !forallb_app, flat_node_elem in Hd. simpl in Hd.
  apply andb_true_iff in Hd as [_ Hd]. apply andb_true_iff in Hd as [Hd _].
  by apply andb_true_iff in Hd as [Hd _].
Qed.

(** *** What stays of every element

    [kept x y]: the element [y] of the later tree is the element [x] of
    the earlier one, with its tag, its [href] and, when it had one, its
    [id]. [grows l l']: the later outline is the earlier one, element by
    element and in order, with new elements inserted. *)

Definition attr_id (x : string * attrs_t) : string := default "" (lookup_attr "id" x.2).

Definition kept (x y : string * attrs_t) : Prop :=
  y.1 = x.1 ∧ lookup_attr "href" y.2 = lookup_attr "href" x.2 ∧
  (attr_id x ≠ "" → attr_id y = attr_id x).

Inductive grows : list (string * attrs_t) → list (string * attrs_t) → Prop :=
| grows_nil : grows [] []
| grows_keep x y l l' : kept x y → grows l l' → grows (x :: l) (y :: l')
| grows_insert y l l' : grows l l' → grows l (y :: l').

Lemma kept_refl x : kept x x.
Proof. done. Qed.

Lemma kept_trans x y z : kept x y → kept y z → kept x z.
Proof.
  intros (H1 & H2 & H3) (H4 & H5 & H6). split; [congruence|]. split; [congruence|].
  intros Hx. rewrite <- (H3 Hx). apply H6. by rewrite (H3 Hx).
Qed.

Lemma grows_refl l : grows l l.
Proof. induction l; constructor; [apply kept_refl | done]. Qed.

Lemma grows_app l1 l1' l2 l2' : grows l1 l1' → grows l2 l2' → grows (l1 ++ l2) (l1' ++ l2').
Proof. induction 1; intros; simpl; [done| |]; constructor; auto. Qed.

Lemma grows_trans l1 l2 l3 : grows l1 l2 → grows l2 l3 → grows l1 l3.
Proof.
  intros H12 H23. revert l1 H12.
  induction H23 as [|x2 x3 l2 l3 Hk _ IH|x3 l2 l3 _ IH]; intros l1 H12.
  - done.
  - inversion H12 as [|x1 ? l1' ? Hk1 H1|? ? ? H1]; simplify_eq.
    + constructor; [by eapply kept_trans | by apply IH].
    + apply grows_insert. by apply IH.
  - apply grows_insert. by apply IH.
Qed.

Lemma change_grows skip n m :
  change random_id true skip n m → grows (flat_node n) (flat_node m).
Proof.
  destruct 1 as [t al ks a v|t al ks v|t al ks Ht|t al ks s Ht|t al ks s Hs|t al ks Ht
                |t al ks Hk Ht]; rewrite ?flat_node_elem.
  - apply grows_keep; [|apply grows_refl]. unfold kept, attr_id. simpl.
    by rewrite !lookup_set_attr_ne.
  - apply grows_keep; [|apply grows_refl]. unfold kept, attr_id. simpl.
    rewrite lookup_set_attr_ne by done. done.
  - apply grows_keep; [done|]. rewrite flat_cons. apply grows_insert, grows_refl.
  - apply grows_keep; [done|]. rewrite flat_app.
    rewrite <- (app_nil_r (flat ks)) at 1. apply grows_app; [apply grows_refl|].
    apply grows_insert, grows_nil.
  - apply grows_keep; [done|]. rewrite (flat_text_only ks) by auto.
    destruct (truthy s); apply grows_nil.
  - apply grows_keep; [done|]. rewrite flat_cons, flat_node_elem.
    change (flat []) with (@nil (string * attrs_t)). rewrite app_nil_r.
    apply grows_insert, grows_refl.
  - apply grows_keep; [done|]. rewrite flat_cons. apply grows_insert, grows_refl.
Qed.

Lemma reach_grows skip d d' :
  reach random_id true skip d d' → grows (flat d) (flat d').
Proof.
  intros Hr.
  apply (reach_flat true skip (λ l, grows (flat d) l) d d'); [|done|apply grows_refl].
  intros n m l1 l2 Hc H. eapply grows_trans; [exact H|].
  apply grows_app; [apply grows_refl|].
  apply grows_app; [by eapply change_grows | apply grows_refl].
Qed.

End invariants.

(** ** The Enhancer as a whole *)

Section enhancer_runs.
Import Enhancer.

Variable random_id : nat → string.
Variable parse_selector : string → outcome selector.

Abbreviation enhance := (enhanceWithAria random_id parse_selector).

(** The selector text the forms pass builds for an [id]. *)
Definition label_for_text (v : string) : string := "label[for=" +:+ dq +:+ v +:+ dq +:+ "]".

(** The state after the tables pass. *)
Definition before_forms (d : document) (fm : frontmatter) : state :=
  enhanceTables random_id
    (enhanceLinks
       (enhanceHeadings
          (addDocumentLandmarks
             (ensureDocumentTitle
                (match language fm with
                 | Some lang => if truthy lang then ensureHtmlLangAttribute d lang else d
                 | None => d
                 end)
                (title fm)))),
     0%nat).

Lemma enhance_unfold d fm :
  enhance d fm =
  obind (enhanceForms random_id parse_selector (before_forms d fm))
    (λ s, Ret (addSkipNavigation (enhanceCodeBlocks s.1))).
Proof. done. Qed.

Lemma reach_before_forms strict skip d fm :
  (strict = true → title_text_only d = true) →
  reach random_id strict skip d (before_forms d fm).1.
Proof.
  intros Hwf. unfold before_forms.
  set (d1 := match language fm with
             | Some lang => if truthy lang then ensureHtmlLangAttribute d lang else d
             | None => d
             end).
  assert (reach random_id strict skip d d1) as H1.
  { subst d1. destruct (language fm) as [lang|]; [|apply rtc_refl].
    destruct (truthy lang); [apply reach_ensureHtmlLangAttribute | apply rtc_refl]. }
  set (d2 := ensureDocumentTitle d1 (title fm)).
  assert (reach random_id strict skip d1 d2) as H2.
  { apply reach_ensureDocumentTitle. intros Hs.
    eapply reach_wf; [exact H1 | by apply Hwf]. }
  set (d5 := enhanceLinks _).
  assert (reach random_id strict skip d2 d5) as H5.
  { eapply reach_trans; [apply reach_addDocumentLandmarks|].
    eapply reach_trans; [apply reach_enhanceHeadings|]. apply reach_enhanceLinks. }
  pose proof (reach_enhanceTables random_id (strict := strict) (skip := skip)
                (d5, 0%nat)) as H6.
  eapply reach_trans; [exact H1|]. eapply reach_trans; [exact H2|].
  eapply reach_trans; [exact H5|]. exact H6.
Qed.

(** *** The skip link *)

Lemma tag_sel_local t : tag_sel t = local_sel [[STag t]].
Proof. done. Qed.

Lemma skip_targets_local : skip_targets = local_sel skip_cs.
Proof. done. Qed.

Definition anchors (d : document) : nat := length (querySelectorAll (tag_sel "a") d).
Definition skip_anchors (d : document) : nat := length (querySelectorAll skip_targets d).
Definition bodies (d : document) : nat := length (querySelectorAll (tag_sel "body") d).

Lemma anchors_count d : anchors d = count (matchesl anchor_cs) (flat d).
Proof. apply (length_querySelectorAll anchor_cs). Qed.

Lemma skip_anchors_count d : skip_anchors d = count (matchesl skip_cs) (flat d).
Proof. apply (length_querySelectorAll skip_cs). Qed.

Lemma bodies_count d : bodies d = count (matchesl body_cs) (flat d).
Proof. apply (length_querySelectorAll body_cs). Qed.

Lemma querySelector_length sel d :
  (querySelector sel d = None ↔ length (querySelectorAll sel d) = 0%nat) ∧
  (is_Some (querySelector sel d) ↔ (0 < length (querySelectorAll sel d))%nat).
Proof.
  unfold querySelector. destruct (querySelectorAll sel d); simpl.
  - split; split; try done; try lia.
  - split; split; try done; try lia.
Qed.

(** The passes before the skip link keep the anchors, their targets and
    the bodies. *)
Lemma before_skip_counts d d8 :
  reach random_id true false d d8 →
  anchors d8 = anchors d ∧ skip_anchors d8 = skip_anchors d ∧ bodies d8 = bodies d.
Proof.
  intros Hr. rewrite !anchors_count, !skip_anchors_count, !bodies_count.
  split; [|split].
  - apply (reach_count random_id); [by apply blind_tag | done].
  - apply (reach_count random_id); [apply blind_skip | done].
  - apply (reach_count random_id); [by apply blind_tag | done].
Qed.

(** What the last pass does, by cases. *)
Lemma addSkipNavigation_cases d :
  (bodies d = 0%nat ∨ (0 < skip_anchors d)%nat) ∧ addSkipNavigation d = d ∨
  (0 < bodies d)%nat ∧ skip_anchors d = 0%nat ∧
  ∃ body a ks,
    querySelector (tag_sel "body") d = Some body ∧
    get_node body d = Some (Elem "body" a ks) ∧
    addSkipNavigation d = alter_at (on_kids (cons skipLink)) body d.
Proof.
  unfold addSkipNavigation, bodies, skip_anchors.
  destruct (querySelector_length (tag_sel "body") d) as [Hb0 Hb1].
  destruct (querySelector_length skip_targets d) as [Hs0 Hs1].
  destruct (querySelector (tag_sel "body") d) as [body|] eqn:Eb.
  - destruct (querySelector skip_targets d) eqn:Es.
    + left. split; [|done]. right. by apply Hs1.
    + right. split; [by apply Hb1|]. split; [by apply Hs0|].
      destruct (querySelector_tag _ _ _ Eb) as (a & ks & Hn). by exists body, a, ks.
  - left. split; [|done]. left. by apply Hb0.
Qed.

Lemma insert_skipLink body a ks d :
  querySelector (tag_sel "body") d = Some body →
  get_node body d = Some (Elem "body" a ks) →
  let d' := alter_at (on_kids (cons skipLink)) body d in
  anchors d' = S (anchors d) ∧ (0 < skip_anchors d')%nat ∧ bodies d' = bodies d ∧
  querySelector (tag_sel "body") d' = Some body ∧
  get_node body d' = Some (Elem "body" a (skipLink :: ks)).
Proof.
  intros Hq Hn d'.
  destruct (flat_alter_at (on_kids (cons skipLink)) body d _ Hn) as (l1 & l2 & E1 & E2).
  fold d' in E2. cbn [on_kids] in E2.
  rewrite !flat_node_elem, flat_cons in E2. rewrite flat_node_elem in E1.
  rewrite !anchors_count, !skip_anchors_count, !bodies_count, E1, E2, !count_app.
  cbn [count app]. rewrite !count_app.
  change (count (matchesl anchor_cs) (flat_node skipLink)) with 1%nat.
  change (count (matchesl skip_cs) (flat_node skipLink)) with 1%nat.
  change (count (matchesl body_cs) (flat_node skipLink)) with 0%nat.
  split; [lia|]. split; [lia|]. split; [lia|]. split.
  - subst d'. rewrite tag_sel_local in *. by eapply first_match_alter.
  - subst d'. by rewrite get_node_alter_at_eq, Hn.
Qed.

(** The pass that injects the skip link, applied to its own result,
    changes nothing. *)
Lemma addSkipNavigation_idempotent d :
  addSkipNavigation (addSkipNavigation d) = addSkipNavigation d.
Proof.
  destruct (addSkipNavigation_cases d)
    as [[_ E]|(_ & _ & body & a & ks & Hq & Hn & E)]; rewrite E; [done|].
  destruct (insert_skipLink body a ks d Hq Hn) as (_ & Hs & _).
  destruct (addSkipNavigation_cases (alter_at (on_kids (cons skipLink)) body d))
    as [[_ E']|(_ & Hs0 & _)]; [done|lia].
Qed.

(** What one run does to the anchors. *)
Lemma enhance_anchors d fm d' :
  title_text_only d = true → enhance d fm = Ret d' →
  ((0 < bodies d)%nat ∧ skip_anchors d = 0%nat ∧
   anchors d' = S (anchors d) ∧ (0 < skip_anchors d')%nat ∧ bodies d' = bodies d ∧
   ∃ body a ks, querySelector (tag_sel "body") d' = Some body ∧
                get_node body d' = Some (Elem "body" a (skipLink :: ks))) ∨
  ((bodies d = 0%nat ∨ (0 < skip_anchors d)%nat) ∧
   anchors d' = anchors d ∧ skip_anchors d' = skip_anchors d ∧ bodies d' = bodies d).
Proof.
  intros Hwf Hrun.
  destruct (reach_before_skip random_id parse_selector (strict := true) (skip := false)
              d fm d' (λ _, Hwf) Hrun) as (d8 & Hr & ->).
  destruct (before_skip_counts d d8 Hr) as (Ha & Hs & Hb).
  destruct (addSkipNavigation_cases d8)
    as [[Hc ->]|(Hb8 & Hs8 & body & a & ks & Hq & Hn & ->)].
  - right. rewrite <- Hs, <- Hb. done.
  - left. destruct (insert_skipLink body a ks d8 Hq Hn) as (H1 & H2 & H3 & H4 & H5).
    rewrite <- Hb, <- Hs, <- Ha. split; [done|]. split; [done|]. split; [done|].
    split; [done|]. split; [done|]. by exists body, a, ks.
Qed.

(** One run keeps titles free of elements. *)
Lemma enhance_wf d fm d' :
  title_text_only d = true → enhance d fm = Ret d' → title_text_only d' = true.
Proof.
  intros Hwf Hrun.
  destruct (reach_before_skip random_id parse_selector (strict := true) (skip := true)
              d fm d' (λ _, Hwf) Hrun) as (d8 & Hr & ->).
  eapply (reach_wf random_id (strict := true) (skip := true)); [|exact Hwf].
  eapply reach_trans; [exact Hr|]. by apply reach_addSkipNavigation.
Qed.

Lemma enhance_grows d fm d' :
  title_text_only d = true → enhance d fm = Ret d' → grows (flat d) (flat d').
Proof.
  intros Hwf Hrun.
  destruct (reach_before_skip random_id parse_selector (strict := true) (skip := true)
              d fm d' (λ _, Hwf) Hrun) as (d8 & Hr & ->).
  apply (reach_grows random_id true).
  eapply reach_trans; [exact Hr|]. by apply reach_addSkipNavigation.
Qed.



(** *** When the Enhancer returns *)

Hypothesis random_plain : ∀ k, plain (random_id k) = true.
Hypothesis parse_plain :
  ∀ v, plain v = true → ∃ sel, parse_selector (label_for_text v) = Ret sel.

Lemma input_step_total (s : state) input :
  ids_plain s.1 = true → ∃ s', input_step random_id parse_selector s input = Ret s'.
Proof.
  intros Hs. unfold input_step. destruct (bool_decide _); [by eexists|].
  destruct (truthy (id_at input s.1)) eqn:E; simpl; [|by eexists].
  unfold label_for.
  destruct (parse_plain (id_at input s.1)) as [sel Hsel]; [by apply id_at_plain|].
  unfold label_for_text in Hsel. rewrite Hsel. simpl. by eexists.
Qed.

Lemma enhanceForms_total (s : state) :
  ids_plain s.1 = true → ∃ s', enhanceForms random_id parse_selector s = Ret s'.
Proof.
  intros Hs. unfold enhanceForms.
  set (s1 := fold_left (form_step random_id) _ s).
  assert (ids_plain s1.1 = true) as H1.
  { eapply (reach_plain random_id random_plain false false); [|exact Hs].
    apply (reach_fold_state random_id). apply reach_form_step. }
  clearbody s1. clear Hs s.
  generalize (querySelectorAll (tags_sel ["input"; "select"; "textarea"]) s1.1).
  intros l. revert s1 H1. induction l as [|x l IH]; intros s Hs; simpl; [by eexists|].
  destruct (input_step_total s x Hs) as [s' Hs']. rewrite Hs'. simpl.
  apply IH. eapply (reach_plain random_id random_plain false false); [|exact Hs].
  by eapply reach_input_step.
Qed.

Lemma enhance_total d fm : ids_plain d = true → ∃ d', enhance d fm = Ret d'.
Proof.
  intros Hd. rewrite enhance_unfold.
  destruct (enhanceForms_total (before_forms d fm)) as [s Hs].
  - eapply (reach_plain random_id random_plain false false); [|exact Hd].
    by apply reach_before_forms.
  - rewrite Hs. simpl. by eexists.
Qed.

(** Where the Enhancer returns. With identifiers from [Math.random] and every
    [id] of the tree free of double quotes, backslashes and line breaks,
    and a selector engine that accepts the selector built from such an
    [id], the Enhancer returns a tree, whatever the frontmatter and
    whichever of [html], [head] and [body] the tree lacks. *)
Theorem enhancer_returns (d : document) (fm : frontmatter) :
  ids_plain d = true → ∃ d', enhance d fm = Ret d'.
Proof. apply enhance_total. Qed.

End enhancer_runs.

(** ** Passes that rewrite attributes only

    Once the main element is resolved, the landmark pass changes
    attributes and nothing else, and so does the heading pass: the tags,
    the text and the shape of the tree stay, and with them the answer to
    every query by tag. *)

Section attribute_updates.
Import Enhancer.

(** A node function that keeps the tag and the children of an element and
    leaves a text node alone. *)
Definition attr_only (g : node → node) : Prop :=
  ∀ n, match n with
       | Text _ => g n = n
       | Elem t _ ks => ∃ a', g n = Elem t a' ks
       end.

(** A tree without its attributes. *)
Fixpoint skel (n : node) : node :=
  match n with
  | Text s => Text s
  | Elem t _ ks => Elem t [] (skel <$> ks)
  end.

Definition same_shape (d d' : document) : Prop := skel <$> d = skel <$> d'.

(** The attributes [g] writes depend on the attributes, the tag and the
    text of the node only. *)
Definition reads_node_only (g : node → node) : Prop :=
  ∀ n n', skel n = skel n' → node_attrs n = node_attrs n' →
          node_attrs (g n) = node_attrs (g n').

Lemma attr_only_setAttribute a v : attr_only (setAttribute a v).
Proof. intros [s|t l ks]; simpl; eauto. Qed.

Lemma attr_only_compose g1 g2 : attr_only g1 → attr_only g2 → attr_only (g2 ∘ g1).
Proof.
  intros H1 H2 [s|t l ks]; simpl.
  - pose proof (H1 (Text s)) as E. simpl in E. rewrite E. apply (H2 (Text s)).
  - destruct (H1 (Elem t l ks)) as [a' ->]. apply (H2 (Elem t a' ks)).
Qed.

Lemma attr_only_if (b : node → bool) g1 g2 :
  attr_only g1 → attr_only g2 → attr_only (λ n, if b n then g1 n else g2 n).
Proof.
  intros H1 H2 n. specialize (H1 n). specialize (H2 n).
  by destruct n, (b _).
Qed.

Lemma attr_only_id : attr_only id.
Proof. intros [s|t l ks]; simpl; eauto. Qed.

Lemma attr_only_label_nav : attr_only label_nav.
Proof.
  apply (attr_only_if (hasAttribute "aria-label") id
           (setAttribute "aria-label" "Main Navigation")).
  - apply attr_only_id.
  - apply attr_only_setAttribute.
Qed.

Lemma attr_only_mark_aside i : attr_only (mark_aside i).
Proof.
  apply (attr_only_compose (setAttribute "role" "complementary")
           (λ a, if hasAttribute "aria-label" a then id a
                 else setAttribute "aria-label"
                        ("Complementary Content " +:+ pretty (i + 1)%nat) a)).
  - apply attr_only_setAttribute.
  - apply (attr_only_if (hasAttribute "aria-label")); [apply attr_only_id|].
    apply attr_only_setAttribute.
Qed.

Lemma attr_only_heading_step : attr_only heading_step.
Proof.
  intros [s|t l ks]; unfold heading_step.
  - cbn [setAttribute]. by repeat case_match.
  - destruct (truthy _); cbn [setAttribute]; destruct (_ && _);
      cbn [setAttribute]; eauto.
Qed.

Lemma skel_attr_only g n : attr_only g → skel (g n) = skel n.
Proof.
  intros H. specialize (H n).
  destruct n; [by rewrite H | by destruct H as [a' ->]].
Qed.

Lemma skel_alter g (i : nat) :
  (∀ n, skel (g n) = skel n) → ∀ d : list node, skel <$> alter g i d = skel <$> d.
Proof.
  intros H d. revert i. induction d as [|k d IH]; intros [|i]; csimpl; try done.
  - by rewrite H.
  - by rewrite IH.
Qed.

Lemma skel_alter_at g p : attr_only g → ∀ d, same_shape (alter_at g p d) d.
Proof.
  intros Hg. unfold same_shape. induction p as [|i p IH]; intros d; [done|].
  cbn [alter_at]. apply skel_alter. intros n.
  destruct p as [|j p']; [by apply skel_attr_only|].
  destruct n as [s|t a ks]; [done|]. cbn [on_kids skel]. by rewrite IH.
Qed.

Lemma get_node_skel q : ∀ d, get_node q (skel <$> d) = skel <$> get_node q d.
Proof.
  induction q as [|i q IH]; intros d; [done|]. cbn [get_node].
  rewrite list_lookup_fmap. destruct (d !! i) as [n|]; [|done]. csimpl.
  destruct q as [|j q']; [done|].
  replace (node_kids (skel n)) with (skel <$> node_kids n) by (by destruct n).
  apply IH.
Qed.

Lemma textContent_skel n : textContent (skel n) = textContent n.
Proof.
  induction n as [s|t a ks IH] using node_ind'; [done|].
  cbn [skel textContent].
  induction IH as [|k ks Hk _ IH']; [done|].
  rewrite fmap_cons. cbn [foldr]. by rewrite Hk, IH'.
Qed.

Lemma node_tag_skel n : node_tag (skel n) = node_tag n.
Proof. by destruct n. Qed.

Lemma is_elem_skel n : is_elem (skel n) = is_elem n.
Proof. by destruct n. Qed.

Lemma same_shape_refl d : same_shape d d.
Proof. done. Qed.

Lemma same_shape_trans d1 d2 d3 :
  same_shape d1 d2 → same_shape d2 d3 → same_shape d1 d3.
Proof. unfold same_shape. congruence. Qed.

Lemma same_shape_get d d' q :
  same_shape d d' → skel <$> get_node q d = skel <$> get_node q d'.
Proof. intros H. by rewrite <- !get_node_skel, H. Qed.

Lemma same_shape_text d d' q : same_shape d d' → text_at q d = text_at q d'.
Proof.
  intros H. unfold text_at. pose proof (same_shape_get d d' q H) as E.
  destruct (get_node q d) as [n|], (get_node q d') as [n'|]; simplify_eq/=; [|done].
  by rewrite <- (textContent_skel n), E, textContent_skel.
Qed.

Lemma same_shape_tag d d' q : same_shape d d' → tag_at q d = tag_at q d'.
Proof.
  intros H. unfold tag_at. pose proof (same_shape_get d d' q H) as E.
  destruct (get_node q d) as [n|], (get_node q d') as [n'|]; simplify_eq/=; [|done].
  by rewrite <- (node_tag_skel n), E, node_tag_skel.
Qed.

(** *** Queries by tag see the shape only *)

Definition skel_entry (pn : path * node) : path * node := (pn.1, skel pn.2).

Lemma walk_from_skel ks :
  Forall (λ k, walk_node (skel k) = skel_entry <$> walk_node k) ks →
  ∀ i, walk_from i (skel <$> ks) = skel_entry <$> walk_from i ks.
Proof.
  induction 1 as [|k ks Hk _ IH]; intros i; [done|].
  rewrite fmap_cons, !walk_from_cons, fmap_app, IH, Hk. f_equal.
  rewrite <- !list_fmap_compose. by apply list_fmap_ext.
Qed.

Lemma walk_node_skel n : walk_node (skel n) = skel_entry <$> walk_node n.
Proof.
  induction n as [s|t a ks IH] using node_ind'; [done|].
  cbn [skel walk_node]. rewrite fmap_cons. f_equal.
  apply (walk_from_skel ks IH 0%nat).
Qed.

Lemma walk_skel d : walk (skel <$> d) = skel_entry <$> walk d.
Proof. apply walk_from_skel, Forall_forall. intros k _. apply walk_node_skel. Qed.

Definition tagged (ts : list string) (pn : path * node) : bool :=
  is_elem pn.2 && bool_decide (node_tag pn.2 ∈ ts).

Lemma select_tags ts d : select (tags_sel ts) d = filter (λ pn, tagged ts pn) (walk d).
Proof.
  unfold select. apply list_filter_iff. intros pn. by rewrite matches_tags.
Qed.

Lemma query_tags_skel ts d :
  querySelectorAll (tags_sel ts) (skel <$> d) = querySelectorAll (tags_sel ts) d.
Proof.
  unfold querySelectorAll. rewrite !select_tags, walk_skel.
  rewrite <- (filter_fmap_ext skel_entry (tagged ts) (tagged ts)).
  - rewrite <- list_fmap_compose. by apply list_fmap_ext.
  - apply Forall_forall. intros [q n] _. unfold tagged. simpl.
    by rewrite is_elem_skel, node_tag_skel.
Qed.

Lemma same_shape_query ts d d' :
  same_shape d d' →
  querySelectorAll (tags_sel ts) d = querySelectorAll (tags_sel ts) d'.
Proof. intros H. by rewrite <- query_tags_skel, H, query_tags_skel. Qed.

Lemma same_shape_first t d d' :
  same_shape d d' → querySelector (tag_sel t) d = querySelector (tag_sel t) d'.
Proof.
  intros H. unfold querySelector.
  change (tag_sel t) with (tags_sel [t]). by rewrite (same_shape_query [t] d d').
Qed.

Lemma query_tag_at t d p : p ∈ querySelectorAll (tag_sel t) d → tag_at p d = t.
Proof.
  intros (n & Hn & He & Hm)%querySelectorAll_get. rewrite matches_tag in Hm.
  apply andb_true_iff in Hm as [_ Ht]. apply String.eqb_eq in Ht.
  unfold tag_at. by rewrite Hn.
Qed.

(** *** The other elements keep their attributes *)

Lemma attrs_alter_at_ne g p : attr_only g → ∀ q d,
  p ≠ q →
  node_attrs <$> get_node q (alter_at g p d) = node_attrs <$> get_node q d.
Proof.
  intros Hg. induction p as [|i p IH]; intros q d Hne; [done|].
  destruct q as [|j q]; [done|].
  destruct (decide (i = j)) as [<-|Hij].
  2: { cbn [alter_at get_node]. by rewrite list_lookup_alter_ne. }
  assert (p ≠ q) as Hpq by congruence.
  cbn [alter_at get_node]. rewrite list_lookup_alter_eq.
  destruct (d !! i) as [n|]; [|done]. csimpl.
  destruct p as [|i' p'].
  - destruct q as [|j' q']; [done|]. pose proof (Hg n) as Hn.
    destruct n; [by rewrite Hn | by destruct Hn as [a' ->]].
  - destruct q as [|j' q']; [by destruct n|].
    destruct n as [s|t a ks]; [done|]. cbn [on_kids node_kids]. by apply IH.
Qed.

Lemma attr_at_alter_at_ne g p q a d :
  attr_only g → p ≠ q → attr_at a q (alter_at g p d) = attr_at a q d.
Proof.
  intros Hg Hne. unfold attr_at, getAttribute.
  pose proof (attrs_alter_at_ne g p Hg q d Hne) as E.
  destruct (get_node q (alter_at g p d)), (get_node q d); simplify_eq/=; congruence.
Qed.

(** *** A loop of attribute updates *)

Context {X : Type} (G : X → node → node) (π : X → path).
Hypothesis G_attr_only : ∀ x, attr_only (G x).

Definition updates (l : list X) (d : document) : document :=
  fold_left (λ d x, alter_at (G x) (π x) d) l d.

Lemma updates_shape l : ∀ d, same_shape (updates l d) d.
Proof.
  induction l as [|x l IH]; intros d; [done|]. cbn [updates fold_left].
  eapply same_shape_trans; [apply IH|]. by apply skel_alter_at.
Qed.

Lemma updates_attrs_ne l q : ∀ d,
  q ∉ π <$> l →
  node_attrs <$> get_node q (updates l d) = node_attrs <$> get_node q d.
Proof.
  induction l as [|x l IH]; intros d Hq; [done|].
  rewrite fmap_cons in Hq. apply not_elem_of_cons in Hq as [Hne Hq].
  cbn [updates fold_left]. etrans; [by apply IH|].
  by apply attrs_alter_at_ne.
Qed.

Lemma updates_attr_at_ne l q a d :
  q ∉ π <$> l → attr_at a q (updates l d) = attr_at a q d.
Proof.
  intros Hq. unfold attr_at, getAttribute.
  pose proof (updates_attrs_ne l q d Hq) as E.
  destruct (get_node q (updates l d)), (get_node q d); simplify_eq/=; congruence.
Qed.

(** An element the loop visits once has, at the end, the attributes its
    own step gave it. *)
Lemma updates_attrs_at l x d :
  reads_node_only (G x) → NoDup (π <$> l) → x ∈ l →
  node_attrs <$> get_node (π x) (updates l d) =
  (λ n, node_attrs (G x n)) <$> get_node (π x) d.
Proof.
  intros Hr Hnd (l1 & l2 & ->)%list_elem_of_split.
  rewrite fmap_app, fmap_cons in Hnd.
  apply NoDup_app in Hnd as (_ & H1 & Hnd). apply NoDup_cons in Hnd as [H2 _].
  assert (π x ∉ π <$> l1) as H1'.
  { intros Hin. apply (H1 _ Hin). left. }
  unfold updates. rewrite fold_left_app. cbn [fold_left].
  fold (updates l1 d). set (d1 := updates l1 d).
  fold (updates l2 (alter_at (G x) (π x) d1)).
  rewrite updates_attrs_ne by done. rewrite get_node_alter_at_eq.
  pose proof (same_shape_get _ _ (π x) (updates_shape l1 d)) as Es.
  pose proof (updates_attrs_ne l1 (π x) d H1') as Ea. fold d1 in Es, Ea.
  destruct (get_node (π x) d1) as [n1|], (get_node (π x) d) as [n|];
    simplify_eq/=; [|done].
  f_equal. by apply Hr.
Qed.

End attribute_updates.

(** ** The paths a query returns are distinct *)

Section distinct_paths.

Lemma NoDup_walk_from ks :
  Forall (λ k, NoDup (walk_node k).*1) ks → ∀ i, NoDup (walk_from i ks).*1.
Proof.
  induction 1 as [|k ks Hk _ IH]; intros i; [constructor|].
  rewrite walk_from_cons, fmap_app. apply NoDup_app. split; [|split].
  - replace ((under [i] <$> walk_node k).*1) with (cons i <$> (walk_node k).*1).
    + by apply (NoDup_fmap_2 (cons i)).
    + rewrite <- !list_fmap_compose. by apply list_fmap_ext.
  - intros q ([q0 m0] & -> & Hin0)%list_elem_of_fmap ([q1 m1] & E & Hin)%list_elem_of_fmap.
    apply list_elem_of_fmap in Hin0 as ([q2 m2] & E0 & _).
    destruct (walk_from_get ks) with (i := S i) (q := q1) (m := m1)
      as [_ (j & q' & -> & _)]; [|done|].
    + apply Forall_forall. intros ? _. apply walk_node_get.
    + unfold under in E0. simpl in E, E0. simplify_eq. lia.
  - apply IH.
Qed.

Lemma NoDup_walk_node n : NoDup (walk_node n).*1.
Proof.
  induction n as [s|t a ks IH] using node_ind'; [constructor|].
  cbn [walk_node]. rewrite fmap_cons. apply NoDup_cons. split.
  - intros ([q1 m1] & E & Hin)%list_elem_of_fmap.
    destruct (walk_from_get ks) with (i := 0%nat) (q := q1) (m := m1)
      as [_ (j & q' & -> & _)]; [|done|done].
    apply Forall_forall. intros ? _. apply walk_node_get.
  - apply (NoDup_walk_from ks IH 0%nat).
Qed.

Lemma NoDup_walk d : NoDup (walk d).*1.
Proof. apply NoDup_walk_from, Forall_forall. intros k _. apply NoDup_walk_node. Qed.

Lemma NoDup_querySelectorAll sel d : NoDup (querySelectorAll sel d).
Proof.
  unfold querySelectorAll, select.
  apply (sublist_NoDup _ (walk d).*1); [apply NoDup_walk|].
  apply fmap_sublist, sublist_filter.
Qed.

End distinct_paths.

(** ** The landmark pass: [header] and [footer] *)

Section landmark_roles.
Import Enhancer.

Lemma querySelector_elem sel d p :
  querySelector sel d = Some p → p ∈ querySelectorAll sel d.
Proof.
  unfold querySelector. destruct (querySelectorAll sel d); intros; simplify_eq/=.
  apply list_elem_of_here.
Qed.

Lemma mark_first_shape t r d : same_shape (mark_first t r d) d.
Proof.
  unfold mark_first. destruct (querySelector (tag_sel t) d); [|done].
  apply skel_alter_at, attr_only_setAttribute.
Qed.

Lemma mark_first_role t r d h :
  querySelector (tag_sel t) d = Some h → attr_at "role" h (mark_first t r d) = Some r.
Proof.
  intros H. unfold mark_first. rewrite H.
  destruct (querySelector_tag _ _ _ H) as (a & ks & Hn).
  unfold attr_at, set_at. rewrite get_node_alter_at_eq, Hn. simpl.
  apply lookup_set_attr_eq.
Qed.

Lemma mark_first_other t r d q a :
  tag_at q d ≠ t → attr_at a q (mark_first t r d) = attr_at a q d.
Proof.
  intros Hne. unfold mark_first.
  destruct (querySelector (tag_sel t) d) as [h|] eqn:H; [|done].
  apply attr_at_alter_at_ne; [apply attr_only_setAttribute|].
  intros ->. apply Hne. by apply query_tag_at, querySelector_elem.
Qed.

(** A loop of attribute updates over elements of one tag leaves the
    elements of another tag as they were. *)
Lemma updates_other_tag {X} (G : X → node → node) (π : X → path) l d t q a :
  (∀ x, attr_only (G x)) →
  (∀ x, x ∈ l → tag_at (π x) d = t) → tag_at q d ≠ t →
  attr_at a q (updates G π l d) = attr_at a q d.
Proof.
  intros Hg Ht Hne. apply updates_attr_at_ne; [done|].
  intros (x & -> & Hx)%list_elem_of_fmap. apply Hne. by apply Ht.
Qed.

Lemma landmarks_after_main d2 d3 d4 d5 d6 :
  d3 = mark_first "header" "banner" d2 →
  d4 = for_each (λ d nav, alter_at label_nav nav d)
         (querySelectorAll (tag_sel "nav") d3) d3 →
  d5 = mark_first "footer" "contentinfo" d4 →
  d6 = fold_left (λ d ip, alter_at (mark_aside ip.1) ip.2 d)
         (zip (seq 0 (length (querySelectorAll (tag_sel "aside") d5)))
            (querySelectorAll (tag_sel "aside") d5)) d5 →
  (∀ h, querySelector (tag_sel "header") d6 = Some h →
        attr_at "role" h d6 = Some "banner") ∧
  (∀ f, querySelector (tag_sel "footer") d6 = Some f →
        attr_at "role" f d6 = Some "contentinfo").
Proof.
  intros E3 E4 E5 E6.
  assert (same_shape d3 d2) as S32 by (subst d3; apply mark_first_shape).
  assert (same_shape d4 d3) as S43.
  { subst d4. apply (updates_shape (λ _ : path, label_nav) id).
    intros _. apply attr_only_label_nav. }
  assert (same_shape d5 d4) as S54 by (subst d5; apply mark_first_shape).
  assert (same_shape d6 d5) as S65.
  { subst d6. apply (updates_shape (λ ip : nat * path, mark_aside ip.1) snd).
    intros ip. apply attr_only_mark_aside. }
  assert (∀ q a, tag_at q d5 ≠ "aside" → attr_at a q d6 = attr_at a q d5) as A65.
  { intros q a Hq. rewrite E6.
    apply (updates_other_tag (λ ip : nat * path, mark_aside ip.1) snd _ d5 "aside");
      [intros ip; apply attr_only_mark_aside| |done].
    intros [i p] Hin. apply query_tag_at. simpl. by apply elem_of_zip_r in Hin. }
  assert (∀ q a, tag_at q d3 ≠ "nav" → attr_at a q d4 = attr_at a q d3) as A43.
  { intros q a Hq. rewrite E4.
    apply (updates_other_tag (λ _ : path, label_nav) id _ d3 "nav");
      [intros _; apply attr_only_label_nav| |done].
    intros p Hin. by apply query_tag_at. }
  split.
  - intros h Hh.
    rewrite (same_shape_first _ d6 d5), (same_shape_first _ d5 d4),
      (same_shape_first _ d4 d3), (same_shape_first _ d3 d2) in Hh by done.
    assert (tag_at h d2 = "header") as T2
      by (by apply query_tag_at, querySelector_elem).
    assert (tag_at h d3 = "header") as T3 by (by rewrite (same_shape_tag d3 d2)).
    assert (tag_at h d4 = "header") as T4 by (by rewrite (same_shape_tag d4 d3)).
    assert (tag_at h d5 = "header") as T5 by (by rewrite (same_shape_tag d5 d4)).
    rewrite A65 by (by rewrite T5). rewrite E5.
    rewrite mark_first_other by (by rewrite T4).
    rewrite A43 by (by rewrite T3). rewrite E3.
    by apply mark_first_role.
  - intros f Hf.
    rewrite (same_shape_first _ d6 d5), (same_shape_first _ d5 d4) in Hf by done.
    assert (tag_at f d4 = "footer") as T4
      by (by apply query_tag_at, querySelector_elem).
    assert (tag_at f d5 = "footer") as T5 by (by rewrite (same_shape_tag d5 d4)).
    rewrite A65 by (by rewrite T5). rewrite E5.
    by apply mark_first_role.
Qed.


End landmark_roles.

(** ** The heading pass: ids from the text *)

Section heading_ids.
Import Checker Enhancer.

Definition headings (d : document) : list path :=
  querySelectorAll (tags_sel heading_tags) d.

Definition duplicate_id_message (id : string) : string :=
  "Duplicate ID: " +:+ dq +:+ id +:+ dq +:+
  " - can cause issues with aria references".

Lemma heading_step_id n :
  is_elem n = true → id_of n = "" →
  getAttribute "id" (heading_step n) = Some (slugify (trim (textContent n))).
Proof.
  destruct n as [s|t a ks]; [done|]. intros _ Hid.
  unfold heading_step. rewrite Hid. cbn [truthy].
  destruct (_ && _); rewrite ?getAttribute_setAttribute_ne by done;
    apply lookup_set_attr_eq.
Qed.

Lemma reads_node_only_heading_step : reads_node_only heading_step.
Proof.
  intros n n' Hs Ha.
  assert (textContent n = textContent n') as Ht
    by (by rewrite <- (textContent_skel n), Hs, textContent_skel).
  destruct n as [s|t a ks], n' as [s'|t' a' ks']; cbn [skel node_attrs] in Hs, Ha;
    try discriminate Hs.
  { by injection Hs as ->. }
  injection Hs as Hs _. revert Ht. rewrite Hs, Ha. intros Ht.
  unfold heading_step. rewrite <- Ht.
  change (id_of (Elem t' a' ks')) with (id_of (Elem t' a' ks)).
  destruct (truthy _); cbn [setAttribute]; unfold getAttribute, hasAttribute,
    getAttribute, tagName; cbn [node_attrs node_tag];
    destruct (_ && _); reflexivity.
Qed.

Lemma enhanceHeadings_shape d : same_shape (enhanceHeadings d) d.
Proof.
  apply (updates_shape (λ _ : path, heading_step) id).
  intros _. apply attr_only_heading_step.
Qed.

Lemma enhanceHeadings_attrs d p :
  p ∈ headings d →
  node_attrs <$> get_node p (enhanceHeadings d) =
  (λ n, node_attrs (heading_step n)) <$> get_node p d.
Proof.
  intros Hp.
  apply (updates_attrs_at (λ _ : path, heading_step) id
           (λ _, attr_only_heading_step) (headings d) p d).
  - apply reads_node_only_heading_step.
  - rewrite list_fmap_id. apply NoDup_querySelectorAll.
  - done.
Qed.

Lemma enhanceHeadings_id d p :
  p ∈ headings d → id_at p d = "" →
  attr_at "id" p (enhanceHeadings d) = Some (slugify (trim (text_at p d))).
Proof.
  intros Hp Hid. pose proof (enhanceHeadings_attrs d p Hp) as E.
  destruct (querySelectorAll_get _ _ _ Hp) as (n & Hn & He & _).
  unfold id_at, attr_at in Hid. unfold attr_at, text_at.
  rewrite Hn in E, Hid |- *. simpl in E, Hid |- *.
  destruct (get_node p (enhanceHeadings d)) as [n'|]; simplify_eq/=.
  unfold getAttribute. rewrite E. by apply heading_step_id.
Qed.

(** *** What the Auditor says of two equal ids *)

Definition flagged (allIds : gmap string bool) (id : string) : Prop :=
  get_property allIds id = Own true ∨ get_property allIds id = Inherited.

Lemma flagged_insert allIds k id :
  flagged allIds id → flagged (<[k := true]> allIds) id.
Proof.
  unfold flagged, get_property. intros H.
  destruct (decide (k = id)) as [->|Hne].
  - left. by rewrite lookup_insert_eq.
  - by rewrite lookup_insert_ne.
Qed.

Lemma flagged_reported els : ∀ allIds b,
  flagged allIds (id_of b) → b ∈ els →
  ∃ iss, iss ∈ duplicate_id_loop allIds els ∧
         message iss = duplicate_id_message (id_of b).
Proof.
  induction els as [|el rest IH]; intros allIds b Hf Hin;
    [by apply elem_of_nil in Hin|].
  cbn [duplicate_id_loop].
  apply elem_of_cons in Hin as [->|Hin].
  - destruct Hf as [-> | ->]; eexists; (split; [apply list_elem_of_here|done]).
  - destruct (get_property allIds (id_of el)) as [[|]| |].
    + destruct (IH allIds b Hf Hin) as (iss & Hi & Hm).
      exists iss. split; [by apply list_elem_of_further|done].
    + by apply IH; [apply flagged_insert|].
    + destruct (IH allIds b Hf Hin) as (iss & Hi & Hm).
      exists iss. split; [by apply list_elem_of_further|done].
    + by apply IH; [apply flagged_insert|].
Qed.

Lemma duplicate_reported els : ∀ allIds (i j : nat) a b,
  (i < j)%nat → els !! i = Some a → els !! j = Some b → id_of a = id_of b →
  ∃ iss, iss ∈ duplicate_id_loop allIds els ∧
         message iss = duplicate_id_message (id_of b).
Proof.
  induction els as [|el rest IH]; intros allIds i j a b Hij Ha Hb Hid; [done|].
  destruct j as [|j]; [lia|]. cbn [duplicate_id_loop].
  destruct i as [|i]; simplify_eq/=.
  - apply list_elem_of_lookup_2 in Hb.
    destruct (get_property allIds (id_of a)) as [[|]| |] eqn:E.
    + eexists. split; [apply list_elem_of_here|]. simpl. by rewrite Hid.
    + apply flagged_reported; [|done]. left. unfold get_property.
      by rewrite <- Hid, lookup_insert_eq.
    + eexists. split; [apply list_elem_of_here|]. simpl. by rewrite Hid.
    + apply flagged_reported; [|done]. left. unfold get_property.
      by rewrite <- Hid, lookup_insert_eq.
  - assert (i < j)%nat as Hij' by lia.
    destruct (get_property allIds (id_of el)) as [[|]| |].
    + destruct (IH allIds i j a b Hij' Ha Hb Hid) as (iss & Hi & Hm).
      exists iss. split; [by apply list_elem_of_further|done].
    + by eapply IH.
    + destruct (IH allIds i j a b Hij' Ha Hb Hid) as (iss & Hi & Hm).
      exists iss. split; [by apply list_elem_of_further|done].
    + by eapply IH.
Qed.

Lemma matches_has_id d pn :
  matches d [[[SHas "id"]]] pn = is_elem pn.2 && hasAttribute "id" pn.2.
Proof.
  unfold matches, matches_complex, matches_compound; simpl.
  by rewrite matches_above_nil, !andb_true_r, orb_false_r.
Qed.

(** Two elements with an [id] attribute of the same value make the
    Auditor report the value. *)
Lemma equal_ids_reported d p q v :
  p ≠ q → (∃ n, (p, n) ∈ walk d) → (∃ n, (q, n) ∈ walk d) →
  attr_at "id" p d = Some v → attr_at "id" q d = Some v →
  ∃ iss, iss ∈ checkScreenReaderAnnouncements d ∧
         message iss = duplicate_id_message v.
Proof.
  intros Hne [n Hn] [m Hm] Hp Hq.
  destruct (walk_get _ _ _ Hn) as [Gn En], (walk_get _ _ _ Hm) as [Gm Em].
  unfold attr_at in Hp, Hq. rewrite Gn in Hp. rewrite Gm in Hq. simpl in Hp, Hq.
  assert (∀ x k, (x, k) ∈ walk d → getAttribute "id" k = Some v →
            (x, k) ∈ select [[[SHas "id"]]] d) as Hsel.
  { intros x k Hw Hk. apply elem_of_select. split; [|done].
    rewrite matches_has_id. simpl. destruct (walk_get _ _ _ Hw) as [_ ->]. simpl.
    apply bool_decide_eq_true_2. rewrite Hk. by eexists. }
  apply Hsel in Hn; [|done]. apply Hsel in Hm; [|done].
  apply list_elem_of_lookup in Hn as [i Hi]. apply list_elem_of_lookup in Hm as [j Hj].
  assert (i ≠ j) as Hij by (intros ->; congruence).
  assert (id_of n = v) as Vn by (unfold id_of; by rewrite Hp).
  assert (id_of m = v) as Vm by (unfold id_of; by rewrite Hq).
  assert (∃ iss, iss ∈ duplicate_id_loop ∅ (snd <$> select [[[SHas "id"]]] d) ∧
                 message iss = duplicate_id_message v) as (iss & Hiss & Hmsg).
  { destruct (decide (i < j)%nat) as [Hlt|Hge].
    - rewrite <- Vm. apply (duplicate_reported _ ∅ i j n m); [done| | |congruence];
        by rewrite list_lookup_fmap, ?Hi, ?Hj.
    - rewrite <- Vn. apply (duplicate_reported _ ∅ j i m n); [lia| | |congruence];
        by rewrite list_lookup_fmap, ?Hi, ?Hj. }
  exists iss. split; [|done]. unfold checkScreenReaderAnnouncements.
  apply elem_of_app. right. apply elem_of_app. right. apply elem_of_app. by left.
Qed.

Lemma query_in_walk sel d p : p ∈ querySelectorAll sel d → ∃ n, (p, n) ∈ walk d.
Proof.
  intros ([x n] & -> & Hin)%list_elem_of_fmap. exists n.
  by apply elem_of_select in Hin as [_ ?].
Qed.

(** C9. Two headings without an id and with the same trimmed text leave
    the heading pass with the same id, the slug of that text; when they
    are two elements, the Auditor's screen-reader check on the result
    has an issue that names the id as a duplicate. *)
Theorem heading_ids_from_text (d : document) (p q : path) :
  p ∈ headings d → q ∈ headings d →
  id_at p d = "" → id_at q d = "" →
  trim (text_at p d) = trim (text_at q d) →
  attr_at "id" p (enhanceHeadings d) = Some (slugify (trim (text_at p d))) ∧
  attr_at "id" q (enhanceHeadings d) = attr_at "id" p (enhanceHeadings d) ∧
  (p ≠ q →
   ∃ iss, iss ∈ checkScreenReaderAnnouncements (enhanceHeadings d) ∧
          message iss = duplicate_id_message (slugify (trim (text_at p d)))).
Proof.
  intros Hp Hq Ip Iq Ht.
  pose proof (enhanceHeadings_id d p Hp Ip) as Ep.
  pose proof (enhanceHeadings_id d q Hq Iq) as Eq. rewrite <- Ht in Eq.
  split; [done|]. split; [congruence|]. intros Hne.
  apply (equal_ids_reported _ p q); try done.
  - apply (query_in_walk (tags_sel heading_tags)). unfold headings in Hp.
    by rewrite (same_shape_query _ _ d (enhanceHeadings_shape d)).
  - apply (query_in_walk (tags_sel heading_tags)). unfold headings in Hq.
    by rewrite (same_shape_query _ _ d (enhanceHeadings_shape d)).
Qed.

End heading_ids.

(** ** Runs of the Enhancer on sample pages *)

Section enhancer_examples.
Import Enhancer.

(** Identifiers standing for the values of [Math.random]. *)
Fixpoint sample_random_id (n : nat) : string :=
  match n with
  | O => "k"
  | S m => "x" +:+ sample_random_id m
  end.

Lemma sample_random_plain k : plain (sample_random_id k) = true.
Proof. induction k; [done|]. simpl. exact IHk. Qed.

Lemma take_while_plain v rest :
  plain v = true →
  Checker.take_while plain_char (v +:+ dq +:+ rest) = (v, dq +:+ rest).
Proof.
  induction v as [|c v IH]; [done|]. intros [Hc Hv]%andb_true_iff.
  change (String c v +:+ dq +:+ rest) with (String c (v +:+ dq +:+ rest)).
  cbn [Checker.take_while]. by rewrite Hc, IH.
Qed.

Lemma label_for_text_prefix v :
  startsWith (label_for_text v) ("label[for=" +:+ dq) = true ∧
  substring_from 11 (label_for_text v) = v +:+ dq +:+ "]".
Proof. by destruct v. Qed.

Lemma parse_label_for_plain v :
  plain v = true →
  ∃ sel, parse_label_for (label_for_text v) = Ret sel.
Proof.
  intros Hv. exists [[[STag "label"; SAttr "for" v]]].
  destruct (label_for_text_prefix v) as [H1 H2].
  unfold parse_label_for. rewrite H1, H2, (take_while_plain v "]" Hv).
  by rewrite String.eqb_refl.
Qed.

Abbreviation run := (enhanceWithAria sample_random_id parse_label_for).

Definition no_frontmatter : frontmatter := Frontmatter None None.

(** A page of one paragraph. *)
Definition one_paragraph : document := [Elem "body" [] [Elem "p" [] [Text "x"]]].

Definition one_paragraph_once : document :=
  [Elem "body" []
     [Elem "a" [("href", "#main-content"); ("class", "skip-link")]
        [Text "Skip to main content"];
      Elem "main" [("role", "main"); ("id", "main-content")]
        [Elem "p" [] [Text "x"]]]].

Definition one_paragraph_twice : document :=
  [Elem "body" []
     [Elem "a" [("href", "#main-content"); ("class", "skip-link");
                ("aria-label", "Jump to Skip to main content")]
        [Text "Skip to main content"];
      Elem "main" [("role", "main"); ("id", "main-content"); ("tabindex", "-1")]
        [Elem "p" [] [Text "x"]]]].



(** A page whose main landmark has an id of its own. *)
Definition page_with_main_id : document :=
  [Elem "body" [] [Elem "main" [("id", "article")] [Text "x"]]].

Definition page_with_main_id_enhanced : document :=
  [Elem "body" []
     [Elem "a" [("href", "#main-content"); ("class", "skip-link")]
        [Text "Skip to main content"];
      Elem "main" [("id", "article"); ("role", "main")] [Text "x"]]].



(** A fragment with a field whose id holds a double quote. *)
Definition quoted_id : string := "a" +:+ dq +:+ "b".

Definition fragment_with_quoted_id : document := [Elem "input" [("id", quoted_id)] []].

(** C8, the claim fails on this fragment: the forms pass asks the selector
    engine for the text it builds around the id, which is not a selector,
    and the exception leaves [enhanceWithAria]. *)
Theorem enhancer_raises :
  ∃ msg, run fragment_with_quoted_id no_frontmatter = Throw msg.
Proof. eexists. by vm_compute. Qed.

(** A fragment without [html], [head] and [body]. *)
Definition bare_fragment : document :=
  [Elem "h1" [] [Text "Title"]; Elem "input" [("id", "q")] []].

Lemma enhancer_returns_witness :
  ∃ d', run bare_fragment (Frontmatter None (Some "T")) = Ret d'.
Proof.
  apply (enhancer_returns sample_random_id parse_label_for sample_random_plain
           parse_label_for_plain bare_fragment (Frontmatter None (Some "T"))).
  by vm_compute.
Defined.

(** A page with two headers and two footers. *)
Definition two_headers : document :=
  [Elem "body" []
     [Elem "header" [] [Text "a"]; Elem "main" [] [Text "m"];
      Elem "header" [] [Text "b"]; Elem "footer" [] [Text "c"];
      Elem "footer" [] [Text "d"]]].



(** Two headings with the same text, up to the white space around it. *)
Definition twin_headings : document :=
  [Elem "h2" [] [Text "Set up"]; Elem "p" [] [Text "x"];
   Elem "h2" [] [Text " Set up "]].

Lemma heading_ids_from_text_witness :
  attr_at "id" [0%nat] (enhanceHeadings twin_headings) = Some "set-up" ∧
  attr_at "id" [2%nat] (enhanceHeadings twin_headings) =
    attr_at "id" [0%nat] (enhanceHeadings twin_headings) ∧
  ∃ iss, iss ∈ Checker.checkScreenReaderAnnouncements (enhanceHeadings twin_headings) ∧
         Checker.message iss = duplicate_id_message "set-up".
Proof.
  destruct (heading_ids_from_text twin_headings [0%nat] [2%nat])
    as (H1 & H2 & H3).
  - apply (bool_decide_unpack _). by vm_compute.
  - apply (bool_decide_unpack _). by vm_compute.
  - by vm_compute.
  - by vm_compute.
  - by vm_compute.
  - split; [exact H1|]. split; [exact H2|]. apply H3. discriminate.
Defined.

(** The whole Enhancer on the two headings, and the Auditor's
    screen-reader check on what it returns. *)
Lemma twin_headings_enhanced_and_audited :
  ∃ d' iss,
    run twin_headings no_frontmatter = Ret d' ∧
    attr_at "id" [0%nat] d' = Some "set-up" ∧
    attr_at "id" [2%nat] d' = Some "set-up" ∧
    Checker.checkScreenReaderAnnouncements d' = [iss] ∧
    Checker.message iss = duplicate_id_message "set-up".
Proof. do 2 eexists. repeat split; by vm_compute. Qed.

End enhancer_examples.

(** * Further properties of the Auditor *)

(** ** The heading check: when it is silent *)

Section heading_silence.
Import Checker.

(** The levels of the headings of a document, in document order. *)
Definition heading_levels (d : document) : list Z :=
  (λ h, default 0 (level_of h)) <$> headings_of d.

(** No level is more than one above the level before it. *)
Fixpoint levels_ok (prev : Z) (ls : list Z) : bool :=
  match ls with
  | [] => true
  | l :: r => (l <=? prev + 1) && levels_ok l r
  end.

Lemma heading_loop_silent hs :
  Forall (λ h, node_tag h ∈ heading_tags) hs →
  ∀ prev, 1 ≤ prev →
  heading_loop (Some prev) hs = [] ↔
  levels_ok prev ((λ h, default 0 (level_of h)) <$> hs) = true.
Proof.
  induction 1 as [|h hs Hh _ IH]; intros prev Hp; [done|].
  destruct (level_of_tag h Hh) as (k & Ek & Hk & _).
  cbn [heading_loop heading_turn]. rewrite fmap_cons. cbn [levels_ok].
  rewrite Ek. cbn [num_eq num_add num_gt default from_option id].
  replace (prev =? 0) with false by (symmetry; apply Z.eqb_neq; lia).
  cbn [andb app].
  destruct (Z.ltb_spec (prev + 1) k).
  - replace (k <=? prev + 1) with false by (symmetry; apply Z.leb_gt; lia).
    cbn [andb]. split; [intros [=] | done].
  - replace (k <=? prev + 1) with true by (symmetry; apply Z.leb_le; lia).
    cbn [app andb]. apply IH. lia.
Qed.

(** X1. The heading check reports nothing exactly when the document has a
    heading, its first heading is an [h1], and no heading is more than
    one level below the heading before it. *)
Theorem heading_check_silent (d : document) :
  checkHeadingHierarchy d = [] ↔
  ∃ rest, heading_levels d = 1 :: rest ∧ levels_ok 1 rest = true.
Proof.
  unfold heading_levels. pose proof (headings_of_tag d) as Htags.
  destruct (headings_of d) as [|h hs] eqn:E.
  - split.
    + intros H. unfold checkHeadingHierarchy in H. fold (headings_of d) in H.
      by rewrite E in H.
    + by intros (rest & [=] & _).
  - assert (node_tag h ∈ heading_tags) as Hh by (apply Htags; left).
    assert (Forall (λ h, node_tag h ∈ heading_tags) hs) as Hhs.
    { apply Forall_forall. intros x Hx. apply Htags. by right. }
    destruct (level_of_tag h Hh) as (k & Ek & Hk & Et & _).
    rewrite fmap_cons, Ek. cbn [default from_option id].
    destruct (decide (k = 1)) as [->|Hk1].
    + rewrite (checkHeadingHierarchy_with_h1 d h hs E Et).
      rewrite (heading_loop_silent hs Hhs 1) by lia. split.
      * intros H. by eexists.
      * by intros (rest & [= <-] & H).
    + split.
      * intros H. exfalso. unfold checkHeadingHierarchy in H.
        fold (headings_of d) in H. rewrite E in H. cbn [length Nat.eqb] in H.
        apply app_eq_nil in H as [_ H].
        cbn [heading_loop heading_turn] in H. rewrite Ek in H.
        cbn [num_eq] in H.
        replace (k =? 1) with false in H by (symmetry; apply Z.eqb_neq; lia).
        by simpl in H.
      * intros (rest & [=] & _). lia.
Qed.

End heading_silence.

(** ** The ARIA check *)

Section aria_check.
Import Checker.

Definition elementsWithRole (d : document) : list node :=
  snd <$> select [[[SHas "role"]]] d.

Lemma collect_Throw {A B} (f : A → outcome (list B)) l :
  (∃ msg, collect f l = Throw msg) ↔ ∃ x, x ∈ l ∧ ∃ msg, f x = Throw msg.
Proof.
  induction l as [|x l IH]; cbn [collect].
  - split; [by intros [? ?] | by intros (? & ?%elem_of_nil & _)].
  - destruct (f x) as [ys|e] eqn:E; cbn [obind].
    + destruct (collect f l) as [zs|e'] eqn:E'; cbn [obind].
      * split; [by intros [? ?]|]. intros (y & [->|Hy]%elem_of_cons & msg & Hm).
        -- congruence.
        -- destruct (proj2 IH) as [? ?]; [by eauto|done].
      * split; [|by eauto]. intros _.
        destruct (proj1 IH) as (y & Hy & Hm); [by eauto|].
        exists y. split; [by right|done].
    + split; [|by eauto]. intros _. exists x. split; [by left|by eauto].
Qed.

Lemma role_table_keys role attrs :
  rolesThatRequireAttributes !! role = Some attrs →
  role ∈ validRoles ∧ role ∉ object_prototype_keys.
Proof.
  intros H. apply elem_of_list_to_map_2 in H.
  repeat (apply elem_of_cons in H as [[= -> ->]|H]);
    [..|by apply elem_of_nil in H];
    (split; [by apply (bool_decide_unpack _) | by apply (bool_decide_unpack _)]).
Qed.

Lemma valid_role_not_inherited role :
  role ∈ validRoles → role ∉ object_prototype_keys.
Proof.
  intros H.
  repeat (apply elem_of_cons in H as [->|H]); [..|by apply elem_of_nil in H];
    by apply (bool_decide_unpack _).
Qed.

Lemma required_attribute_issues_Throw el :
  (∃ msg, required_attribute_issues el = Throw msg) ↔
  role_of el ∈ object_prototype_keys.
Proof.
  unfold required_attribute_issues, get_property.
  destruct (rolesThatRequireAttributes !! role_of el) as [attrs|] eqn:E.
  - apply role_table_keys in E as [_ E]. split; [by intros [? ?]|done].
  - destruct (bool_decide (role_of el ∈ object_prototype_keys)) eqn:B.
    + apply bool_decide_eq_true in B. split; [done|by eauto].
    + apply bool_decide_eq_false in B. split; [by intros [? ?]|done].
Qed.

(** X2. The ARIA check throws exactly when some element has a [role] that
    names a member of [Object.prototype]: the table of required
    attributes is an object literal, the value read for such a role is
    inherited, truthy and not iterable. *)
Theorem aria_check_throws (d : document) :
  (∃ msg, checkARIAUsage d = Throw msg) ↔
  ∃ el, el ∈ elementsWithRole d ∧ role_of el ∈ object_prototype_keys.
Proof.
  unfold checkARIAUsage. fold (elementsWithRole d).
  rewrite <- (exist_proper _ _ (λ el, and_iff_compat_l _
                 (required_attribute_issues_Throw el))).
  rewrite <- collect_Throw.
  destruct (collect required_attribute_issues (elementsWithRole d)); cbn [obind].
  - split; by intros [? ?].
  - done.
Qed.

Definition has_required_attributes (el : node) : Prop :=
  ∀ attrs, rolesThatRequireAttributes !! role_of el = Some attrs →
           Forall (λ a, hasAttribute a el = true) attrs.

Lemma filter_negb_nil {A} (P : A → bool) l :
  filter (λ x, negb (P x)) l = [] ↔ Forall (λ x, P x = true) l.
Proof.
  induction l as [|x l IH]; [done|]. destruct (P x) eqn:E.
  - rewrite filter_cons_False by (cbn; rewrite E; intros []). rewrite IH. split.
    + by constructor.
    + by inversion 1.
  - rewrite filter_cons_True by (cbn; rewrite E; exact I). split; [done|].
    inversion 1; congruence.
Qed.

Lemma required_attribute_issues_silent el :
  role_of el ∈ validRoles →
  required_attribute_issues el = Ret [] ↔ has_required_attributes el.
Proof.
  intros Hv%valid_role_not_inherited.
  unfold required_attribute_issues, has_required_attributes, get_property.
  destruct (rolesThatRequireAttributes !! role_of el) as [attrs|] eqn:E.
  - split.
    + intros [= H%fmap_nil_inv] ? [= <-].
      by apply (filter_negb_nil (λ a, hasAttribute a el)) in H.
    + intros H. specialize (H attrs eq_refl).
      apply (filter_negb_nil (λ a, hasAttribute a el)) in H. by rewrite H.
  - rewrite bool_decide_eq_false_2 by done. done.
Qed.

Lemma collect_silent {A B} (f : A → outcome (list B)) (g : A → list B) (l : list A) :
  obind (collect f l) (λ missing, Ret (concat (g <$> l) ++ missing)) = Ret [] ↔
  Forall (λ x, g x = [] ∧ f x = Ret []) l.
Proof.
  induction l as [|x l IH]; [done|].
  cbn [collect]. rewrite fmap_cons. cbn [concat].
  destruct (f x) as [ys|e] eqn:Ef; cbn [obind].
  - destruct (collect f l) as [zs|e']; cbn [obind] in *.
    + split.
      * intros [= H]. apply app_eq_nil in H as [[Hg Hc]%app_eq_nil [-> ->]%app_eq_nil].
        constructor; [done|]. apply IH. by rewrite Hc.
      * intros H. apply Forall_cons in H as [[Hg Hf] Hl]. rewrite Ef in Hf.
        injection Hf as ->. apply IH in Hl. injection Hl as Hl.
        apply app_eq_nil in Hl as [Hc ->]. by rewrite Hg, Hc.
    + split; [done|]. intros H. apply Forall_cons in H as [_ Hl]. by apply IH in Hl.
  - split; [done|]. intros H. apply Forall_cons in H as [[_ Hf] _]. congruence.
Qed.

(** X3. The ARIA check returns no issue exactly when every element with a
    [role] has one of the roles the check knows and, for a role with
    required attributes, has each of them. *)
Theorem aria_check_silent (d : document) :
  checkARIAUsage d = Ret [] ↔
  Forall (λ el, role_of el ∈ validRoles ∧ has_required_attributes el)
    (elementsWithRole d).
Proof.
  unfold checkARIAUsage. fold (elementsWithRole d).
  rewrite collect_silent. apply Forall_iff. intros el.
  unfold invalid_role_issues.
  destruct (bool_decide (role_of el ∈ validRoles)) eqn:B.
  - apply bool_decide_eq_true in B.
    rewrite (required_attribute_issues_silent el B).
    split; intros [? ?]; by split.
  - apply bool_decide_eq_false in B. split; intros [? ?]; done.
Qed.

End aria_check.

(** ** The duplicate-id check *)

Section duplicate_ids.
Import Checker.

(** The ids the check walks over, in document order. *)
Definition element_ids (d : document) : list string :=
  id_of <$> (snd <$> select [[[SHas "id"]]] d).

Lemma length_append a b :
  String.length (a +:+ b) = (String.length a + String.length b)%nat.
Proof.
  induction a as [|c a IH]; [done|].
  change (String c a +:+ b) with (String c (a +:+ b)). simpl. by rewrite IH.
Qed.

Lemma append_inv_tail a b s : a +:+ s = b +:+ s → a = b.
Proof.
  revert b. induction a as [|c a IH]; intros [|c' b] H.
  - done.
  - apply (f_equal String.length) in H. rewrite !length_append in H.
    simpl in H. lia.
  - apply (f_equal String.length) in H. rewrite !length_append in H.
    simpl in H. lia.
  - change (String c (a +:+ s) = String c' (b +:+ s)) in H.
    injection H as -> H. f_equal. by apply IH.
Qed.

Lemma duplicate_id_message_inj i v :
  duplicate_id_message i = duplicate_id_message v → i = v.
Proof.
  unfold duplicate_id_message. intros H.
  apply (inj (String.app _)) in H. apply (inj (String.app _)) in H.
  by apply append_inv_tail in H.
Qed.

Lemma flagged_dec allIds i : flagged allIds i ∨ ¬ flagged allIds i.
Proof.
  unfold flagged. destruct (get_property allIds i) as [[|]| |];
    [by left; left|right|by left; right|right]; by intros [?|?].
Qed.

Lemma duplicate_id_loop_flagged allIds el rest :
  flagged allIds (id_of el) →
  duplicate_id_loop allIds (el :: rest) =
  Issue screen_reader (duplicate_id_message (id_of el)) (Some el) []
    :: duplicate_id_loop allIds rest.
Proof. cbn [duplicate_id_loop]. intros [-> | ->]; reflexivity. Qed.

Lemma duplicate_id_loop_fresh allIds el rest :
  ¬ flagged allIds (id_of el) →
  duplicate_id_loop allIds (el :: rest) =
  duplicate_id_loop (<[id_of el := true]> allIds) rest.
Proof.
  cbn [duplicate_id_loop]. unfold flagged.
  destruct (get_property allIds (id_of el)) as [[|]| |]; try done;
    intros H; exfalso; apply H; [by left|by right].
Qed.

Lemma flagged_insert_eq allIds i : flagged (<[i := true]> allIds) i.
Proof. left. unfold get_property. by rewrite lookup_insert_eq. Qed.

Lemma flagged_insert_ne allIds i v :
  i ≠ v → flagged (<[i := true]> allIds) v ↔ flagged allIds v.
Proof. intros H. unfold flagged, get_property. by rewrite lookup_insert_ne. Qed.

Lemma duplicate_id_loop_reports els : ∀ allIds v,
  (∃ iss, iss ∈ duplicate_id_loop allIds els ∧
          message iss = duplicate_id_message v) ↔
  (flagged allIds v ∧ (1 ≤ count (String.eqb v) (id_of <$> els))%nat) ∨
  (2 ≤ count (String.eqb v) (id_of <$> els))%nat.
Proof.
  induction els as [|el rest IH]; intros allIds v.
  - simpl. split; [by intros (? & ?%elem_of_nil & _) | intros [[_ ?]|?]; lia].
  - rewrite fmap_cons. cbn [count].
    destruct (flagged_dec allIds (id_of el)) as [Hf|Hf].
    + rewrite (duplicate_id_loop_flagged _ _ _ Hf).
      destruct (String.eqb_spec v (id_of el)) as [->|Hne].
      * split; [intros _; left; split; [done|lia]|]. intros _.
        eexists. split; [apply list_elem_of_here|done].
      * rewrite Nat.add_0_l, <- IH. split.
        -- intros (iss & [->|Hin]%elem_of_cons & Hm); [|by eauto].
           apply duplicate_id_message_inj in Hm. congruence.
        -- intros (iss & Hin & Hm). exists iss. split; [by right|done].
    + rewrite (duplicate_id_loop_fresh _ _ _ Hf), IH.
      destruct (String.eqb_spec v (id_of el)) as [->|Hne].
      * split.
        -- intros [[_ ?]|?]; right; lia.
        -- intros [[? _]|?]; [done|]. left. split; [apply flagged_insert_eq|lia].
      * rewrite Nat.add_0_l, flagged_insert_ne by done. done.
Qed.

Lemma flagged_empty v : flagged ∅ v ↔ v ∈ object_prototype_keys.
Proof.
  unfold flagged, get_property. rewrite lookup_empty.
  destruct (bool_decide (v ∈ object_prototype_keys)) eqn:B.
  - apply bool_decide_eq_true in B. split; [done|by right].
  - apply bool_decide_eq_false in B. split; [by intros [?|?]|done].
Qed.

Lemma other_issues_not_duplicate d v iss :
  iss ∈ checkScreenReaderAnnouncements d →
  message iss = duplicate_id_message v →
  iss ∈ duplicate_id_loop ∅ (snd <$> select [[[SHas "id"]]] d).
Proof.
  unfold checkScreenReaderAnnouncements.
  rewrite !elem_of_app. intros [H|[H|[H|H]]] Hm; [exfalso|exfalso|done|exfalso].
  - apply elem_of_concat in H as (l & Hi & Hl).
    apply list_elem_of_fmap in Hl as (pn & -> & _).
    unfold image_issues in Hi.
    destruct (getAttribute "alt" pn.2) as [alt|].
    + destruct (String.eqb (trim alt) "").
      * destruct (_ && _); [|by apply elem_of_nil in Hi].
        apply list_elem_of_singleton in Hi as ->. done.
      * destruct (_ || _); [|by apply elem_of_nil in Hi].
        apply list_elem_of_singleton in Hi as ->. done.
    + apply list_elem_of_singleton in Hi as ->. done.
  - apply list_elem_of_fmap in H as (el & -> & _). done.
  - apply elem_of_concat in H as (l & Hi & Hl).
    apply list_elem_of_fmap in Hl as (el & -> & _).
    unfold labelledby_issues in Hi.
    apply list_elem_of_fmap in Hi as (id & -> & _). done.
Qed.

(** X4. The screen-reader check reports an id as a duplicate exactly when
    two of the elements with an [id] attribute carry it, or when one
    element carries it and it names a member of [Object.prototype]: the
    ids seen so far are the keys of an object literal. *)
Theorem duplicate_id_reported_iff (d : document) (v : string) :
  (∃ iss, iss ∈ checkScreenReaderAnnouncements d ∧
          message iss = duplicate_id_message v) ↔
  (2 ≤ count (String.eqb v) (element_ids d))%nat ∨
  (v ∈ object_prototype_keys ∧ (1 ≤ count (String.eqb v) (element_ids d))%nat).
Proof.
  unfold element_ids. rewrite <- flagged_empty.
  rewrite (or_comm (2 ≤ _)%nat), <- duplicate_id_loop_reports. split.
  - intros (iss & Hin & Hm). exists iss. split; [|done].
    by eapply other_issues_not_duplicate.
  - intros (iss & Hin & Hm). exists iss. split; [|done].
    unfold checkScreenReaderAnnouncements.
    apply elem_of_app. right. apply elem_of_app. right. apply elem_of_app. by left.
Qed.

End duplicate_ids.

(** ** Colours *)

Section colours.
Import Checker Enhancer.

Definition digits (s : string) : bool := truthy s && all_chars is_digit s.

Definition starts_outside (P : ascii → bool) (s : string) : bool :=
  match s with
  | String c _ => negb (P c)
  | EmptyString => true
  end.

Lemma take_while_all P s rest :
  all_chars P s = true → starts_outside P rest = true →
  take_while P (s +:+ rest) = (s, rest).
Proof.
  intros Hs Hr. induction s as [|c s IH].
  - change ("" +:+ rest) with rest. destruct rest as [|c r]; [done|].
    simpl in Hr. cbn [take_while]. by rewrite (negb_true_iff _ ) in Hr; rewrite Hr.
  - simpl in Hs. apply andb_true_iff in Hs as [Hc Hs].
    change (String c s +:+ rest) with (String c (s +:+ rest)).
    cbn [take_while]. by rewrite Hc, IH.
Qed.

Lemma digit_not_space c : is_digit c = true → is_space c = false.
Proof. destruct c as [[] [] [] [] [] [] [] []]; by vm_compute. Qed.

Lemma digits_start P s rest :
  digits s = true → (∀ c, is_digit c = true → P c = false) →
  starts_outside P (s +:+ rest) = true.
Proof.
  intros [Ht Hs]%andb_true_iff HP. destruct s as [|c s]; [done|].
  simpl in Hs. apply andb_true_iff in Hs as [Hc _].
  change (String c s +:+ rest) with (String c (s +:+ rest)). simpl.
  by rewrite (HP c Hc).
Qed.

Lemma rgb_match_skip_char c s :
  is_digit c = false → rgb_match (String c s) = rgb_match s.
Proof.
  intros Hc. cbn [rgb_match]. unfold rgb_match_here at 1.
  cbn [take_while]. by rewrite Hc.
Qed.

Lemma rgb_match_skip pre s :
  all_chars (λ c, negb (is_digit c)) pre = true →
  rgb_match (pre +:+ s) = rgb_match s.
Proof.
  induction pre as [|c pre IH]; [done|]. cbn [all_chars].
  intros [Hc Hp]%andb_true_iff. apply negb_true_iff in Hc.
  change (String c pre +:+ s) with (String c (pre +:+ s)).
  rewrite rgb_match_skip_char by done. by apply IH.
Qed.

Lemma rgb_match_here_Some s m : rgb_match_here s = Some m → rgb_match s = Some m.
Proof. intros H. destruct s; cbn [rgb_match]; by rewrite H. Qed.

Lemma rgb_match_here_triple r g b ws1 ws2 rest :
  digits r = true → digits g = true → digits b = true →
  all_chars is_space ws1 = true → all_chars is_space ws2 = true →
  starts_outside is_digit rest = true →
  rgb_match_here (r +:+ "," +:+ ws1 +:+ g +:+ "," +:+ ws2 +:+ b +:+ rest) =
  Some (r, g, b).
Proof.
  intros Hr Hg Hb H1 H2 Hrest. unfold rgb_match_here.
  pose proof Hr as [Htr Har]%andb_true_iff.
  pose proof Hg as [Htg Hag]%andb_true_iff.
  pose proof Hb as [Htb Hab]%andb_true_iff.
  rewrite (take_while_all is_digit r) by done. rewrite Htr. cbn [negb].
  change ("," +:+ ws1 +:+ g +:+ "," +:+ ws2 +:+ b +:+ rest)
    with (String "," (ws1 +:+ g +:+ "," +:+ ws2 +:+ b +:+ rest)).
  cbv beta iota.
  rewrite (take_while_all is_space ws1)
    by (first [done | apply digits_start; first [done | apply digit_not_space]]).
  cbn [snd]. rewrite (take_while_all is_digit g) by done. rewrite Htg. cbn [negb].
  change ("," +:+ ws2 +:+ b +:+ rest) with (String "," (ws2 +:+ b +:+ rest)).
  cbv beta iota.
  rewrite (take_while_all is_space ws2)
    by (first [done | apply digits_start; first [done | apply digit_not_space]]).
  cbn [snd]. rewrite (take_while_all is_digit b) by done. by rewrite Htb.
Qed.

(** X5. A colour that starts with [rgb] and whose first digits are three
    runs of digits separated by commas, with white space allowed after a
    comma, is read as these three numbers; what follows the third run,
    an alpha component for one, is ignored. *)
Theorem parseColor_rgb (pre r g b ws1 ws2 rest : string) :
  all_chars (λ c, negb (is_digit c)) pre = true →
  digits r = true → digits g = true → digits b = true →
  all_chars is_space ws1 = true → all_chars is_space ws2 = true →
  starts_outside is_digit rest = true →
  parseColor ("rgb" +:+ pre +:+ r +:+ "," +:+ ws1 +:+ g +:+ "," +:+ ws2 +:+ b +:+ rest) =
  Some [parseInt r; parseInt g; parseInt b].
Proof.
  intros Hpre Hr Hg Hb H1 H2 Hrest.
  set (tail := r +:+ "," +:+ ws1 +:+ g +:+ "," +:+ ws2 +:+ b +:+ rest).
  change ("rgb" +:+ pre +:+ tail)
    with (String "r" (String "g" (String "b" (pre +:+ tail)))).
  assert (startsWith (String "r" (String "g" (String "b" (pre +:+ tail)))) "rgb" = true)
    as Hs by (by destruct (pre +:+ tail)).
  unfold parseColor. rewrite Hs. cbn [truthy negb].
  rewrite !rgb_match_skip_char by done. rewrite rgb_match_skip by done.
  unfold tail. by rewrite (rgb_match_here_Some _ _ (rgb_match_here_triple
    r g b ws1 ws2 rest Hr Hg Hb H1 H2 Hrest)).
Qed.

Lemma parseColor_rgb_witness :
  parseColor "rgba(0, 0, 0, 0)" = Some [Some 0; Some 0; Some 0].
Proof.
  apply (parseColor_rgb "a(" "0" "0" "0" " " " " ", 0)"); reflexivity.
Defined.

End colours.

(** ** The references of [aria-labelledby] *)

Section dangling_references.
Import Checker.

Definition dangling_message (id : string) : string :=
  "aria-labelledby references non-existent ID: " +:+ dq +:+ id +:+ dq.

(** [element.getAttribute('aria-labelledby').split(' ')] *)
Definition labelledby_ids (el : node) : list string :=
  split_space (default "" (getAttribute "aria-labelledby" el)).

Lemma dangling_message_inj i v : dangling_message i = dangling_message v → i = v.
Proof.
  unfold dangling_message. intros H.
  apply (inj (String.app _)) in H. apply (inj (String.app _)) in H.
  by apply append_inv_tail in H.
Qed.

Lemma matches_id d i pn :
  matches d [[[SId i]]] pn = is_elem pn.2 && bool_decide (getAttribute "id" pn.2 = Some i).
Proof.
  unfold matches, matches_complex, matches_compound; simpl.
  by rewrite matches_above_nil, !andb_true_r, orb_false_r.
Qed.

(** [getElementById] finds an element exactly for a non-empty id that
    some element has. *)
Lemma getElementById_is_Some d i :
  is_Some (getElementById i d) ↔ i ≠ "" ∧ i ∈ element_ids d.
Proof.
  unfold getElementById, element_ids. destruct i as [|c i]; cbn [truthy].
  { split; [by intros [? ?]|by intros [? _]]. }
  split.
  - intros [p Hp]. split; [done|]. apply querySelector_elem in Hp.
    apply list_elem_of_fmap in Hp as ([q n] & -> & Hin).
    apply elem_of_select in Hin as [Hm Hw]. rewrite matches_id in Hm.
    apply andb_true_iff in Hm as [He Hi]. apply bool_decide_eq_true in Hi.
    cbn [snd] in *.
    apply list_elem_of_fmap. exists n. split; [unfold id_of; by rewrite Hi|].
    apply list_elem_of_fmap. exists (q, n). split; [done|].
    apply elem_of_select. split; [|done]. rewrite matches_has_id. cbn [snd].
    rewrite He. unfold hasAttribute. rewrite Hi. by apply bool_decide_eq_true_2.
  - intros [_ Hin]. apply list_elem_of_fmap in Hin as (n & Hid & Hn).
    apply list_elem_of_fmap in Hn as ([q n'] & -> & Hsel).
    apply elem_of_select in Hsel as [Hm Hw]. rewrite matches_has_id in Hm.
    apply andb_true_iff in Hm as [He Hh]. cbn [snd] in *.
    apply (querySelector_is_Some _ _ (q, n')). apply elem_of_select.
    split; [|done]. rewrite matches_id. cbn [snd]. rewrite He. cbn [andb].
    apply bool_decide_eq_true_2. unfold id_of in Hid.
    unfold hasAttribute in Hh. apply bool_decide_eq_true in Hh as [x Hx].
    rewrite Hx in Hid. cbn in Hid. by rewrite Hx, Hid.
Qed.

Lemma labelledby_issues_reports d el v :
  (∃ iss, iss ∈ labelledby_issues d el ∧ message iss = dangling_message v) ↔
  v ∈ labelledby_ids el ∧ (v = "" ∨ v ∉ element_ids d).
Proof.
  unfold labelledby_issues. fold (labelledby_ids el).
  assert (negb (bool_decide (is_Some (getElementById v d))) = true ↔
          v = "" ∨ v ∉ element_ids d) as Hv.
  { rewrite negb_true_iff, bool_decide_eq_false, getElementById_is_Some.
    destruct (decide (v = "")) as [->|Hne].
    - split; [by left|]. by intros _ [? _].
    - split; [intros H; right; intros Hin; by apply H|].
      intros [?|H]; [done|]. by intros [_ ?]. }
  rewrite <- Hv. split.
  - intros (iss & Hin & Hm). apply list_elem_of_fmap in Hin as (id & -> & Hin).
    apply dangling_message_inj in Hm as ->.
    apply list_elem_of_filter in Hin as [Hf Hin]. split; [done|].
    by apply Is_true_true.
  - intros [Hin Hf]. eexists. split.
    + apply list_elem_of_fmap. exists v. split; [done|].
      apply list_elem_of_filter. split; [by apply Is_true_true|done].
    + done.
Qed.

(** X6. The screen-reader check reports a reference of [aria-labelledby]
    as dangling exactly when it is one of the pieces between the single
    spaces of the attribute of some element and no element has it as
    its id; the empty piece, which an empty attribute, two spaces in a
    row or a space at either end give, is always reported. *)
Theorem dangling_reference_reported (d : document) (v : string) :
  (∃ iss, iss ∈ checkScreenReaderAnnouncements d ∧
          message iss = dangling_message v) ↔
  ∃ el, el ∈ (snd <$> select [[[SHas "aria-labelledby"]]] d) ∧
        v ∈ labelledby_ids el ∧ (v = "" ∨ v ∉ element_ids d).
Proof.
  split.
  - intros (iss & Hin & Hm). unfold checkScreenReaderAnnouncements in Hin.
    rewrite !elem_of_app in Hin. destruct Hin as [H|[H|[H|H]]].
    + exfalso. apply elem_of_concat in H as (l & Hi & Hl).
      apply list_elem_of_fmap in Hl as (pn & -> & _).
      unfold image_issues in Hi.
      destruct (getAttribute "alt" pn.2) as [alt|].
      * destruct (String.eqb (trim alt) "").
        -- destruct (_ && _); [|by apply elem_of_nil in Hi].
           apply list_elem_of_singleton in Hi as ->. done.
        -- destruct (_ || _); [|by apply elem_of_nil in Hi].
           apply list_elem_of_singleton in Hi as ->. done.
      * apply list_elem_of_singleton in Hi as ->. done.
    + exfalso. apply list_elem_of_fmap in H as (el & -> & _). done.
    + exfalso. clear -H Hm. revert H. generalize (∅ : gmap string bool).
      induction (snd <$> select [[[SHas "id"]]] d) as [|el rest IH]; intros allIds H;
        [by apply elem_of_nil in H|].
      cbn [duplicate_id_loop] in H.
      destruct (get_property allIds (id_of el)) as [[|]| |];
        first [by eapply IH | apply elem_of_cons in H as [->|H]; [done|by eapply IH]].
    + apply elem_of_concat in H as (l & Hi & Hl).
      apply list_elem_of_fmap in Hl as (el & -> & Hel). exists el. split; [done|].
      apply labelledby_issues_reports. by exists iss.
  - intros (el & Hel & Hv). apply labelledby_issues_reports in Hv as (iss & Hin & Hm).
    exists iss. split; [|done]. unfold checkScreenReaderAnnouncements.
    rewrite !elem_of_app. do 3 right. apply elem_of_concat.
    exists (labelledby_issues d el). split; [done|].
    apply list_elem_of_fmap. by exists el.
Qed.

End dangling_references.

(** * Further properties of the Enhancer *)

(** ** Slugs *)

Section slugs.
Import Enhancer.

(** A lower-case letter, a digit, an underscore or a hyphen. *)
Definition slug_letter (c : ascii) : bool :=
  is_lower c || is_digit c || (code c =? 95)%nat || is_hyphen c.

(** No two characters of the class [P] in a row; [prev] tells whether
    the character before the string is of the class. *)
Fixpoint single_runs (P : ascii → bool) (prev : bool) (s : string) : bool :=
  match s with
  | EmptyString => true
  | String c r => negb (prev && P c) && single_runs P (P c) r
  end.

Definition is_slug (s : string) : bool :=
  all_chars slug_letter s && single_runs is_hyphen false s.

Lemma lower_char_kept c :
  is_word (lower_char c) || is_space (lower_char c) || is_hyphen (lower_char c) = true →
  negb (is_upper (lower_char c)) &&
  (is_word (lower_char c) || is_space (lower_char c) || is_hyphen (lower_char c)) = true.
Proof. destruct c as [[] [] [] [] [] [] [] []]; by vm_compute. Qed.

Lemma kept_not_space c :
  negb (is_upper c) && (is_word c || is_space c || is_hyphen c) = true →
  is_space c = false →
  negb (is_upper c) && (is_word c || is_hyphen c) = true.
Proof. destruct c as [[] [] [] [] [] [] [] []]; by vm_compute. Qed.

Lemma kept_slug_letter c :
  negb (is_upper c) && (is_word c || is_hyphen c) = true → slug_letter c = true.
Proof. destruct c as [[] [] [] [] [] [] [] []]; by vm_compute. Qed.

Lemma slug_letter_fixed c :
  slug_letter c = true →
  lower_char c = c ∧ is_word c || is_space c || is_hyphen c = true ∧
  is_space c = false.
Proof. destruct c as [[] [] [] [] [] [] [] []]; by vm_compute. Qed.

Lemma hyphen_char c : is_hyphen c = true → c = "-"%char.
Proof. destruct c as [[] [] [] [] [] [] [] []]; by vm_compute. Qed.

Lemma strip_lowered_chars s :
  all_chars (λ c, negb (is_upper c) && (is_word c || is_space c || is_hyphen c))
    (strip_special (toLowerCase s)) = true.
Proof.
  unfold toLowerCase. induction s as [|c s IH]; [done|].
  cbn [map_chars strip_special].
  destruct (is_word (lower_char c) || is_space (lower_char c) || is_hyphen (lower_char c))
    eqn:E; [|done].
  cbn [all_chars]. by rewrite (lower_char_kept c E), IH.
Qed.

Lemma slugify_letters s : all_chars slug_letter (slugify s) = true.
Proof.
  unfold slugify.
  apply (collapse_runs_chars _ (λ c, negb (is_upper c) && (is_word c || is_hyphen c)));
    [intros c Hc _; by apply kept_slug_letter | done |].
  apply (collapse_runs_chars _
           (λ c, negb (is_upper c) && (is_word c || is_space c || is_hyphen c)));
    [apply kept_not_space | done | apply strip_lowered_chars].
Qed.

Lemma single_runs_collapse b s :
  single_runs is_hyphen b (collapse_runs is_hyphen b s) = true.
Proof.
  revert b. induction s as [|c s IH]; intros b; [done|].
  cbn [collapse_runs]. destruct (is_hyphen c) eqn:E.
  - destruct b; [apply IH|]. cbn [single_runs andb negb].
    change (is_hyphen "-") with true. apply IH.
  - cbn [single_runs]. rewrite E, andb_false_r. cbn [negb andb]. apply IH.
Qed.

Lemma slugify_shape s : is_slug (slugify s) = true.
Proof.
  unfold is_slug. rewrite slugify_letters. cbn [andb].
  unfold slugify. apply single_runs_collapse.
Qed.

(** X7. A slug holds lower-case letters, digits, underscores and hyphens
    only, and no two hyphens in a row: whatever the heading text, the id
    made from it has no white space, no upper-case letter and no
    punctuation. *)
Theorem slugify_is_slug (s : string) : is_slug (slugify s) = true.
Proof. apply slugify_shape. Qed.

Lemma toLowerCase_slug s : all_chars slug_letter s = true → toLowerCase s = s.
Proof.
  unfold toLowerCase. induction s as [|c s IH]; [done|]. cbn [all_chars map_chars].
  intros [Hc Hs]%andb_true_iff.
  destruct (slug_letter_fixed c Hc) as (-> & _). by rewrite IH.
Qed.

Lemma strip_special_slug s : all_chars slug_letter s = true → strip_special s = s.
Proof.
  induction s as [|c s IH]; [done|]. cbn [all_chars strip_special].
  intros [Hc Hs]%andb_true_iff.
  destruct (slug_letter_fixed c Hc) as (_ & -> & _). by rewrite IH.
Qed.

Lemma collapse_space_slug b s :
  all_chars slug_letter s = true → collapse_runs is_space b s = s.
Proof.
  revert b. induction s as [|c s IH]; intros b; [done|].
  cbn [all_chars collapse_runs]. intros [Hc Hs]%andb_true_iff.
  destruct (slug_letter_fixed c Hc) as (_ & _ & ->). by rewrite IH.
Qed.

Lemma collapse_hyphen_slug s : ∀ b,
  single_runs is_hyphen b s = true → collapse_runs is_hyphen b s = s.
Proof.
  induction s as [|c s IH]; intros b; [done|].
  cbn [single_runs collapse_runs]. intros [Hb Hs]%andb_true_iff.
  destruct (is_hyphen c) eqn:E.
  - rewrite andb_true_r in Hb. apply negb_true_iff in Hb as ->.
    rewrite (hyphen_char c E). by rewrite (IH _ Hs).
  - by rewrite (IH _ Hs).
Qed.

Lemma slugify_slug s : is_slug s = true → slugify s = s.
Proof.
  intros [Hl Hr]%andb_true_iff. unfold slugify.
  rewrite (toLowerCase_slug s Hl), (strip_special_slug s Hl).
  rewrite (collapse_space_slug false s Hl). by apply collapse_hyphen_slug.
Qed.

(** X8. Making a slug of a slug changes nothing. *)
Theorem slugify_idempotent (s : string) : slugify (slugify s) = slugify s.
Proof. apply slugify_slug, slugify_shape. Qed.

End slugs.

(** ** What a run of the Enhancer keeps *)

Section whole_run.
Import Enhancer.

Variable random_id : nat → string.
Variable parse_selector : string → outcome selector.


Hypothesis random_plain : ∀ k, plain (random_id k) = true.
Hypothesis parse_plain :
  ∀ v, plain v = true → ∃ sel, parse_selector (label_for_text v) = Ret sel.


End whole_run.

(** ** Attributes after a pass *)

Section attributes_after.
Import Enhancer.

Lemma attr_at_attrs a p d :
  attr_at a p d = (node_attrs <$> get_node p d) ≫= lookup_attr a.
Proof. unfold attr_at. by destruct (get_node p d). Qed.

Lemma attr_at_same_attrs a p d d' :
  node_attrs <$> get_node p d' = node_attrs <$> get_node p d →
  attr_at a p d' = attr_at a p d.
Proof. intros H. by rewrite !attr_at_attrs, H. Qed.

Lemma set_attr_same a v l : lookup_attr a l = Some v → set_attr a v l = l.
Proof.
  induction l as [|[k w] l IH]; [done|]. cbn [lookup_attr set_attr].
  destruct (String.eqb k a); [by intros [= ->]|]. intros H. by rewrite IH.
Qed.

Lemma setAttribute_same a v n : getAttribute a n = Some v → setAttribute a v n = n.
Proof.
  destruct n as [s|t l ks]; [done|]. unfold getAttribute. cbn.
  intros H. by rewrite set_attr_same.
Qed.

Lemma getAttribute_setAttribute_eq a v n :
  is_elem n = true → getAttribute a (setAttribute a v n) = Some v.
Proof. destruct n as [s|t l ks]; [done|]. intros _. apply lookup_set_attr_eq. Qed.

Lemma is_elem_setAttribute a v n : is_elem (setAttribute a v n) = is_elem n.
Proof. by destruct n. Qed.

Lemma textContent_attr_only g n : attr_only g → textContent (g n) = textContent n.
Proof.
  intros Hg. by rewrite <- (textContent_skel (g n)), (skel_attr_only g n Hg),
    textContent_skel.
Qed.

Lemma same_shape_query_tag t d d' :
  same_shape d d' →
  querySelectorAll (tag_sel t) d = querySelectorAll (tag_sel t) d'.
Proof. apply (same_shape_query [t]). Qed.

(** *** The heading pass *)

(** The three facts that make a heading a fixed point of the step. *)
Definition heading_done (m : node) : Prop :=
  getAttribute "tabindex" m = Some "-1" ∧
  (truthy (id_of m) = true ∨
   getAttribute "id" m = Some (slugify (trim (textContent m)))) ∧
  bool_decide (getAttribute "role" m = Some "heading") &&
    negb (hasAttribute "aria-level" m) = false.

Lemma heading_step_done n : is_elem n = true → heading_done (heading_step n).
Proof.
  intros He. unfold heading_done.
  rewrite (textContent_attr_only heading_step n attr_only_heading_step).
  unfold heading_step.
  set (h1 := if truthy (id_of n) then n
             else setAttribute "id" (slugify (trim (textContent n))) n).
  assert (is_elem h1 = true) as He1
    by (subst h1; destruct (truthy _); by rewrite ?is_elem_setAttribute).
  assert (truthy (id_of h1) = true ∨
          getAttribute "id" h1 = Some (slugify (trim (textContent n)))) as Hid.
  { subst h1. destruct (truthy (id_of n)) eqn:E; [by left|right].
    by apply getAttribute_setAttribute_eq. }
  set (h2 := setAttribute "tabindex" "-1" h1).
  assert (getAttribute "tabindex" h2 = Some "-1") as Ht
    by (by apply getAttribute_setAttribute_eq).
  assert (truthy (id_of h2) = true ∨
          getAttribute "id" h2 = Some (slugify (trim (textContent n)))) as Hid2.
  { subst h2. unfold id_of in *. by rewrite getAttribute_setAttribute_ne. }
  destruct (bool_decide (getAttribute "role" h2 = Some "heading") &&
            negb (hasAttribute "aria-level" h2)) eqn:C.
  - unfold id_of, hasAttribute.
    rewrite !getAttribute_setAttribute_ne by done.
    rewrite getAttribute_setAttribute_eq
      by (subst h2; by rewrite is_elem_setAttribute).
    split; [done|]. split; [done|].
    rewrite (bool_decide_eq_true_2 (is_Some _)) by (by eexists).
    by rewrite andb_false_r.
  - done.
Qed.

Lemma heading_done_fixed m : heading_done m → heading_step m = m.
Proof.
  intros (Ht & Hid & Hc). unfold heading_step.
  assert ((if truthy (id_of m) then m
           else setAttribute "id" (slugify (trim (textContent m))) m) = m) as ->.
  { destruct (truthy (id_of m)) eqn:E; [done|].
    destruct Hid as [?|Hid]; [congruence|]. by apply setAttribute_same. }
  rewrite (setAttribute_same _ _ _ Ht). by rewrite Hc.
Qed.

Lemma heading_done_attrs n m :
  node_attrs n = node_attrs m → textContent n = textContent m →
  heading_done m → heading_done n.
Proof.
  unfold heading_done, id_of, hasAttribute, getAttribute.
  by intros -> ->.
Qed.

Lemma heading_step_tabindex n :
  is_elem n = true → getAttribute "tabindex" (heading_step n) = Some "-1".
Proof. intros He. by destruct (heading_step_done n He) as (? & _). Qed.

Lemma heading_step_keeps_id n :
  truthy (id_of n) = true → getAttribute "id" (heading_step n) = getAttribute "id" n.
Proof.
  intros Hid. unfold heading_step. rewrite Hid.
  destruct (_ && _); by rewrite ?getAttribute_setAttribute_ne.
Qed.

Lemma heading_node d p :
  p ∈ headings d →
  ∃ n n', get_node p d = Some n ∧ is_elem n = true ∧
          get_node p (enhanceHeadings d) = Some n' ∧
          node_attrs n' = node_attrs (heading_step n) ∧ skel n' = skel n.
Proof.
  intros Hp. pose proof (enhanceHeadings_attrs d p Hp) as E.
  pose proof (same_shape_get _ _ p (enhanceHeadings_shape d)) as Es.
  destruct (querySelectorAll_get _ _ _ Hp) as (n & Hn & He & _).
  rewrite Hn in E, Es.
  destruct (get_node p (enhanceHeadings d)) as [n'|]; simplify_eq/=.
  by exists n, n'.
Qed.

(** X11. After the heading pass every heading has [tabindex="-1"], and a
    heading that had a non-empty id has it still. *)
Theorem heading_pass_attributes (d : document) (p : path) :
  p ∈ headings d →
  attr_at "tabindex" p (enhanceHeadings d) = Some "-1" ∧
  (id_at p d ≠ "" → attr_at "id" p (enhanceHeadings d) = attr_at "id" p d).
Proof.
  intros Hp. destruct (heading_node d p Hp) as (n & n' & Hn & He & Hn' & Ha & _).
  unfold id_at, attr_at. rewrite Hn, Hn'. cbn.
  unfold getAttribute. rewrite Ha. split.
  - by apply heading_step_tabindex.
  - intros Hid. apply heading_step_keeps_id. unfold id_of, getAttribute.
    by destruct (default "" (lookup_attr "id" (node_attrs n))).
Qed.

Lemma alter_at_fixed g p d :
  (∀ n, get_node p d = Some n → g n = n) → alter_at g p d = d.
Proof.
  intros H. rewrite (alter_at_ext_at g id) by done. apply alter_at_id.
Qed.

(** X12. The heading pass, applied to its own result, changes nothing. *)
Theorem heading_pass_idempotent (d : document) :
  enhanceHeadings (enhanceHeadings d) = enhanceHeadings d.
Proof.
  unfold enhanceHeadings at 1.
  rewrite (same_shape_query heading_tags _ d (enhanceHeadings_shape d)).
  fold (headings d).
  assert (∀ p, p ∈ headings d →
            alter_at heading_step p (enhanceHeadings d) = enhanceHeadings d) as Hfix.
  { intros p Hp. apply alter_at_fixed. intros m Hm.
    destruct (heading_node d p Hp) as (n & n' & Hn & He & Hn' & Ha & Hs).
    simplify_eq. apply heading_done_fixed.
    apply (heading_done_attrs _ (heading_step n)); [done| |by apply heading_step_done].
    rewrite (textContent_attr_only heading_step n attr_only_heading_step).
    by rewrite <- (textContent_skel m), Hs, textContent_skel. }
  revert Hfix. generalize (headings d). intros l.
  induction l as [|p l IH]; intros Hfix; [done|].
  cbn [for_each fold_left]. rewrite Hfix by left.
  apply IH. intros q Hq. apply Hfix. by right.
Qed.

(** *** The landmark pass *)

Definition nav_label (before : option string) : string :=
  default "Main Navigation" before.

Definition aside_label (i : nat) (before : option string) : string :=
  default ("Complementary Content " +:+ pretty (i + 1)%nat) before.

Lemma label_nav_label n :
  is_elem n = true →
  getAttribute "aria-label" (label_nav n) =
  Some (nav_label (getAttribute "aria-label" n)).
Proof.
  intros He. unfold label_nav, hasAttribute, nav_label.
  destruct (getAttribute "aria-label" n) as [l|] eqn:E.
  - rewrite bool_decide_eq_true_2 by (by eexists). by rewrite E.
  - rewrite bool_decide_eq_false_2 by (by intros [? ?]).
    by apply getAttribute_setAttribute_eq.
Qed.

Lemma mark_aside_attributes i n :
  is_elem n = true →
  getAttribute "role" (mark_aside i n) = Some "complementary" ∧
  getAttribute "aria-label" (mark_aside i n) =
  Some (aside_label i (getAttribute "aria-label" n)).
Proof.
  intros He. unfold mark_aside, hasAttribute, aside_label.
  rewrite (getAttribute_setAttribute_ne "role" "aria-label") by done.
  destruct (getAttribute "aria-label" n) as [l|] eqn:E.
  - rewrite bool_decide_eq_true_2 by (by eexists).
    rewrite getAttribute_setAttribute_eq by done.
    by rewrite getAttribute_setAttribute_ne, E.
  - rewrite bool_decide_eq_false_2 by (by intros [? ?]).
    rewrite getAttribute_setAttribute_ne by done.
    rewrite getAttribute_setAttribute_eq by done.
    by rewrite getAttribute_setAttribute_eq by (by rewrite is_elem_setAttribute).
Qed.

Lemma reads_node_only_attrs (g : node → node) :
  (∀ n n', node_attrs n = node_attrs n' → is_elem n = is_elem n' →
           node_attrs (g n) = node_attrs (g n')) →
  reads_node_only g.
Proof.
  intros H n n' Hs Ha. apply H; [done|].
  by rewrite <- (is_elem_skel n), Hs, is_elem_skel.
Qed.

Lemma reads_node_only_label_nav : reads_node_only label_nav.
Proof.
  apply reads_node_only_attrs. intros [s|t a ks] [s'|t' a' ks'] Ha He; try done.
  cbn in Ha. subst a'. unfold label_nav, hasAttribute, getAttribute. cbn.
  by destruct (bool_decide _).
Qed.

Lemma reads_node_only_mark_aside i : reads_node_only (mark_aside i).
Proof.
  apply reads_node_only_attrs. intros [s|t a ks] [s'|t' a' ks'] Ha He; try done.
  cbn in Ha. subst a'. unfold mark_aside, hasAttribute, getAttribute. cbn.
  by destruct (bool_decide _).
Qed.

Lemma for_each_alter_attrs g ps p d :
  attr_only g → reads_node_only g → NoDup ps → p ∈ ps →
  node_attrs <$> get_node p (for_each (λ d q, alter_at g q d) ps d) =
  (λ n, node_attrs (g n)) <$> get_node p d.
Proof.
  intros Hg Hr Hnd Hp.
  pose proof (updates_attrs_at (λ _ : path, g) id (λ _, Hg) ps p d Hr) as H.
  rewrite list_fmap_id in H. exact (H Hnd Hp).
Qed.

Lemma indexed_alter_attrs (g : nat → node → node) ps i p d :
  (∀ i, attr_only (g i)) → (∀ i, reads_node_only (g i)) →
  NoDup ps → ps !! i = Some p →
  node_attrs <$> get_node p
    (fold_left (λ d ip, alter_at (g ip.1) ip.2 d) (zip (seq 0 (length ps)) ps) d) =
  (λ n, node_attrs (g i n)) <$> get_node p d.
Proof.
  intros Hg Hr Hnd Hi.
  assert ((i, p) ∈ zip (seq 0 (length ps)) ps) as Hz.
  { apply (list_elem_of_lookup_2 _ i). apply lookup_zip_Some. split; [|done].
    apply lookup_seq. split; [done|]. by eapply lookup_lt_Some. }
  pose proof (updates_attrs_at (λ ip : nat * path, g ip.1) snd (λ ip, Hg ip.1)
                (zip (seq 0 (length ps)) ps) (i, p) d (Hr i)) as H.
  rewrite snd_zip in H by (by rewrite length_seq). exact (H Hnd Hz).
Qed.

(** The steps after the main element is settled, from the tree [d2]
    they start on. *)
Lemma landmarks_attributes d2 d3 d4 d5 d6 :
  d3 = mark_first "header" "banner" d2 →
  d4 = for_each (λ d nav, alter_at label_nav nav d)
         (querySelectorAll (tag_sel "nav") d3) d3 →
  d5 = mark_first "footer" "contentinfo" d4 →
  d6 = fold_left (λ d ip, alter_at (mark_aside ip.1) ip.2 d)
         (zip (seq 0 (length (querySelectorAll (tag_sel "aside") d5)))
            (querySelectorAll (tag_sel "aside") d5)) d5 →
  same_shape d6 d2 ∧
  (∀ nav, nav ∈ querySelectorAll (tag_sel "nav") d2 →
     attr_at "aria-label" nav d6 = Some (nav_label (attr_at "aria-label" nav d2))) ∧
  (∀ i aside, querySelectorAll (tag_sel "aside") d2 !! i = Some aside →
     attr_at "role" aside d6 = Some "complementary" ∧
     attr_at "aria-label" aside d6 =
       Some (aside_label i (attr_at "aria-label" aside d2))) ∧
  (∀ q a, tag_at q d2 ∉ ["header"; "nav"; "footer"; "aside"] →
     attr_at a q d6 = attr_at a q d2).
Proof.
  intros E3 E4 E5 E6.
  assert (same_shape d3 d2) as S32 by (subst d3; apply mark_first_shape).
  assert (same_shape d4 d3) as S43.
  { subst d4. apply (updates_shape (λ _ : path, label_nav) id).
    intros _. apply attr_only_label_nav. }
  assert (same_shape d5 d4) as S54 by (subst d5; apply mark_first_shape).
  assert (same_shape d6 d5) as S65.
  { subst d6. apply (updates_shape (λ ip : nat * path, mark_aside ip.1) snd).
    intros ip. apply attr_only_mark_aside. }
  assert (same_shape d4 d2) as S42 by (by eapply same_shape_trans).
  assert (same_shape d5 d2) as S52 by (by eapply same_shape_trans).
  assert (∀ q a, tag_at q d2 ≠ "aside" → attr_at a q d6 = attr_at a q d5) as A65.
  { intros q a Hq. rewrite E6.
    apply (updates_other_tag (λ ip : nat * path, mark_aside ip.1) snd _ d5 "aside");
      [intros ip; apply attr_only_mark_aside| |by rewrite (same_shape_tag d5 d2)].
    intros [i p] Hin. apply query_tag_at. simpl. by apply elem_of_zip_r in Hin. }
  assert (∀ q a, tag_at q d2 ≠ "nav" → attr_at a q d4 = attr_at a q d3) as A43.
  { intros q a Hq. rewrite E4.
    apply (updates_other_tag (λ _ : path, label_nav) id _ d3 "nav");
      [intros _; apply attr_only_label_nav| |by rewrite (same_shape_tag d3 d2)].
    intros p Hin. by apply query_tag_at. }
  assert (∀ q a, tag_at q d2 ≠ "footer" → attr_at a q d5 = attr_at a q d4) as A54.
  { intros q a Hq. rewrite E5. apply mark_first_other.
    by rewrite (same_shape_tag d4 d2). }
  assert (∀ q a, tag_at q d2 ≠ "header" → attr_at a q d3 = attr_at a q d2) as A32.
  { intros q a Hq. rewrite E3. by apply mark_first_other. }
  split; [by eapply same_shape_trans|]. split; [|split].
  - intros nav Hnav. pose proof (query_tag_at _ _ _ Hnav) as Ht.
    rewrite A65, A54 by (by rewrite Ht).
    rewrite <- (A32 nav "aria-label") by (by rewrite Ht).
    rewrite (same_shape_query_tag "nav" d2 d3) in Hnav by done.
    destruct (querySelectorAll_get _ _ _ Hnav) as (n & Hn & He & _).
    rewrite E4, (attr_at_attrs _ _ (for_each _ _ _)).
    rewrite (for_each_alter_attrs label_nav _ nav d3 attr_only_label_nav
               reads_node_only_label_nav (NoDup_querySelectorAll _ _) Hnav).
    unfold attr_at. rewrite Hn. cbn. by apply label_nav_label.
  - intros i aside Hi.
    assert (aside ∈ querySelectorAll (tag_sel "aside") d2) as Hin
      by (by eapply list_elem_of_lookup_2).
    pose proof (query_tag_at _ _ _ Hin) as Ht.
    assert (∀ a, attr_at a aside d5 = attr_at a aside d2) as A52.
    { intros a. by rewrite A54, A43, A32 by (by rewrite Ht). }
    rewrite (same_shape_query_tag "aside" d2 d5) in Hi, Hin by done.
    destruct (querySelectorAll_get _ _ _ Hin) as (n & Hn & He & _).
    rewrite E6, !(attr_at_attrs _ _ (fold_left _ _ _)).
    rewrite (indexed_alter_attrs mark_aside _ i aside d5 attr_only_mark_aside
               reads_node_only_mark_aside (NoDup_querySelectorAll _ _) Hi).
    rewrite Hn. cbn. rewrite <- A52. unfold attr_at. rewrite Hn. cbn.
    by apply mark_aside_attributes.
  - intros q a Hq.
    rewrite A65, A54, A43, A32; [done|..]; intros Ht; apply Hq; rewrite Ht;
      by apply (bool_decide_unpack _).
Qed.


Lemma mark_main_attributes n :
  is_elem n = true →
  getAttribute "role" (mark_main n) = Some "main" ∧
  getAttribute "id" (mark_main n) =
    Some (if truthy (id_of n) then id_of n else "main-content") ∧
  (∀ a, a ≠ "role" → a ≠ "id" → getAttribute a (mark_main n) = getAttribute a n).
Proof.
  intros He. unfold mark_main.
  assert (id_of (setAttribute "role" "main" n) = id_of n) as Hid
    by (by apply id_of_setAttribute_ne).
  rewrite Hid. destruct (truthy (id_of n)) eqn:E.
  - split; [by apply getAttribute_setAttribute_eq|]. split.
    + rewrite getAttribute_setAttribute_ne by done. unfold id_of in *.
      by destruct (getAttribute "id" n).
    + intros a Ha _. by apply getAttribute_setAttribute_ne.
  - split; [|split].
    + rewrite getAttribute_setAttribute_ne by done.
      by apply getAttribute_setAttribute_eq.
    + apply getAttribute_setAttribute_eq. by rewrite is_elem_setAttribute.
    + intros a Ha Hb. by rewrite !getAttribute_setAttribute_ne.
Qed.

Lemma attr_only_mark_main : attr_only mark_main.
Proof.
  intros [s|t l ks]; unfold mark_main; [by cbn|].
  cbn [setAttribute]. destruct (truthy _); cbn [setAttribute]; eauto.
Qed.

(** X14. On a tree that has a [main] element the landmark pass adds and
    removes no node; the first [main] gets [role="main"] and keeps its
    id, or gets the id [main-content] when it had none; a [nav] keeps
    its [aria-label], or gets "Main Navigation"; the [i]-th [aside],
    counted from 0, gets [role="complementary"] and keeps its
    [aria-label], or gets "Complementary Content" followed by [i + 1];
    and an element that is no [main], [header], [nav], [footer] or
    [aside] keeps every attribute. *)
Theorem landmark_pass_with_main (d : document) (m : path) :
  querySelector (tag_sel "main") d = Some m →
  same_shape (addDocumentLandmarks d) d ∧
  attr_at "role" m (addDocumentLandmarks d) = Some "main" ∧
  attr_at "id" m (addDocumentLandmarks d) =
    Some (if truthy (id_at m d) then id_at m d else "main-content") ∧
  (∀ nav, nav ∈ querySelectorAll (tag_sel "nav") d →
     attr_at "aria-label" nav (addDocumentLandmarks d) =
       Some (nav_label (attr_at "aria-label" nav d))) ∧
  (∀ i aside, querySelectorAll (tag_sel "aside") d !! i = Some aside →
     attr_at "role" aside (addDocumentLandmarks d) = Some "complementary" ∧
     attr_at "aria-label" aside (addDocumentLandmarks d) =
       Some (aside_label i (attr_at "aria-label" aside d))) ∧
  (∀ q a, tag_at q d ∉ ["main"; "header"; "nav"; "footer"; "aside"] →
     attr_at a q (addDocumentLandmarks d) = attr_at a q d).
Proof.
  intros Hm. unfold addDocumentLandmarks, resolve_main. rewrite Hm.
  set (d2 := alter_at mark_main m d).
  destruct (querySelector_tag _ _ _ Hm) as (am & km & Hn).
  assert (same_shape d2 d) as S2 by apply skel_alter_at, attr_only_mark_main.
  assert (tag_at m d = "main") as Tm by (unfold tag_at; by rewrite Hn).
  assert (∀ q a, tag_at q d ≠ "main" → attr_at a q d2 = attr_at a q d) as A2.
  { intros q a Hq. apply attr_at_alter_at_ne; [apply attr_only_mark_main|].
    intros ->. by apply Hq. }
  edestruct (landmarks_attributes d2) as (Hs & Hnav & Haside & Hother);
    try reflexivity.
  assert (tag_at m d2 ∉ ["header"; "nav"; "footer"; "aside"]) as Hm2.
  { rewrite (same_shape_tag d2 d), Tm by done. by apply (bool_decide_unpack _). }
  assert (∀ a, attr_at a m d2 = getAttribute a (mark_main (Elem "main" am km)))
    as Hmain.
  { intros a. unfold attr_at, d2. by rewrite get_node_alter_at_eq, Hn. }
  destruct (mark_main_attributes (Elem "main" am km) eq_refl) as (Hr & Hi & _).
  split; [by eapply same_shape_trans|].
  split; [by rewrite (Hother m "role" Hm2), Hmain|].
  split.
  { rewrite (Hother m "id" Hm2), Hmain, Hi. unfold id_at, attr_at. by rewrite Hn. }
  split; [|split].
  - intros nav Hin. pose proof (query_tag_at _ _ _ Hin) as Ht.
    rewrite <- (same_shape_query_tag "nav" d2 d) in Hin by done.
    rewrite (Hnav nav Hin), A2; [done|]. by rewrite Ht.
  - intros i aside Hi'.
    assert (aside ∈ querySelectorAll (tag_sel "aside") d) as Hin
      by (by eapply list_elem_of_lookup_2).
    pose proof (query_tag_at _ _ _ Hin) as Ht.
    rewrite <- (same_shape_query_tag "aside" d2 d) in Hi' by done.
    destruct (Haside i aside Hi') as [-> ->]. rewrite A2; [done|]. by rewrite Ht.
  - intros q a Hq. rewrite Hother.
    + apply A2. intros Ht. apply Hq. rewrite Ht. by apply (bool_decide_unpack _).
    + rewrite (same_shape_tag d2 d) by done. intros Ht. apply Hq.
      repeat (apply elem_of_cons in Ht as [->|Ht]);
        [by apply (bool_decide_unpack _)..|by apply elem_of_nil in Ht].
Qed.

End attributes_after.

(** ** What the attribute passes touch *)

Section footprints.
Import Enhancer.

Variable random_id : nat → string.
Variable parse_selector : string → outcome selector.

(** [touches W d d']: the tree [d'] has the shape of [d], and an
    attribute whose name is not in [W] has in [d'] the value it has in
    [d], on every element. *)
Definition touches (W : list string) (d d' : document) : Prop :=
  same_shape d' d ∧ ∀ a q, a ∉ W → attr_at a q d' = attr_at a q d.

Lemma touches_refl W d : touches W d d.
Proof. by split. Qed.

Lemma touches_trans W d1 d2 d3 :
  touches W d1 d2 → touches W d2 d3 → touches W d1 d3.
Proof.
  intros [S1 A1] [S2 A2]. split; [by eapply same_shape_trans|].
  intros a q Ha. by rewrite A2, A1.
Qed.

Lemma touches_alter_at W g p d :
  attr_only g →
  (∀ n a, a ∉ W → getAttribute a (g n) = getAttribute a n) →
  touches W d (alter_at g p d).
Proof.
  intros Hg Hw. split; [by apply skel_alter_at|]. intros a q Ha.
  destruct (decide (p = q)) as [->|Hne]; [|by apply attr_at_alter_at_ne].
  unfold attr_at. rewrite get_node_alter_at_eq.
  destruct (get_node q d) as [n|]; [|done]. cbn. by apply Hw.
Qed.

Lemma touches_set_at W b v p d : b ∈ W → touches W d (set_at b v p d).
Proof.
  intros Hb. apply touches_alter_at; [apply attr_only_setAttribute|].
  intros n a Ha. apply getAttribute_setAttribute_ne. by intros ->.
Qed.

Lemma touches_then_set_at W b v p d d1 :
  b ∈ W → touches W d d1 → touches W d (set_at b v p d1).
Proof. intros Hb H. eapply touches_trans; [exact H|by apply touches_set_at]. Qed.

Lemma attr_only_classList_add c : attr_only (classList_add c).
Proof. intros [s|t l ks]; cbn; eauto. Qed.

Lemma attr_only_warn text : attr_only (warn text).
Proof.
  apply (attr_only_compose (classList_add "a11y-warning")
           (setAttribute "data-a11y-warning" text)).
  - apply attr_only_classList_add.
  - apply attr_only_setAttribute.
Qed.

Lemma attr_only_default_scope : attr_only default_scope.
Proof. intros [s|t l ks]; cbn; eauto. Qed.

Lemma touches_warn W text p d :
  "class" ∈ W → "data-a11y-warning" ∈ W → touches W d (alter_at (warn text) p d).
Proof.
  intros H1 H2. apply touches_alter_at; [apply attr_only_warn|].
  intros n a Ha. unfold warn, classList_add.
  rewrite !getAttribute_setAttribute_ne; [done|by intros <-..].
Qed.

Lemma for_each_touches W (step : document → path → document) ps :
  (∀ d p, touches W d (step d p)) → ∀ d, touches W d (for_each step ps d).
Proof.
  intros Hs. induction ps as [|p ps IH]; intros d; [apply touches_refl|].
  cbn [for_each fold_left]. eapply touches_trans; [apply Hs|apply IH].
Qed.

Lemma fold_state_touches {A} W (step : state → A → state) l :
  (∀ s x, touches W s.1 (step s x).1) →
  ∀ s, touches W s.1 (fold_left step l s).1.
Proof.
  intros Hs. induction l as [|x l IH]; intros s; [apply touches_refl|].
  cbn [fold_left]. eapply touches_trans; [apply Hs|apply IH].
Qed.

Ltac listed := by apply (bool_decide_unpack _).
Ltac branch :=
  match goal with |- touches _ _ (if ?c then _ else _) => destruct c end.

(** *** Headings *)

Definition heading_writes : list string := ["id"; "tabindex"; "aria-level"].

Lemma enhanceHeadings_touches d : touches heading_writes d (enhanceHeadings d).
Proof.
  apply for_each_touches. intros d0 p.
  apply touches_alter_at; [apply attr_only_heading_step|].
  intros n a Ha. unfold heading_step.
  assert (a ≠ "id") by (intros ->; apply Ha; listed).
  assert (a ≠ "tabindex") by (intros ->; apply Ha; listed).
  assert (a ≠ "aria-level") by (intros ->; apply Ha; listed).
  destruct (truthy (id_of n)); destruct (_ && _);
    by rewrite ?getAttribute_setAttribute_ne by done.
Qed.

(** *** Links *)

Definition link_writes : list string :=
  ["rel"; "aria-label"; "tabindex"; "class"; "data-a11y-warning"].

Lemma external_link_touches W link d :
  "rel" ∈ W → "aria-label" ∈ W → touches W d (external_link link d).
Proof.
  intros Hr Hl. unfold external_link.
  set (d1 := if not_value _ then _ else d).
  assert (touches W d d1) as H1.
  { subst d1. branch; [by apply touches_set_at|apply touches_refl]. }
  eapply touches_trans; [exact H1|].
  branch; [by apply touches_set_at|apply touches_refl].
Qed.

Lemma anchor_link_touches W href link d :
  "tabindex" ∈ W → "aria-label" ∈ W → touches W d (anchor_link href link d).
Proof.
  intros Ht Hl. unfold anchor_link.
  destruct (getElementById _ d) as [t|]; [|apply touches_refl].
  set (d1 := if has_attr_at _ _ _ then d else _).
  assert (touches W d d1) as H1.
  { subst d1. branch; [apply touches_refl|by apply touches_set_at]. }
  eapply touches_trans; [exact H1|].
  branch; [by apply touches_set_at|apply touches_refl].
Qed.

Lemma accessible_text_touches W link d :
  "aria-label" ∈ W → "class" ∈ W → "data-a11y-warning" ∈ W →
  touches W d (accessible_text link d).
Proof.
  intros Hl Hc Hw. unfold accessible_text. branch; [|apply touches_refl].
  destruct (_ ≫= _) as [alt|]; [branch|];
    first [by apply touches_set_at | by apply touches_warn].
Qed.

Lemma link_step_touches d link : touches link_writes d (link_step d link).
Proof.
  unfold link_step. destruct (attr_at "href" link d) as [href|]; [|apply touches_refl].
  branch; [apply touches_refl|].
  set (d1 := if _ || _ then _ else d).
  assert (touches link_writes d d1) as H1.
  { subst d1. branch; [apply external_link_touches; listed|apply touches_refl]. }
  set (d2 := if startsWith href "#" then _ else d1).
  assert (touches link_writes d d2) as H2.
  { subst d2. branch; [|done].
    eapply touches_trans; [exact H1|apply anchor_link_touches; listed]. }
  eapply touches_trans; [exact H2|apply accessible_text_touches; listed].
Qed.

(** *** Tables *)

Definition table_writes : list string :=
  ["role"; "scope"; "id"; "aria-labelledby"; "aria-label"].

Lemma fresh_id_touches W prefix el (s : state) :
  "id" ∈ W → touches W s.1 (fresh_id random_id prefix el s).1.
Proof.
  intros H. unfold fresh_id. destruct (truthy _); [apply touches_refl|].
  by apply touches_set_at.
Qed.

Lemma table_caption_touches table (s : state) :
  touches table_writes s.1 (table_caption random_id table s).1.
Proof.
  unfold table_caption. destruct (querySelector_in _ _ _); [apply touches_refl|].
  destruct (previousElementSibling table s.1) as [pc|].
  - destruct (default false _).
    + cbn [fst]. eapply touches_trans; [apply fresh_id_touches; listed|].
      apply touches_set_at; listed.
    + destruct (has_attr_at _ _ _); [apply touches_refl|apply touches_set_at; listed].
  - destruct (has_attr_at _ _ _); [apply touches_refl|apply touches_set_at; listed].
Qed.

Lemma table_step_touches (s : state) table :
  touches table_writes s.1 (table_step random_id s table).1.
Proof.
  unfold table_step.
  set (d1 := set_at "role" "table" table s.1).
  set (d2 := for_each _ _ d1).
  assert (touches table_writes s.1 d2) as H2.
  { apply (touches_trans _ _ d1); [unfold d1; apply touches_set_at; listed|].
    apply for_each_touches. intros d p.
    apply touches_alter_at; [apply attr_only_default_scope|].
    intros n a Ha. unfold default_scope.
    apply getAttribute_setAttribute_ne. intros <-. apply Ha. listed. }
  pose proof (table_caption_touches table (d2, s.2)) as H3.
  destruct (table_caption random_id table (d2, s.2)) as [d3 n]. cbn [fst] in *.
  eapply touches_trans; [exact H2|]. eapply touches_trans; [exact H3|].
  eapply touches_trans;
    apply for_each_touches; intros; apply touches_set_at; listed.
Qed.

(** *** Forms *)

Definition form_writes : list string :=
  ["id"; "aria-labelledby"; "aria-label"; "class"; "data-a11y-warning";
   "aria-required"].

Lemma form_step_touches (s : state) form :
  touches form_writes s.1 (form_step random_id s form).1.
Proof.
  unfold form_step. destruct (_ && _); [|apply touches_refl].
  destruct (querySelector_in _ _ _) as [h|].
  - cbn [fst]. eapply touches_trans; [apply fresh_id_touches; listed|].
    apply touches_set_at; listed.
  - apply touches_set_at; listed.
Qed.

Lemma input_step_touches (s s' : state) input :
  input_step random_id parse_selector s input = Ret s' →
  touches form_writes s.1 s'.1.
Proof.
  unfold input_step. destruct (bool_decide _); [intros [= <-]; apply touches_refl|].
  set (s1 := if negb (truthy (id_at input s.1))
             then (set_at "id" ("input-" +:+ random_id s.2) input s.1, S s.2)
             else s).
  assert (touches form_writes s.1 s1.1) as H1.
  { subst s1. destruct (negb _); [apply touches_set_at; listed|apply touches_refl]. }
  destruct (if truthy _ then _ else _) as [b|msg]; [|done]. cbn [obind].
  intros [= <-]. cbn [fst].
  set (d2 := if negb _ then _ else s1.1).
  assert (touches form_writes s.1 d2) as H2.
  { subst d2. branch; [|done].
    eapply touches_trans; [exact H1|apply touches_warn; listed]. }
  eapply touches_trans; [exact H2|].
  branch; [apply touches_set_at; listed|apply touches_refl].
Qed.

Lemma for_each_throwing_touches l : ∀ (s s' : state),
  for_each_throwing (input_step random_id parse_selector) l s = Ret s' →
  touches form_writes s.1 s'.1.
Proof.
  induction l as [|x l IH]; intros s s'; [intros [= <-]; apply touches_refl|].
  cbn [for_each_throwing].
  destruct (input_step random_id parse_selector s x) as [s1|msg] eqn:E; [|done].
  cbn [obind]. intros H.
  eapply touches_trans; [by eapply input_step_touches|by apply IH].
Qed.

Lemma enhanceForms_touches (s s' : state) :
  enhanceForms random_id parse_selector s = Ret s' → touches form_writes s.1 s'.1.
Proof.
  unfold enhanceForms. intros H.
  eapply touches_trans; [|by eapply for_each_throwing_touches].
  apply (fold_state_touches _ (form_step random_id) _ form_step_touches).
Qed.

(** *** Code blocks *)

Definition code_writes : list string := ["tabindex"; "role"; "aria-label"].

Lemma code_step_touches d c : touches code_writes d (code_step d c).
Proof.
  unfold code_step. destruct (closest _ c d) as [pre|]; [|apply touches_refl].
  apply touches_then_set_at; [listed|]. apply touches_then_set_at; [listed|].
  apply touches_set_at; listed.
Qed.

(** X15. The passes over headings, links, tables, forms and code blocks
    write attributes and nothing else: the tree they leave has the
    elements and the texts of the tree they were given, at the same
    places, and so the same answer to every query by tag. *)
Theorem attribute_passes_keep_shape (d : document) (n : nat) :
  same_shape (enhanceHeadings d) d ∧
  same_shape (enhanceLinks d) d ∧
  same_shape (enhanceTables random_id (d, n)).1 d ∧
  (∀ s', enhanceForms random_id parse_selector (d, n) = Ret s' → same_shape s'.1 d) ∧
  same_shape (enhanceCodeBlocks d) d ∧
  (∀ d', same_shape d' d →
     (∀ p, tag_at p d' = tag_at p d ∧ text_at p d' = text_at p d) ∧
     (∀ ts, querySelectorAll (tags_sel ts) d' = querySelectorAll (tags_sel ts) d)).
Proof.
  split; [apply enhanceHeadings_touches|].
  split; [apply (for_each_touches link_writes), link_step_touches|].
  split; [apply (fold_state_touches _ (table_step random_id) _ table_step_touches (d, n))|].
  split; [intros s' H; by apply (enhanceForms_touches (d, n) s')|].
  split; [apply (for_each_touches code_writes), code_step_touches|].
  intros d' H. split.
  - intros p. by rewrite (same_shape_tag d' d), (same_shape_text d' d).
  - intros ts. by apply same_shape_query.
Qed.

(** X16. Each of these passes writes a few attributes only; every other
    attribute of every element, [href], [src], [alt], [lang], [for],
    [type] and [aria-hidden] among them, is after the pass what it was
    before. *)
Theorem attribute_passes_footprint (d : document) (n : nat) (a : string) (q : path) :
  (a ∉ heading_writes → attr_at a q (enhanceHeadings d) = attr_at a q d) ∧
  (a ∉ link_writes → attr_at a q (enhanceLinks d) = attr_at a q d) ∧
  (a ∉ table_writes → attr_at a q (enhanceTables random_id (d, n)).1 = attr_at a q d) ∧
  (a ∉ form_writes →
   ∀ s', enhanceForms random_id parse_selector (d, n) = Ret s' →
         attr_at a q s'.1 = attr_at a q d) ∧
  (a ∉ code_writes → attr_at a q (enhanceCodeBlocks d) = attr_at a q d).
Proof.
  split; [apply enhanceHeadings_touches|].
  split; [apply (for_each_touches link_writes), link_step_touches|].
  split; [apply (fold_state_touches _ (table_step random_id) _ table_step_touches (d, n))|].
  split; [intros Ha s' H; by apply (enhanceForms_touches (d, n) s')|].
  apply (for_each_touches code_writes), code_step_touches.
Qed.

(** *** The [rel] of a link *)

Definition external (href : string) : bool :=
  startsWith href "http://" || startsWith href "https://".

(** The link pass gives this element a [rel]: it is a link to another
    site and has no [rel], or an empty one. *)
Definition lacks_rel (d : document) (q : path) : bool :=
  match attr_at "href" q d with
  | Some href => truthy href && external href && not_value (attr_at "rel" q d)
  | None => false
  end.

Lemma attr_at_set_at_eq a v p d :
  is_Some (attr_at "href" p d) → attr_at a p (set_at a v p d) = Some v.
Proof.
  unfold attr_at, set_at. rewrite get_node_alter_at_eq.
  destruct (get_node p d) as [[s|t l ks]|]; cbn; [by intros [? ?]| |by intros [? ?]].
  intros _. apply lookup_set_attr_eq.
Qed.

Definition beside_rel : list string :=
  ["aria-label"; "tabindex"; "class"; "data-a11y-warning"].

Lemma rel_kept d d' q : touches beside_rel d d' → attr_at "rel" q d' = attr_at "rel" q d.
Proof. intros [_ H]. apply H. listed. Qed.

Lemma href_kept d d' q : touches link_writes d d' → attr_at "href" q d' = attr_at "href" q d.
Proof. intros [_ H]. apply H. listed. Qed.

Lemma external_link_rel d link q :
  is_Some (attr_at "href" link d) →
  attr_at "rel" q (external_link link d) =
  if bool_decide (q = link) && not_value (attr_at "rel" link d)
  then Some "noopener noreferrer" else attr_at "rel" q d.
Proof.
  intros Hh. unfold external_link.
  set (d1 := if not_value (attr_at "rel" link d)
             then set_at "rel" "noopener noreferrer" link d else d).
  assert (attr_at "rel" q d1 =
          if bool_decide (q = link) && not_value (attr_at "rel" link d)
          then Some "noopener noreferrer" else attr_at "rel" q d) as H1.
  { subst d1. destruct (not_value _); [|by rewrite andb_false_r].
    rewrite andb_true_r. destruct (bool_decide_reflect (q = link)) as [->|Hne].
    - by apply attr_at_set_at_eq.
    - apply attr_at_alter_at_ne; [apply attr_only_setAttribute|done]. }
  rewrite <- H1.
  match goal with |- attr_at _ _ (if ?c then _ else _) = _ => destruct c end; [|done].
  apply rel_kept, touches_set_at. listed.
Qed.

Lemma link_step_rel d link q :
  attr_at "rel" q (link_step d link) =
  if bool_decide (q = link) && lacks_rel d link then Some "noopener noreferrer"
  else attr_at "rel" q d.
Proof.
  unfold link_step, lacks_rel.
  destruct (attr_at "href" link d) as [href|] eqn:Eh; [|by rewrite andb_false_r].
  destruct (truthy href); cbn [negb andb]; [|by rewrite andb_false_r].
  set (d1 := if external href then external_link link d else d).
  change (startsWith href "http://" || startsWith href "https://")
    with (external href).
  fold d1.
  set (d2 := if startsWith href "#" then anchor_link href link d1 else d1).
  rewrite (rel_kept d2) by (apply accessible_text_touches; listed).
  assert (attr_at "rel" q d2 = attr_at "rel" q d1) as ->.
  { subst d2. destruct (startsWith href "#"); [|done].
    apply rel_kept, anchor_link_touches; listed. }
  subst d1. destruct (external href); [|by rewrite andb_false_r].
  apply external_link_rel. rewrite Eh. by eexists.
Qed.

Lemma lacks_rel_step d link q :
  q ≠ link → lacks_rel (link_step d link) q = lacks_rel d q.
Proof.
  intros Hne. unfold lacks_rel.
  rewrite (href_kept d _ q (link_step_touches d link)), link_step_rel.
  by rewrite bool_decide_eq_false_2.
Qed.

Lemma for_each_link_step_rel ps : ∀ d q,
  NoDup ps →
  attr_at "rel" q (for_each link_step ps d) =
  if bool_decide (q ∈ ps) && lacks_rel d q then Some "noopener noreferrer"
  else attr_at "rel" q d.
Proof.
  induction ps as [|p ps IH]; intros d q Hnd; [done|].
  apply NoDup_cons in Hnd as [Hp Hnd].
  cbn [for_each fold_left]. fold (for_each link_step ps (link_step d p)).
  rewrite (IH _ q Hnd), link_step_rel.
  destruct (decide (q = p)) as [->|Hne].
  - rewrite (bool_decide_eq_false_2 (p ∈ ps)) by done.
    rewrite !bool_decide_eq_true_2 by (done || left). done.
  - rewrite lacks_rel_step by done.
    rewrite (bool_decide_eq_false_2 (q = p)) by done. cbn [andb].
    assert (bool_decide (q ∈ p :: ps) = bool_decide (q ∈ ps)) as ->; [|done].
    apply bool_decide_ext. rewrite elem_of_cons. split; [by intros [?|?]|by right].
Qed.

(** X17. After the link pass the [rel] of an element is "noopener
    noreferrer" when the element is a link with a non-empty [href] that
    starts with [http://] or [https://] and had no [rel] or an empty
    one; on every other element, a link with a [rel] of its own
    included, the [rel] is what it was. *)
Theorem link_pass_rel (d : document) (q : path) :
  attr_at "rel" q (enhanceLinks d) =
  if bool_decide (q ∈ querySelectorAll (tag_sel "a") d) && lacks_rel d q
  then Some "noopener noreferrer"
  else attr_at "rel" q d.
Proof. apply for_each_link_step_rel, NoDup_querySelectorAll. Qed.

End footprints.

(** ** The Enhancer and the heading check *)

Section headings_after_enhancer.
Import Checker Enhancer.

Variable random_id : nat → string.
Variable parse_selector : string → outcome selector.

Definition is_heading (t : string) : bool := bool_decide (t ∈ heading_tags).

(** The tags of the headings among the elements of an outline. *)
Definition heading_tags_of (l : list (string * attrs_t)) : list string :=
  filter (λ t, is_heading t) l.*1.

Lemma heading_tags_of_app l1 l2 :
  heading_tags_of (l1 ++ l2) = heading_tags_of l1 ++ heading_tags_of l2.
Proof. unfold heading_tags_of. by rewrite fmap_app, filter_app. Qed.

Lemma heading_tags_of_cons t al l :
  heading_tags_of ((t, al) :: l) = (if is_heading t then [t] else []) ++ heading_tags_of l.
Proof.
  unfold heading_tags_of. rewrite fmap_cons. cbn [fst]. destruct (is_heading t) eqn:E.
  - by rewrite filter_cons_True by (cbn; rewrite E; exact I).
  - by rewrite filter_cons_False by (cbn; rewrite E; intros []).
Qed.

Lemma change_heading_tags skip n m :
  change random_id true skip n m →
  heading_tags_of (flat_node m) = heading_tags_of (flat_node n).
Proof.
  destruct 1 as [t al ks a v|t al ks v|t al ks Ht|t al ks s Ht|t al ks s Hs|t al ks Ht
                |t al ks Hk Ht]; rewrite ?flat_node_elem, !heading_tags_of_cons;
    apply (f_equal (app _)); try done.
  - rewrite flat_app, heading_tags_of_app.
    change (flat [Elem "title" [] [Text s]]) with [("title", @nil (string * string))].
    by rewrite app_nil_r.
  - rewrite (flat_text_only ks) by auto. by destruct (truthy s).
  - rewrite flat_cons, flat_node_elem.
    change (flat []) with (@nil (string * attrs_t)).
    by rewrite app_nil_r, heading_tags_of_cons.
Qed.

Lemma reach_heading_tags skip d d' :
  reach random_id true skip d d' →
  heading_tags_of (flat d') = heading_tags_of (flat d).
Proof.
  intros Hr.
  apply (reach_flat random_id true skip
           (λ l, heading_tags_of l = heading_tags_of (flat d)) d d'); [|done|done].
  intros n m l1 l2 Hc. rewrite !heading_tags_of_app.
  by rewrite (change_heading_tags skip n m Hc).
Qed.

Lemma flat_tags d : (flat d).*1 = (λ pn, node_tag pn.2) <$> walk d.
Proof.
  rewrite <- outline_flat. unfold outline, outline_from.
  rewrite <- !list_fmap_compose. by apply list_fmap_ext.
Qed.

Lemma headings_of_tags d : node_tag <$> headings_of d = heading_tags_of (flat d).
Proof.
  unfold headings_of, headings_selector, heading_tags_of.
  rewrite select_tags, flat_tags, <- list_fmap_compose.
  apply (filter_fmap_ext (λ pn : path * node, node_tag pn.2)).
  eapply Forall_impl; [apply walk_elems|]. intros [q n] He. unfold tagged.
  cbn in *. by rewrite He.
Qed.

Lemma heading_turn_tag prev h h' :
  node_tag h = node_tag h' →
  message <$> (heading_turn prev h).1 = message <$> (heading_turn prev h').1 ∧
  (heading_turn prev h).2 = (heading_turn prev h').2.
Proof.
  intros H. unfold heading_turn, level_of, tagName. rewrite H. cbn [fst snd].
  split; [|done]. by repeat case_match.
Qed.

Lemma heading_loop_messages hs : ∀ hs' prev,
  node_tag <$> hs = node_tag <$> hs' →
  message <$> heading_loop prev hs = message <$> heading_loop prev hs'.
Proof.
  induction hs as [|h hs IH]; intros [|h' hs'] prev H; try done.
  injection H as Hh Hhs. cbn [heading_loop].
  destruct (heading_turn_tag prev h h' Hh) as [H1 H2].
  destruct (heading_turn prev h) as [p1 l1], (heading_turn prev h') as [p2 l2].
  cbn [fst snd] in *. subst l2. by rewrite !fmap_app, H1, (IH hs' l1 Hhs).
Qed.

Lemma has_h1 d :
  is_Some (querySelector (tag_sel "h1") d) ↔ "h1" ∈ node_tag <$> headings_of d.
Proof.
  split.
  - intros [p Hp]. apply querySelector_elem in Hp.
    apply list_elem_of_fmap in Hp as ([q n] & -> & Hin).
    apply elem_of_select in Hin as [Hm Hw]. rewrite matches_tag in Hm.
    apply andb_true_iff in Hm as [He Ht]. apply String.eqb_eq in Ht.
    apply list_elem_of_fmap. exists n. split; [done|].
    apply list_elem_of_fmap. exists (q, n). split; [done|].
    apply elem_of_select. split; [|done]. unfold headings_selector.
    rewrite matches_tags. cbn in *.
    rewrite He, Ht. by apply bool_decide_eq_true_2, (bool_decide_unpack _).
  - intros (n & Ht & Hn)%list_elem_of_fmap.
    by apply (heading_found_by_tag d "h1" n).
Qed.

Lemma heading_check_by_tags d d' :
  node_tag <$> headings_of d' = node_tag <$> headings_of d →
  message <$> checkHeadingHierarchy d' = message <$> checkHeadingHierarchy d.
Proof.
  intros H. unfold checkHeadingHierarchy. fold (headings_of d) (headings_of d').
  assert (length (headings_of d') = length (headings_of d)) as ->
    by (by rewrite <- (length_fmap node_tag), H, length_fmap).
  destruct (length (headings_of d) =? 0)%nat; [done|].
  rewrite !fmap_app, (heading_loop_messages _ _ _ H). f_equal.
  pose proof (has_h1 d) as H1. pose proof (has_h1 d') as H1'. rewrite H in H1'.
  destruct (querySelector (tag_sel "h1") d) as [p|],
           (querySelector (tag_sel "h1") d') as [p'|]; try done.
  - exfalso. destruct (proj2 H1') as [? ?]; [|done]. apply H1. by eexists.
  - exfalso. destruct (proj2 H1) as [? ?]; [|done]. apply H1'. by eexists.
Qed.

(** X18. The Enhancer adds no heading, removes none and changes the level of
    none: the heading check says of the result, message for message,
    what it says of the tree the Enhancer was given. *)
Theorem heading_check_after_enhancer (d : document) (fm : frontmatter) (d' : document) :
  title_text_only d = true →
  enhanceWithAria random_id parse_selector d fm = Ret d' →
  node_tag <$> headings_of d' = node_tag <$> headings_of d ∧
  message <$> checkHeadingHierarchy d' = message <$> checkHeadingHierarchy d.
Proof.
  intros Hwf Hrun.
  destruct (reach_before_skip random_id parse_selector (strict := true) (skip := true)
              d fm d' (λ _, Hwf) Hrun) as (d8 & Hr & ->).
  assert (node_tag <$> headings_of (addSkipNavigation d8) = node_tag <$> headings_of d)
    as H.
  { rewrite !headings_of_tags. apply (reach_heading_tags true).
    eapply reach_trans; [exact Hr|]. by apply reach_addSkipNavigation. }
  split; [done|]. by apply heading_check_by_tags.
Qed.

End headings_after_enhancer.

(** ** The tables pass *)

Section table_pass.
Import Enhancer.

Variable random_id : nat → string.

(** The [role] the pass writes on an element of a table. *)
Definition table_role (t : string) : option string :=
  if String.eqb t "table" then Some "table"
  else if String.eqb t "tr" then Some "row"
  else if String.eqb t "td" then Some "cell"
  else None.

(** [th.getAttribute('scope') || 'col'] *)
Definition scope_or_col (before : option string) : string :=
  match before with
  | Some sc => if truthy sc then sc else "col"
  | None => "col"
  end.

(** The writes of the step for the table [T]. *)
Inductive table_write (T : path) (d : document) : document → Prop :=
| tw_role p r :
    table_role (tag_at p d) = Some r → table_write T d (set_at "role" r p d)
| tw_scope p : table_write T d (alter_at default_scope p d)
| tw_id p v :
    truthy (id_at p d) = false → table_write T d (set_at "id" v p d)
| tw_labelledby v : table_write T d (set_at "aria-labelledby" v T d)
| tw_label :
    has_attr_at "aria-label" T d = false →
    table_write T d (set_at "aria-label" "Table" T d).

Lemma rtc_inv {A} (R : relation A) (I : A → Prop) :
  (∀ x y, R x y → I x → I y) → ∀ x y, rtc R x y → I x → I y.
Proof. intros H x y. induction 1; eauto. Qed.

Lemma fold_left_inv {A B} (I : A → Prop) (step : A → B → A) l :
  (∀ a x, x ∈ l → I a → I (step a x)) → ∀ a, I a → I (fold_left step l a).
Proof.
  induction l as [|x l IH]; intros H a Ha; [done|]. cbn [fold_left].
  apply IH; [intros; apply H; [by right|done]|]. apply H; [by left|done].
Qed.

Lemma fold_left_settles {A B} (K I : A → Prop) (step : A → B → A) l q :
  q ∈ l →
  (∀ a x, x ∈ l → K a → K (step a x)) →
  (∀ a x, x ∈ l → I a → I (step a x)) →
  (∀ a, K a → I (step a q)) →
  ∀ a, K a → I (fold_left step l a).
Proof.
  induction l as [|x l IH]; intros Hq HK HI HE a Ha; [by apply elem_of_nil in Hq|].
  cbn [fold_left]. apply elem_of_cons in Hq as [->|Hq].
  - apply fold_left_inv; [intros; apply HI; [by right|done]|]. by apply HE.
  - apply IH; [done|intros; apply HK; [by right|done]
              |intros; apply HI; [by right|done]|done|].
    apply HK; [by left|done].
Qed.

Lemma attr_at_alter_at_keep g p q a d :
  attr_only g → (∀ n, getAttribute a (g n) = getAttribute a n) →
  attr_at a q (alter_at g p d) = attr_at a q d.
Proof.
  intros Hg Hk. destruct (decide (p = q)) as [->|Hne]; [|by apply attr_at_alter_at_ne].
  unfold attr_at. rewrite get_node_alter_at_eq.
  destruct (get_node q d); cbn; [apply Hk|done].
Qed.

Lemma attr_at_set_at_ne a b v p q d :
  a ≠ b → attr_at b q (set_at a v p d) = attr_at b q d.
Proof.
  intros Hne. apply attr_at_alter_at_keep; [apply attr_only_setAttribute|].
  intros n. by apply getAttribute_setAttribute_ne.
Qed.

Lemma attr_at_set_at_other a b v p q d :
  p ≠ q → attr_at b q (set_at a v p d) = attr_at b q d.
Proof. intros Hne. by apply attr_at_alter_at_ne; [apply attr_only_setAttribute|]. Qed.

(** The node at [q] is an element. *)
Definition elem_at (q : path) (d : document) : bool :=
  default false (is_elem <$> get_node q d).

Lemma same_shape_elem d d' q : same_shape d d' → elem_at q d = elem_at q d'.
Proof.
  intros H. unfold elem_at. pose proof (same_shape_get d d' q H) as E.
  destruct (get_node q d) as [n|], (get_node q d') as [n'|]; simplify_eq/=; [|done].
  by rewrite <- (is_elem_skel n), E, is_elem_skel.
Qed.

Lemma query_elem_at sel d p : p ∈ querySelectorAll sel d → elem_at p d = true.
Proof.
  intros (n & Hn & He & _)%querySelectorAll_get. unfold elem_at. by rewrite Hn.
Qed.

Lemma attr_elem_at a q d : is_Some (attr_at a q d) → elem_at q d = true.
Proof.
  unfold attr_at, elem_at. destruct (get_node q d) as [[s|t l ks]|]; cbn; try done;
    by intros [? ?].
Qed.

Lemma attr_at_set_at_elem a v q d :
  elem_at q d = true → attr_at a q (set_at a v q d) = Some v.
Proof.
  unfold elem_at, attr_at, set_at. rewrite get_node_alter_at_eq.
  destruct (get_node q d) as [[s|t l ks]|]; cbn; [done| |done].
  intros _. apply lookup_set_attr_eq.
Qed.

Lemma default_scope_attr n :
  is_elem n = true →
  getAttribute "scope" (default_scope n) = Some (scope_or_col (getAttribute "scope" n)).
Proof.
  intros He. unfold default_scope. rewrite getAttribute_setAttribute_eq by done.
  done.
Qed.

Lemma scope_or_col_fixed before :
  scope_or_col (Some (scope_or_col before)) = scope_or_col before.
Proof. destruct before as [[|c s]|]; done. Qed.

Lemma default_scope_at q d :
  scope_or_col (attr_at "scope" q (alter_at default_scope q d)) =
  scope_or_col (attr_at "scope" q d) ∧
  (elem_at q d = true →
   attr_at "scope" q (alter_at default_scope q d) =
   Some (scope_or_col (attr_at "scope" q d))).
Proof.
  unfold elem_at, attr_at. rewrite get_node_alter_at_eq.
  destruct (get_node q d) as [[s|t l ks]|]; cbn [fmap option_fmap option_map mbind
    option_bind default from_option id is_elem]; [done| |done].
  rewrite default_scope_attr by done. by rewrite scope_or_col_fixed.
Qed.

Lemma table_write_shape T d d' : table_write T d d' → same_shape d' d.
Proof.
  destruct 1; apply skel_alter_at;
    first [apply attr_only_setAttribute | apply attr_only_default_scope].
Qed.

Lemma table_writes_shape T d d' : rtc (table_write T) d d' → same_shape d' d.
Proof.
  induction 1 as [|d d1 d2 H _ IH]; [done|].
  eapply same_shape_trans; [exact IH|by eapply table_write_shape].
Qed.

Lemma for_each_writes T step ps :
  (∀ d p, p ∈ ps → rtc (table_write T) d (step d p)) →
  ∀ d, rtc (table_write T) d (for_each step ps d).
Proof.
  induction ps as [|p ps IH]; intros H d; [done|]. cbn [for_each fold_left].
  eapply rtc_trans; [apply H; by left|]. apply IH. intros; apply H. by right.
Qed.

(** *** The anatomy of a step *)

Lemma same_shape_query_in T t d d' :
  same_shape d d' →
  querySelectorAll_in T (tag_sel t) d = querySelectorAll_in T (tag_sel t) d'.
Proof. intros H. unfold querySelectorAll_in. by rewrite (same_shape_query_tag t d d'). Qed.

Lemma query_in_tag_at T t d p :
  p ∈ querySelectorAll_in T (tag_sel t) d → tag_at p d = t.
Proof. intros [_ H]%list_elem_of_filter. by apply query_tag_at. Qed.

Lemma query_in_elem_at T sel d p :
  p ∈ querySelectorAll_in T sel d → elem_at p d = true.
Proof. intros [_ H]%list_elem_of_filter. by eapply query_elem_at. Qed.

Lemma fresh_id_writes T prefix el (s : state) :
  rtc (table_write T) s.1 (fresh_id random_id prefix el s).1.
Proof.
  unfold fresh_id. destruct (truthy _) eqn:E; [done|]. cbn [fst].
  apply rtc_once. by apply tw_id.
Qed.

Lemma table_caption_writes T (s : state) :
  rtc (table_write T) s.1 (table_caption random_id T s).1.
Proof.
  unfold table_caption. destruct (querySelector_in _ _ _); [done|].
  destruct (previousElementSibling T s.1) as [pc|].
  - destruct (default false _).
    + cbn [fst]. eapply rtc_r; [apply fresh_id_writes|apply tw_labelledby].
    + destruct (has_attr_at _ _ _) eqn:E; [done|]. cbn [fst].
      apply rtc_once. by apply tw_label.
  - destruct (has_attr_at _ _ _) eqn:E; [done|]. cbn [fst].
    apply rtc_once. by apply tw_label.
Qed.

Lemma role_phase_writes T r t ps d0 :
  table_role t = Some r → (∀ p, p ∈ ps → tag_at p d0 = t) →
  ∀ d, same_shape d d0 →
       rtc (table_write T) d (for_each (λ d p, set_at "role" r p d) ps d).
Proof.
  intros Hr. induction ps as [|p ps IH]; intros Ht d Hd; [done|].
  cbn [for_each fold_left]. eapply rtc_l.
  - apply (tw_role T d p r). rewrite (same_shape_tag d d0) by done.
    rewrite Ht; [done|by left].
  - apply IH; [intros; apply Ht; by right|].
    eapply same_shape_trans; [|exact Hd]. apply skel_alter_at, attr_only_setAttribute.
Qed.

(** The step for the table [T], with its queries read on a tree [d0] of
    the same shape. *)
Definition scope_phase (T : path) (d0 d : document) : document :=
  for_each (λ d th, alter_at default_scope th d)
    (querySelectorAll_in T (tag_sel "th") d0) d.

Definition row_phase (T : path) (d0 d : document) : document :=
  for_each (λ d row, set_at "role" "row" row d)
    (querySelectorAll_in T (tag_sel "tr") d0) d.

Definition cell_phase (T : path) (d0 d : document) : document :=
  for_each (λ d cell, set_at "role" "cell" cell d)
    (querySelectorAll_in T (tag_sel "td") d0) d.

Lemma scope_phase_writes T d0 d : rtc (table_write T) d (scope_phase T d0 d).
Proof. apply for_each_writes. intros d1 p _. apply rtc_once, tw_scope. Qed.

Lemma row_phase_writes T d0 d :
  same_shape d d0 → rtc (table_write T) d (row_phase T d0 d).
Proof.
  apply (role_phase_writes T "row" "tr"); [done|]. intros p. apply query_in_tag_at.
Qed.

Lemma cell_phase_writes T d0 d :
  same_shape d d0 → rtc (table_write T) d (cell_phase T d0 d).
Proof.
  apply (role_phase_writes T "cell" "td"); [done|]. intros p. apply query_in_tag_at.
Qed.

Lemma table_step_anatomy (s : state) T d0 :
  same_shape s.1 d0 →
  (table_step random_id s T).1 =
  cell_phase T d0
    (row_phase T d0
       (table_caption random_id T
          (scope_phase T d0 (set_at "role" "table" T s.1), s.2)).1).
Proof.
  intros Hs. unfold table_step.
  set (d1 := set_at "role" "table" T s.1).
  assert (same_shape d1 d0) as H1.
  { eapply same_shape_trans; [|exact Hs]. apply skel_alter_at, attr_only_setAttribute. }
  rewrite (same_shape_query_in T "th" d1 d0 H1). fold (scope_phase T d0 d1).
  assert (same_shape (scope_phase T d0 d1) d0) as H2.
  { eapply same_shape_trans; [|exact H1].
    eapply table_writes_shape, (scope_phase_writes T). }
  pose proof (table_writes_shape T _ _
                (table_caption_writes T (scope_phase T d0 d1, s.2))) as H3.
  destruct (table_caption random_id T (scope_phase T d0 d1, s.2)) as [d3 n].
  cbn [fst snd] in *.
  assert (same_shape d3 d0) as H3' by (by eapply same_shape_trans).
  rewrite (same_shape_query_in T "tr" d3 d0 H3'). fold (row_phase T d0 d3).
  assert (same_shape (row_phase T d0 d3) d0) as H4.
  { eapply same_shape_trans; [|exact H3'].
    by eapply table_writes_shape, (row_phase_writes T). }
  by rewrite (same_shape_query_in T "td" _ d0 H4).
Qed.

Lemma table_step_writes (s : state) T :
  tag_at T s.1 = "table" → rtc (table_write T) s.1 (table_step random_id s T).1.
Proof.
  intros Ht. rewrite (table_step_anatomy s T s.1) by done.
  set (d1 := set_at "role" "table" T s.1).
  assert (rtc (table_write T) s.1 d1) as W1.
  { apply rtc_once, tw_role. by rewrite Ht. }
  pose proof (scope_phase_writes T s.1 d1) as W2.
  pose proof (table_caption_writes T (scope_phase T s.1 d1, s.2)) as W3.
  cbn [fst] in W3.
  set (d3 := (table_caption random_id T (scope_phase T s.1 d1, s.2)).1) in *.
  assert (rtc (table_write T) s.1 d3) as W13.
  { eapply rtc_trans; [exact W1|]. eapply rtc_trans; [exact W2|exact W3]. }
  assert (same_shape d3 s.1) as H3 by (by eapply table_writes_shape).
  pose proof (row_phase_writes T s.1 d3 H3) as W4.
  assert (same_shape (row_phase T s.1 d3) s.1) as H4.
  { eapply same_shape_trans; [|exact H3]. by eapply table_writes_shape. }
  eapply rtc_trans; [exact W13|]. eapply rtc_trans; [exact W4|].
  by apply cell_phase_writes.
Qed.

(** *** A role, once right, stays *)

Section role_settled.
Variables (q : path) (r : string) (d0 : document).
Hypothesis Hr : table_role (tag_at q d0) = Some r.

Definition role_set (d : document) : Prop :=
  same_shape d d0 ∧ attr_at "role" q d = Some r.

Lemma role_set_write T d d' : table_write T d d' → role_set d → role_set d'.
Proof.
  intros Hw [Hs Ha].
  split; [eapply same_shape_trans; [by eapply table_write_shape|done]|].
  destruct Hw as [p r' Hp|p|p v Hp|v|Hl].
  - destruct (decide (p = q)) as [->|Hne].
    + rewrite (same_shape_tag d d0), Hr in Hp by done. injection Hp as <-.
      apply attr_at_set_at_elem. apply (attr_elem_at "role"). by rewrite Ha.
    + by rewrite attr_at_set_at_other.
  - rewrite attr_at_alter_at_keep; [done|apply attr_only_default_scope|].
    intros n. unfold default_scope. by apply getAttribute_setAttribute_ne.
  - by rewrite attr_at_set_at_ne.
  - by rewrite attr_at_set_at_ne.
  - by rewrite attr_at_set_at_ne.
Qed.

Lemma role_set_writes T d d' : rtc (table_write T) d d' → role_set d → role_set d'.
Proof. apply rtc_inv, role_set_write. Qed.

Lemma role_phase_settles t ps d :
  table_role t = Some r → q ∈ ps → (∀ p, p ∈ ps → tag_at p d0 = t) →
  elem_at q d0 = true → same_shape d d0 →
  role_set (for_each (λ d p, set_at "role" r p d) ps d).
Proof.
  intros Ht Hq Hps He Hd.
  apply (fold_left_settles (λ d, same_shape d d0) role_set _ ps q); [done| | | |done].
  - intros a x _ Ha. eapply same_shape_trans; [|exact Ha].
    apply skel_alter_at, attr_only_setAttribute.
  - intros a x Hx Ha. apply (role_set_write q a); [|done].
    apply tw_role. rewrite (same_shape_tag a d0) by apply Ha. by rewrite Hps.
  - intros a Ha. split.
    + eapply same_shape_trans; [|exact Ha].
      apply skel_alter_at, attr_only_setAttribute.
    + apply attr_at_set_at_elem. by rewrite (same_shape_elem a d0).
Qed.

End role_settled.

(** *** A scope, once written, stays *)

Section scope_settled.
Variables (q : path) (d0 : document).

Definition scope_due (d : document) : Prop :=
  same_shape d d0 ∧
  scope_or_col (attr_at "scope" q d) = scope_or_col (attr_at "scope" q d0).

Definition scope_set (d : document) : Prop :=
  same_shape d d0 ∧
  attr_at "scope" q d = Some (scope_or_col (attr_at "scope" q d0)).

Lemma scope_write T d d' :
  table_write T d d' →
  attr_at "scope" q d' = attr_at "scope" q d ∨
  (d' = alter_at default_scope q d).
Proof.
  destruct 1 as [p r' Hp|p|p v Hp|v|Hl];
    [left; by apply attr_at_set_at_ne| |left; by apply attr_at_set_at_ne..].
  destruct (decide (p = q)) as [->|Hne]; [by right|left].
  by rewrite attr_at_alter_at_ne by (done || apply attr_only_default_scope).
Qed.

Lemma scope_due_write T d d' : table_write T d d' → scope_due d → scope_due d'.
Proof.
  intros Hw [Hs Ha].
  split; [eapply same_shape_trans; [by eapply table_write_shape|done]|].
  destruct (scope_write T d d' Hw) as [->| ->]; [done|].
  by rewrite (proj1 (default_scope_at q d)).
Qed.

Lemma scope_set_write T d d' : table_write T d d' → scope_set d → scope_set d'.
Proof.
  intros Hw [Hs Ha].
  split; [eapply same_shape_trans; [by eapply table_write_shape|done]|].
  destruct (scope_write T d d' Hw) as [->| ->]; [done|].
  assert (elem_at q d = true) as Ht.
  { apply (attr_elem_at "scope"). by rewrite Ha. }
  rewrite (proj2 (default_scope_at q d) Ht), Ha. by rewrite scope_or_col_fixed.
Qed.

End scope_settled.

(** *** After the pass *)

Lemma tables_settle (K I : document → Prop) (s : state) T :
  T ∈ querySelectorAll (tag_sel "table") s.1 →
  (∀ d, K d → same_shape d s.1) → (∀ d, I d → same_shape d s.1) →
  (∀ T' d d', table_write T' d d' → K d → K d') →
  (∀ T' d d', table_write T' d d' → I d → I d') →
  (∀ a : state, K a.1 → I (table_step random_id a T).1) →
  K s.1 → I (enhanceTables random_id s).1.
Proof.
  intros HT HKs HIs HK HI HE Hs. unfold enhanceTables.
  apply (fold_left_settles (λ a : state, K a.1) (λ a : state, I a.1) _ _ T);
    [done| | |done|done].
  - intros a x Hx Ha. apply (rtc_inv _ K (HK x) a.1); [|done].
    apply table_step_writes. rewrite (same_shape_tag a.1 s.1) by auto.
    by apply query_tag_at.
  - intros a x Hx Ha. apply (rtc_inv _ I (HI x) a.1); [|done].
    apply table_step_writes. rewrite (same_shape_tag a.1 s.1) by auto.
    by apply query_tag_at.
Qed.

Lemma set_role_shape r T d d0 : same_shape d d0 → same_shape (set_at "role" r T d) d0.
Proof.
  intros H. eapply same_shape_trans; [|exact H].
  apply skel_alter_at, attr_only_setAttribute.
Qed.

Lemma writes_shape T d d' d0 :
  rtc (table_write T) d d' → same_shape d d0 → same_shape d' d0.
Proof. intros H Hd. eapply same_shape_trans; [by eapply table_writes_shape|done]. Qed.

Lemma role_settles (s : state) T q r :
  T ∈ querySelectorAll (tag_sel "table") s.1 →
  table_role (tag_at q s.1) = Some r →
  (∀ a : state, same_shape a.1 s.1 → role_set q r s.1 (table_step random_id a T).1) →
  attr_at "role" q (enhanceTables random_id s).1 = Some r.
Proof.
  intros HT Hr HE.
  apply (tables_settle (λ d, same_shape d s.1) (role_set q r s.1) s T);
    [done|done|by intros d [? ?]| | |done|done].
  - intros T' d d' Hw Hd. eapply writes_shape; [by apply rtc_once|done].
  - intros T' d d'. by apply role_set_write.
Qed.

Lemma before_rows_shape (a : state) T d0 :
  same_shape a.1 d0 →
  same_shape (table_caption random_id T
                (scope_phase T d0 (set_at "role" "table" T a.1), a.2)).1 d0.
Proof.
  intros Ha. eapply writes_shape; [apply (table_caption_writes T (_, a.2))|].
  eapply writes_shape; [apply scope_phase_writes|]. by apply set_role_shape.
Qed.

(** X19. After the tables pass every [table] has the role [table], every
    [tr] inside a table the role [row] and every [td] inside a table the
    role [cell], whatever role they had; every [th] inside a table has a
    [scope], the one it had when that was not empty and [col]
    otherwise. *)
Theorem table_pass_roles (s : state) (T q : path) :
  T ∈ querySelectorAll (tag_sel "table") s.1 →
  attr_at "role" T (enhanceTables random_id s).1 = Some "table" ∧
  (q ∈ querySelectorAll_in T (tag_sel "tr") s.1 →
   attr_at "role" q (enhanceTables random_id s).1 = Some "row") ∧
  (q ∈ querySelectorAll_in T (tag_sel "td") s.1 →
   attr_at "role" q (enhanceTables random_id s).1 = Some "cell") ∧
  (q ∈ querySelectorAll_in T (tag_sel "th") s.1 →
   attr_at "scope" q (enhanceTables random_id s).1 =
   Some (scope_or_col (attr_at "scope" q s.1))).
Proof.
  intros HT. split; [|split; [|split]].
  - assert (table_role (tag_at T s.1) = Some "table") as Hr
      by (by rewrite (query_tag_at "table" s.1 T HT)).
    apply (role_settles s T); [done|done|].
    intros a Ha. rewrite (table_step_anatomy a T s.1 Ha).
    set (d1 := set_at "role" "table" T a.1).
    assert (role_set T "table" s.1 d1) as H1.
    { split; [by apply set_role_shape|]. apply attr_at_set_at_elem.
      rewrite (same_shape_elem a.1 s.1) by done. by eapply query_elem_at. }
    assert (role_set T "table" s.1 (scope_phase T s.1 d1)) as H2.
    { eapply role_set_writes; [done|apply scope_phase_writes|done]. }
    assert (role_set T "table" s.1
              (table_caption random_id T (scope_phase T s.1 d1, a.2)).1) as H3.
    { eapply role_set_writes; [done| |exact H2].
      apply (table_caption_writes T (scope_phase T s.1 d1, a.2)). }
    eapply role_set_writes; [done|apply cell_phase_writes|].
    + eapply writes_shape; [apply row_phase_writes|]; apply H3.
    + eapply role_set_writes; [done|apply row_phase_writes|done]. apply H3.
  - intros Hq.
    assert (table_role (tag_at q s.1) = Some "row") as Hr
      by (by rewrite (query_in_tag_at _ _ _ _ Hq)).
    apply (role_settles s T); [done|done|].
    intros a Ha. rewrite (table_step_anatomy a T s.1 Ha).
    pose proof (before_rows_shape a T s.1 Ha) as H3.
    set (d3 := (table_caption random_id T _).1) in *.
    assert (role_set q "row" s.1 (row_phase T s.1 d3)) as H4.
    { apply (role_phase_settles q "row" s.1) with (t := "tr");
        [done|done|done|intros p; apply query_in_tag_at
        |by eapply query_in_elem_at|done]. }
    eapply role_set_writes; [done| |exact H4]. apply cell_phase_writes, H4.
  - intros Hq.
    assert (table_role (tag_at q s.1) = Some "cell") as Hr
      by (by rewrite (query_in_tag_at _ _ _ _ Hq)).
    apply (role_settles s T); [done|done|].
    intros a Ha. rewrite (table_step_anatomy a T s.1 Ha).
    pose proof (before_rows_shape a T s.1 Ha) as H3.
    set (d3 := (table_caption random_id T _).1) in *.
    apply (role_phase_settles q "cell" s.1) with (t := "td");
      [done|done|done|intros p; apply query_in_tag_at|by eapply query_in_elem_at|].
    eapply writes_shape; [apply row_phase_writes|]; done.
  - intros Hq.
    assert (∀ d, scope_set q s.1 d →
                 attr_at "scope" q d = Some (scope_or_col (attr_at "scope" q s.1)))
      as Hfin by (by intros d [_ ?]).
    apply Hfin.
    apply (tables_settle (scope_due q s.1) (scope_set q s.1) s T);
      [done|by intros d [? ?]|by intros d [? ?]| | | |done].
    + intros T' d d'. apply scope_due_write.
    + intros T' d d'. apply scope_set_write.
    + intros a Ha. rewrite (table_step_anatomy a T s.1 (proj1 Ha)).
      set (d1 := set_at "role" "table" T a.1).
      assert (scope_due q s.1 d1) as H1.
      { eapply (scope_due_write q s.1 T a.1); [|done]. apply tw_role.
        rewrite (same_shape_tag a.1 s.1) by apply Ha.
        by rewrite (query_tag_at "table" s.1 T HT). }
      assert (scope_set q s.1 (scope_phase T s.1 d1)) as H2.
      { apply (fold_left_settles (scope_due q s.1) (scope_set q s.1) _ _ q);
          [done| | | |done].
        - intros d x _. apply (scope_due_write q s.1 T), tw_scope.
        - intros d x _. apply (scope_set_write q s.1 T), tw_scope.
        - intros d [Hs Hd]. split.
          + eapply same_shape_trans; [|exact Hs].
            apply skel_alter_at, attr_only_default_scope.
          + rewrite (proj2 (default_scope_at q d)).
            * by rewrite Hd.
            * rewrite (same_shape_elem d s.1) by done. by eapply query_in_elem_at. }
      assert (scope_set q s.1
                (table_caption random_id T (scope_phase T s.1 d1, a.2)).1) as H3.
      { eapply (rtc_inv _ _ (scope_set_write q s.1 T)); [|exact H2].
        apply (table_caption_writes T (scope_phase T s.1 d1, a.2)). }
      eapply (rtc_inv _ _ (scope_set_write q s.1 T)); [apply cell_phase_writes|].
      * eapply writes_shape; [apply row_phase_writes|]; apply H3.
      * eapply (rtc_inv _ _ (scope_set_write q s.1 T)); [|exact H3].
        apply row_phase_writes, H3.
Qed.

(** *** The name of a table *)

Lemma same_shape_siblings d d' p :
  same_shape d d' → skel <$> siblings_of p d = skel <$> siblings_of p d'.
Proof.
  intros H. unfold siblings_of. destruct (removelast p) as [|i l]; [done|].
  pose proof (same_shape_get d d' (i :: l) H) as E.
  destruct (get_node (i :: l) d) as [n|], (get_node (i :: l) d') as [n'|];
    simplify_eq/=; [|done].
  destruct n, n'; simplify_eq/=; done.
Qed.

Lemma same_shape_previous d d' p :
  same_shape d d' → previousElementSibling p d = previousElementSibling p d'.
Proof.
  intros H. unfold previousElementSibling. destruct (last p) as [i|]; [|done].
  do 2 f_equal. apply list_filter_iff. intros j. rewrite !bool_decide_spec.
  assert (∀ d1, is_elem <$> siblings_of p d1 !! j =
                is_elem <$> (skel <$> siblings_of p d1) !! j) as E.
  { intros d1. rewrite list_lookup_fmap. destruct (siblings_of p d1 !! j); [|done].
    cbn. by rewrite is_elem_skel. }
  by rewrite (E d), (E d'), (same_shape_siblings d d' p H).
Qed.

Lemma same_shape_heading_tag d d' p :
  same_shape d d' →
  is_heading_tag <$> get_node p d = is_heading_tag <$> get_node p d'.
Proof.
  intros H. pose proof (same_shape_get d d' p H) as E.
  destruct (get_node p d) as [n|], (get_node p d') as [n'|]; simplify_eq/=; [|done].
  unfold is_heading_tag, tagName.
  by rewrite <- (node_tag_skel n), E, node_tag_skel.
Qed.

(** The heading just before the table, the one the pass takes for its
    caption. *)
Definition heading_before (T : path) (d : document) : option path :=
  match previousElementSibling T d with
  | Some pc => if default false (is_heading_tag <$> get_node pc d) then Some pc else None
  | None => None
  end.

Lemma same_shape_heading_before d d' T :
  same_shape d d' → heading_before T d = heading_before T d'.
Proof.
  intros H. unfold heading_before. rewrite (same_shape_previous d d' T H).
  destruct (previousElementSibling T d') as [pc|]; [|done].
  by rewrite (same_shape_heading_tag d d' pc H).
Qed.

Lemma heading_before_elem T d h : heading_before T d = Some h → elem_at h d = true.
Proof.
  unfold heading_before, elem_at. destruct (previousElementSibling T d) as [pc|]; [|done].
  destruct (get_node pc d) as [[t|t l ks]|] eqn:E; cbn; [done| |done].
  destruct (is_heading_tag _); [|done]. intros [= <-]. by rewrite E.
Qed.

Lemma table_caption_heading T (s : state) :
  table_caption random_id T s =
  match querySelector_in T (tag_sel "caption") s.1 with
  | Some _ => s
  | None =>
      match heading_before T s.1 with
      | Some h =>
          let s := fresh_id random_id "table-heading-" h s in
          (set_at "aria-labelledby" (id_at h s.1) T s.1, s.2)
      | None =>
          if has_attr_at "aria-label" T s.1 then s
          else (set_at "aria-label" "Table" T s.1, s.2)
      end
  end.
Proof.
  unfold table_caption, heading_before.
  destruct (querySelector_in _ _ _); [done|].
  destruct (previousElementSibling T s.1) as [pc|]; [|done].
  by destruct (default false _).
Qed.

Section table_name.
Variables (T : path) (d0 : document).

(** The two attributes that name the table stand as given. *)
Definition name_is (x y : option string) (d : document) : Prop :=
  same_shape d d0 ∧
  attr_at "aria-labelledby" T d = x ∧ attr_at "aria-label" T d = y.

(** The table is labelled by the element [h], which has an [id]. *)
Definition labelled_by (h : path) (d : document) : Prop :=
  same_shape d d0 ∧ truthy (id_at h d) = true ∧
  attr_at "id" h d = Some (id_at h d) ∧
  attr_at "aria-labelledby" T d = Some (id_at h d).

Lemma name_is_write T' x y d d' :
  T' ≠ T → table_write T' d d' → name_is x y d → name_is x y d'.
Proof.
  intros Hne Hw (Hs & Hx & Hy).
  split; [eapply same_shape_trans; [by eapply table_write_shape|done]|].
  destruct Hw as [p r' Hp|p|p v Hp|v|Hl].
  - by rewrite !attr_at_set_at_ne.
  - rewrite !attr_at_alter_at_keep; [done|apply attr_only_default_scope|
      |apply attr_only_default_scope|];
      intros n; unfold default_scope; by apply getAttribute_setAttribute_ne.
  - by rewrite !attr_at_set_at_ne.
  - by rewrite !attr_at_set_at_other.
  - by rewrite !attr_at_set_at_other.
Qed.

Lemma id_at_kept a q d d' :
  attr_at a q d' = attr_at a q d → a = "id" → id_at q d' = id_at q d.
Proof. intros H ->. unfold id_at. by rewrite H. Qed.

Lemma labelled_by_write T' h d d' :
  T' ≠ T → table_write T' d d' → labelled_by h d → labelled_by h d'.
Proof.
  intros Hne Hw (Hs & Ht & Hi & Hl).
  split; [eapply same_shape_trans; [by eapply table_write_shape|done]|].
  assert (attr_at "id" h d' = attr_at "id" h d ∧
          attr_at "aria-labelledby" T d' = attr_at "aria-labelledby" T d) as [E1 E2].
  { destruct Hw as [p r' Hp|p|p v Hp|v|Hl'].
    - by rewrite !attr_at_set_at_ne.
    - rewrite !attr_at_alter_at_keep; [done|apply attr_only_default_scope|
        |apply attr_only_default_scope|];
        intros n; unfold default_scope; by apply getAttribute_setAttribute_ne.
    - rewrite (attr_at_set_at_ne "id" "aria-labelledby") by done. split; [|done].
      apply attr_at_set_at_other. intros ->. congruence.
    - rewrite (attr_at_set_at_ne "aria-labelledby" "id") by done. split; [done|].
      by apply attr_at_set_at_other.
    - by rewrite !attr_at_set_at_ne. }
  unfold id_at in *. by rewrite E1, E2.
Qed.

Lemma name_is_touches W x y d d' :
  "aria-labelledby" ∉ W → "aria-label" ∉ W →
  touches W d d' → name_is x y d → name_is x y d'.
Proof.
  intros H1 H2 [Hs Ha] (Hd & Hx & Hy).
  split; [by eapply same_shape_trans|]. by rewrite !Ha.
Qed.

Lemma labelled_by_touches W h d d' :
  "aria-labelledby" ∉ W → "id" ∉ W →
  touches W d d' → labelled_by h d → labelled_by h d'.
Proof.
  intros H1 H2 [Hs Ha] (Hd & Ht & Hi & Hl).
  split; [by eapply same_shape_trans|]. unfold id_at in *. by rewrite !Ha.
Qed.

End table_name.

Lemma others_inv (I : document → Prop) T l d0 :
  (∀ x, x ∈ l → x ≠ T ∧ tag_at x d0 = "table") →
  (∀ d, I d → same_shape d d0) →
  (∀ T' d d', T' ≠ T → table_write T' d d' → I d → I d') →
  ∀ a : state, I a.1 → I (fold_left (table_step random_id) l a).1.
Proof.
  intros Hl Hs HI.
  apply (fold_left_inv (λ a : state, I a.1)). intros a x Hx Ha.
  destruct (Hl x Hx) as [Hne Ht].
  apply (rtc_inv _ I (λ d d', HI x d d' Hne) a.1); [|done].
  apply table_step_writes. by rewrite (same_shape_tag a.1 d0) by auto.
Qed.

Lemma truthy_prefixed c p x : truthy (String c p +:+ x) = true.
Proof. done. Qed.

Lemma fresh_id_labelled (s : state) prefix c h :
  elem_at h s.1 = true →
  let s' := fresh_id random_id (String c prefix) h s in
  truthy (id_at h s'.1) = true ∧ attr_at "id" h s'.1 = Some (id_at h s'.1).
Proof.
  intros He. unfold fresh_id. destruct (truthy (id_at h s.1)) eqn:E; cbn [fst].
  - split; [done|]. unfold id_at in *.
    destruct (attr_at "id" h s.1); [done|by cbn in E].
  - unfold id_at. rewrite attr_at_set_at_elem by done. by cbn.
Qed.

Lemma table_names (s : state) (T : path) :
  T ∈ querySelectorAll (tag_sel "table") s.1 →
  match querySelector_in T (tag_sel "caption") s.1, heading_before T s.1 with
  | Some _, _ =>
      attr_at "aria-labelledby" T (enhanceTables random_id s).1 =
        attr_at "aria-labelledby" T s.1 ∧
      attr_at "aria-label" T (enhanceTables random_id s).1 = attr_at "aria-label" T s.1
  | None, Some h =>
      truthy (id_at h (enhanceTables random_id s).1) = true ∧
      attr_at "aria-labelledby" T (enhanceTables random_id s).1 =
        Some (id_at h (enhanceTables random_id s).1)
  | None, None =>
      attr_at "aria-label" T (enhanceTables random_id s).1 =
        Some (default "Table" (attr_at "aria-label" T s.1))
  end.
Proof.
  intros HT. unfold enhanceTables.
  pose proof (NoDup_querySelectorAll (tag_sel "table") s.1) as Hnd.
  assert (∀ x, x ∈ querySelectorAll (tag_sel "table") s.1 → tag_at x s.1 = "table")
    as Htag by (intros x; apply query_tag_at).
  assert (elem_at T s.1 = true) as HeT by (by eapply query_elem_at).
  destruct (list_elem_of_split _ _ HT) as (l1 & l2 & E). rewrite E in Hnd, Htag.
  rewrite E, fold_left_app. cbn [fold_left].
  apply NoDup_app in Hnd as (_ & H1 & Hnd). apply NoDup_cons in Hnd as [H2 _].
  assert (∀ x, x ∈ l1 → x ≠ T ∧ tag_at x s.1 = "table") as Hl1.
  { intros x Hx. split; [intros ->; eapply H1; [done|by left]|].
    apply Htag, elem_of_app. by left. }
  assert (∀ x, x ∈ l2 → x ≠ T ∧ tag_at x s.1 = "table") as Hl2.
  { intros x Hx. split; [by intros ->|]. apply Htag, elem_of_app. right. by right. }
  set (x0 := attr_at "aria-labelledby" T s.1). set (y0 := attr_at "aria-label" T s.1).
  set (a1 := fold_left (table_step random_id) l1 s).
  assert (name_is T s.1 x0 y0 a1.1) as Ha1.
  { apply (others_inv (name_is T s.1 x0 y0) T l1 s.1 Hl1); [by intros d [? _]| |done].
    intros T' d d' Hne. by apply name_is_write. }
  pose proof (proj1 Ha1) as Hs1.
  rewrite (surjective_pairing (table_step random_id a1 T)).
  set (n2 := (table_step random_id a1 T).2).
  assert (∀ I : document → Prop,
            (∀ d, I d → same_shape d s.1) →
            (∀ T' d d', T' ≠ T → table_write T' d d' → I d → I d') →
            (∀ d d', touches ["role"] d d' → I d → I d') →
            I (table_caption random_id T
                 (scope_phase T s.1 (set_at "role" "table" T a1.1), a1.2)).1 →
            I (fold_left (table_step random_id) l2
                 ((table_step random_id a1 T).1, n2)).1) as Hrest.
  { intros I HIs HIw HIt H3.
    apply (others_inv I T l2 s.1 Hl2 HIs HIw ((table_step random_id a1 T).1, n2)).
    cbn [fst]. rewrite (table_step_anatomy a1 T s.1 Hs1).
    set (d3 := (table_caption random_id T
                  (scope_phase T s.1 (set_at "role" "table" T a1.1), a1.2)).1) in *.
    apply (HIt d3); [|done].
    apply (touches_trans _ _ (row_phase T s.1 d3)).
    - apply for_each_touches. intros d p. apply touches_set_at. by left.
    - apply for_each_touches. intros d p. apply touches_set_at. by left. }
  set (d2 := scope_phase T s.1 (set_at "role" "table" T a1.1)) in *.
  assert (touches ["role"; "scope"] a1.1 d2) as Ht2.
  { apply (touches_trans _ _ (set_at "role" "table" T a1.1));
      [apply touches_set_at; by left|].
    apply for_each_touches. intros d p.
    apply touches_alter_at; [apply attr_only_default_scope|].
    intros n a Ha. unfold default_scope. apply getAttribute_setAttribute_ne.
    intros <-. apply Ha. right. by left. }
  assert (name_is T s.1 x0 y0 d2) as Hd2.
  { apply (name_is_touches T s.1 ["role"; "scope"] x0 y0 a1.1); [| |done|done];
      by apply (bool_decide_unpack _). }
  pose proof (proj1 Hd2) as Hs2.
  rewrite table_caption_heading in Hrest. cbn [fst snd] in Hrest.
  rewrite (same_shape_heading_before d2 s.1 T Hs2) in Hrest.
  unfold querySelector_in in *.
  rewrite (same_shape_query_in T "caption" d2 s.1 Hs2) in Hrest.
  destruct (head (querySelectorAll_in T (tag_sel "caption") s.1)) as [c|].
  - assert (name_is T s.1 x0 y0
              (fold_left (table_step random_id) l2
                 ((table_step random_id a1 T).1, n2)).1) as (_ & Hx & Hy); [|done].
    apply Hrest; [by intros d [? _]| | |done].
    + intros T' d d' Hne. by apply name_is_write.
    + intros d d'. apply name_is_touches; by apply (bool_decide_unpack _).
  - destruct (heading_before T s.1) as [h|] eqn:Eh.
    + assert (labelled_by T s.1 h
                (fold_left (table_step random_id) l2
                   ((table_step random_id a1 T).1, n2)).1) as (_ & Ht & _ & Hl);
        [|done].
      apply Hrest; [by intros d [? _]| | |].
      * intros T' d d' Hne. by apply labelled_by_write.
      * intros d d'. apply labelled_by_touches; by apply (bool_decide_unpack _).
      * assert (elem_at h d2 = true) as Heh.
        { rewrite (same_shape_elem d2 s.1) by done. by eapply heading_before_elem. }
        destruct (fresh_id_labelled (d2, a1.2) "able-heading-" "t" h Heh) as [Ft Fi].
        change (String "t" "able-heading-") with "table-heading-" in *.
        set (s3 := fresh_id random_id "table-heading-" h (d2, a1.2)) in *.
        assert (same_shape s3.1 s.1) as Hs3.
        { eapply writes_shape; [apply (fresh_id_writes T _ h (d2, a1.2))|done]. }
        cbn [fst].
        assert (attr_at "id" h (set_at "aria-labelledby" (id_at h s3.1) T s3.1) =
                attr_at "id" h s3.1) as Ei by (by apply attr_at_set_at_ne).
        split; [eapply same_shape_trans; [|exact Hs3];
                apply skel_alter_at, attr_only_setAttribute|].
        unfold id_at in *. rewrite Ei. split; [done|]. split; [done|].
        apply attr_at_set_at_elem. rewrite (same_shape_elem s3.1 s.1) by done. done.
    + assert (name_is T s.1 x0 (Some (default "Table" y0))
                (fold_left (table_step random_id) l2
                   ((table_step random_id a1 T).1, n2)).1) as (_ & Hx & Hy); [|done].
      apply Hrest; [by intros d [? _]| | |].
      * intros T' d d' Hne. by apply name_is_write.
      * intros d d'. apply name_is_touches; by apply (bool_decide_unpack _).
      * destruct Hd2 as (_ & Hx & Hy). unfold has_attr_at. rewrite Hy.
        destruct y0 as [y|]; cbn [default from_option id].
        -- rewrite bool_decide_eq_true_2 by (by eexists). done.
        -- rewrite bool_decide_eq_false_2 by (by intros [? ?]). cbn [fst].
           split; [eapply same_shape_trans; [|exact Hs2];
                   apply skel_alter_at, attr_only_setAttribute|].
           split; [by rewrite attr_at_set_at_ne|].
           apply attr_at_set_at_elem. by rewrite (same_shape_elem d2 s.1).
Qed.

(** X20. After the tables pass a table that holds a [caption] has the
    [aria-labelledby] and the [aria-label] it had; a table without
    [caption] whose previous sibling element is a heading is labelled by
    that heading, which has a non-empty [id]; every other table has an
    [aria-label], its own or [Table]. *)
Theorem table_pass_names (s : state) (T : path) :
  T ∈ querySelectorAll (tag_sel "table") s.1 →
  match querySelector_in T (tag_sel "caption") s.1, heading_before T s.1 with
  | Some _, _ =>
      attr_at "aria-labelledby" T (enhanceTables random_id s).1 =
        attr_at "aria-labelledby" T s.1 ∧
      attr_at "aria-label" T (enhanceTables random_id s).1 = attr_at "aria-label" T s.1
  | None, Some h =>
      truthy (id_at h (enhanceTables random_id s).1) = true ∧
      attr_at "aria-labelledby" T (enhanceTables random_id s).1 =
        Some (id_at h (enhanceTables random_id s).1)
  | None, None =>
      attr_at "aria-label" T (enhanceTables random_id s).1 =
        Some (default "Table" (attr_at "aria-label" T s.1))
  end.
Proof. apply table_names. Qed.

End table_pass.

(** ** The code blocks pass *)

Section code_pass.
Import Enhancer.

(** The node at [q] is an element with the tag [t]. *)
Definition tagged_at (t : string) (d : document) (q : path) : bool :=
  elem_at q d && String.eqb (tag_at q d) t.

Lemma closest_tag_list t d l :
  fst <$> head (filter (λ pn, matches d (tag_sel t) pn)
                  (omap (λ q, (λ n, (q, n)) <$> get_node q d) l)) =
  head (filter (λ q, tagged_at t d q) l).
Proof.
  induction l as [|q l IH]; [done|]. cbn [omap list_omap].
  assert (tagged_at t d q =
          default false ((λ n, is_elem n && String.eqb (node_tag n) t) <$> get_node q d))
    as Hq.
  { unfold tagged_at, elem_at, tag_at. by destruct (get_node q d). }
  destruct (get_node q d) as [n|] eqn:E;
    cbn [fmap option_fmap option_map default from_option id] in *.
  - destruct (is_elem n && String.eqb (node_tag n) t) eqn:B.
    + rewrite filter_cons_True by (rewrite matches_tag; cbn; rewrite B; exact I).
      rewrite (filter_cons_True (λ q, tagged_at t d q)) by (rewrite Hq; exact I).
      done.
    + rewrite filter_cons_False by (rewrite matches_tag; cbn; rewrite B; intros []).
      rewrite (filter_cons_False (λ q, tagged_at t d q)) by (rewrite Hq; intros []).
      done.
  - rewrite (filter_cons_False (λ q, tagged_at t d q)) by (rewrite Hq; intros []).
    done.
Qed.

(** [closest] by tag: the element itself or its nearest ancestor with
    the tag. *)
Lemma closest_tag t p d :
  closest (tag_sel t) p d = head (filter (λ q, tagged_at t d q) (p :: proper_prefixes p)).
Proof.
  unfold closest, ancestors. rewrite <- (closest_tag_list t d (p :: proper_prefixes p)).
  change (p :: proper_prefixes p) with ([p] ++ proper_prefixes p).
  by rewrite omap_app.
Qed.

Lemma same_shape_closest t p d d' :
  same_shape d d' → closest (tag_sel t) p d = closest (tag_sel t) p d'.
Proof.
  intros H. rewrite !closest_tag. f_equal. apply list_filter_iff. intros q.
  unfold tagged_at. by rewrite (same_shape_elem d d'), (same_shape_tag d d').
Qed.

Lemma closest_elem t p d q : closest (tag_sel t) p d = Some q → elem_at q d = true.
Proof.
  rewrite closest_tag. intros H%head_Some_elem_of.
  apply list_elem_of_filter in H as [H _]. unfold tagged_at in H.
  by apply Is_true_true, andb_true_iff in H as [? _].
Qed.

(** The label the pass writes for a code block. *)
Definition code_label (c : path) (d : document) : string :=
  "Code example in " +:+ default "code" (code_language <$> get_node c d).

Lemma code_language_kept c d d' :
  touches code_writes d d' →
  default "code" (code_language <$> get_node c d') =
  default "code" (code_language <$> get_node c d).
Proof.
  intros [Hs Ha].
  pose proof (same_shape_get d' d c Hs) as E.
  assert (attr_at "class" c d' = attr_at "class" c d) as Hc
    by (apply Ha; by apply (bool_decide_unpack _)).
  unfold attr_at in Hc.
  destruct (get_node c d') as [n'|], (get_node c d) as [n|]; simplify_eq/=; [|done].
  unfold code_language, classList. by rewrite Hc.
Qed.

Lemma code_label_kept c d d' :
  touches code_writes d d' → code_label c d' = code_label c d.
Proof. intros H. unfold code_label. by rewrite (code_language_kept c d d'). Qed.

(** The code blocks of [l] whose nearest [pre] is [pre]. *)
Definition blocks_of (pre : path) (d : document) (l : list path) : list path :=
  filter (λ c, bool_decide (closest (tag_sel "pre") c d = Some pre)) l.

Lemma code_step_at d c pre :
  closest (tag_sel "pre") c d = Some pre →
  code_step d c =
  set_at "aria-label" (code_label c d) pre
    (set_at "role" "region" pre (set_at "tabindex" "0" pre d)).
Proof.
  intros H. unfold code_step, code_label. rewrite H. do 2 f_equal.
  apply code_language_kept.
  apply touches_then_set_at; [by apply (bool_decide_unpack _)|].
  apply touches_set_at. by apply (bool_decide_unpack _).
Qed.

Lemma code_steps_touches l d : touches code_writes d (for_each code_step l d).
Proof. apply for_each_touches, code_step_touches. Qed.

Lemma code_steps_attributes pre d0 l : ∀ d,
  touches code_writes d0 d →
  let d' := for_each code_step l d in
  match last (blocks_of pre d0 l) with
  | Some c =>
      attr_at "tabindex" pre d' = Some "0" ∧ attr_at "role" pre d' = Some "region" ∧
      attr_at "aria-label" pre d' = Some (code_label c d0)
  | None =>
      ∀ a, attr_at a pre d' = attr_at a pre d
  end.
Proof.
  induction l as [|c l IH] using rev_ind; intros d Hd; [done|]. cbn zeta.
  unfold for_each. rewrite fold_left_app. cbn [fold_left].
  fold (for_each code_step l d). set (d1 := for_each code_step l d).
  assert (touches code_writes d0 d1) as H1.
  { eapply touches_trans; [exact Hd|apply code_steps_touches]. }
  unfold blocks_of. rewrite filter_app.
  destruct (bool_decide_reflect (closest (tag_sel "pre") c d0 = Some pre)) as [Hc|Hc].
  - rewrite filter_cons_True by (by apply bool_decide_pack).
    rewrite filter_nil, last_snoc.
    assert (closest (tag_sel "pre") c d1 = Some pre) as Hc1.
    { by rewrite (same_shape_closest "pre" c d1 d0) by apply H1. }
    rewrite (code_step_at d1 c pre Hc1), (code_label_kept c d0 d1 H1).
    assert (elem_at pre d1 = true) as He by (by eapply closest_elem).
    split; [|split].
    + rewrite !(attr_at_set_at_ne _ "tabindex") by done. by apply attr_at_set_at_elem.
    + rewrite (attr_at_set_at_ne _ "role") by done. apply attr_at_set_at_elem.
      unfold elem_at, set_at. rewrite get_node_alter_at_eq.
      unfold elem_at in He. destruct (get_node pre d1) as [[?|? ? ?]|]; done.
    + apply attr_at_set_at_elem.
      unfold elem_at, set_at. rewrite !get_node_alter_at_eq.
      unfold elem_at in He. destruct (get_node pre d1) as [[?|? ? ?]|]; done.
  - rewrite filter_cons_False by (by intros ?%bool_decide_unpack).
    rewrite filter_nil, app_nil_r. fold (blocks_of pre d0 l).
    assert (∀ a, attr_at a pre (code_step d1 c) = attr_at a pre d1) as Hk.
    { intros a. unfold code_step.
      rewrite (same_shape_closest "pre" c d1 d0) by apply H1.
      destruct (closest (tag_sel "pre") c d0) as [q|]; [|done].
      assert (q ≠ pre) by congruence.
      by rewrite !attr_at_set_at_other. }
    specialize (IH d Hd). cbn zeta in IH. fold d1 in IH.
    destruct (last (blocks_of pre d0 l)) as [c'|].
    + by rewrite !Hk.
    + intros a. by rewrite Hk.
Qed.


End code_pass.

(** ** The forms pass *)

Section form_pass.
Import Enhancer.

Variable random_id : nat → string.
Variable parse_selector : string → outcome selector.

(** What the steps of the pass do to a tree: they write the attributes
    of [form_writes] only, leave an [id] that is not empty and an
    [aria-required] that is [true] as they are, and write the
    [aria-label] and the [aria-labelledby] of the elements of [P]
    only. *)
Definition form_moves (P : path → Prop) (d d' : document) : Prop :=
  touches form_writes d d' ∧
  (∀ q, truthy (id_at q d) = true → attr_at "id" q d' = attr_at "id" q d) ∧
  (∀ q, attr_at "aria-required" q d = Some "true" →
        attr_at "aria-required" q d' = Some "true") ∧
  (∀ q a, ¬ P q → a = "aria-label" ∨ a = "aria-labelledby" →
          attr_at a q d' = attr_at a q d).

Lemma form_moves_refl P d : form_moves P d d.
Proof. split; [apply touches_refl|done]. Qed.

Lemma form_moves_trans P d1 d2 d3 :
  form_moves P d1 d2 → form_moves P d2 d3 → form_moves P d1 d3.
Proof.
  intros (T1 & I1 & R1 & N1) (T2 & I2 & R2 & N2).
  split; [by eapply touches_trans|]. split; [|split].
  - intros q Hq. rewrite <- (I1 q Hq). apply I2. unfold id_at in *.
    by rewrite (I1 q Hq).
  - intros q Hq. by apply R2, R1.
  - intros q a Hq Ha. by rewrite (N2 q a), (N1 q a).
Qed.

Lemma form_moves_mono (P Q : path → Prop) d d' :
  (∀ q, P q → Q q) → form_moves P d d' → form_moves Q d d'.
Proof.
  intros H (T1 & I1 & R1 & N1). split; [done|]. split; [done|]. split; [done|].
  intros q a Hq. apply N1. intros Hp. by apply Hq, H.
Qed.

Lemma form_moves_set (P : path → Prop) a v p d :
  a ∈ form_writes →
  (a = "id" → truthy (id_at p d) = false) →
  (a = "aria-required" → v = "true") →
  (a = "aria-label" ∨ a = "aria-labelledby" → P p) →
  form_moves P d (set_at a v p d).
Proof.
  intros Ha Hid Hreq Hn. split; [by apply touches_set_at|]. split; [|split].
  - intros q Hq. destruct (decide (a = "id")) as [->|Hne].
    + apply attr_at_set_at_other. intros ->. by rewrite Hid in Hq.
    + by apply attr_at_set_at_ne.
  - intros q Hq. destruct (decide (a = "aria-required")) as [->|Hne].
    + rewrite (Hreq eq_refl). destruct (decide (p = q)) as [->|Hpq].
      * apply attr_at_set_at_elem, (attr_elem_at "aria-required"). by rewrite Hq.
      * by rewrite attr_at_set_at_other.
    + by rewrite attr_at_set_at_ne.
  - intros q b Hq Hb. destruct (decide (p = q)) as [->|Hpq];
      [|by apply attr_at_set_at_other].
    apply attr_at_set_at_ne. intros ->. by apply Hq, Hn.
Qed.

Lemma warn_keeps text a n :
  a ≠ "class" → a ≠ "data-a11y-warning" →
  getAttribute a (warn text n) = getAttribute a n.
Proof.
  intros H1 H2. unfold warn, classList_add.
  by rewrite !getAttribute_setAttribute_ne.
Qed.

Lemma form_moves_warn P text p d : form_moves P d (alter_at (warn text) p d).
Proof.
  split; [apply touches_warn; by apply (bool_decide_unpack _)|].
  split; [|split].
  - intros q _. apply attr_at_alter_at_keep; [apply attr_only_warn|].
    intros n. by apply warn_keeps.
  - intros q Hq. rewrite attr_at_alter_at_keep; [done|apply attr_only_warn|].
    intros n. by apply warn_keeps.
  - intros q a _ [-> | ->]; (apply attr_at_alter_at_keep; [apply attr_only_warn|]);
      intros n; by apply warn_keeps.
Qed.

Lemma fresh_id_moves P prefix el (s : state) :
  form_moves P s.1 (fresh_id random_id prefix el s).1.
Proof.
  unfold fresh_id. destruct (truthy _) eqn:E; [apply form_moves_refl|]. cbn [fst].
  apply form_moves_set; [by apply (bool_decide_unpack _)|done|done|].
  by intros [?|?].
Qed.

Lemma form_step_moves (s : state) f :
  form_moves (λ q, q = f) s.1 (form_step random_id s f).1.
Proof.
  unfold form_step. destruct (_ && _); [|apply form_moves_refl].
  destruct (querySelector_in _ _ _) as [h|]; cbn [fst].
  - eapply form_moves_trans; [apply fresh_id_moves|].
    apply form_moves_set; [by apply (bool_decide_unpack _)|done|done|done].
  - apply form_moves_set; [by apply (bool_decide_unpack _)|done|done|done].
Qed.

Lemma input_step_moves (s s' : state) input :
  input_step random_id parse_selector s input = Ret s' →
  form_moves (λ _, False) s.1 s'.1.
Proof.
  unfold input_step. destruct (bool_decide _); [intros [= <-]; apply form_moves_refl|].
  set (s1 := if negb (truthy (id_at input s.1))
             then (set_at "id" ("input-" +:+ random_id s.2) input s.1, S s.2)
             else s).
  assert (form_moves (λ _, False) s.1 s1.1) as H1.
  { subst s1. destruct (truthy (id_at input s.1)) eqn:E; cbn [negb];
      [apply form_moves_refl|]. cbn [fst].
    apply form_moves_set; [by apply (bool_decide_unpack _)|done|done|by intros [?|?]]. }
  destruct (if truthy _ then _ else _) as [b|msg]; [|done]. cbn [obind].
  intros [= <-]. cbn [fst].
  set (d2 := if negb _ then _ else s1.1).
  assert (form_moves (λ _, False) s.1 d2) as H2.
  { subst d2.
    match goal with |- form_moves _ _ (if ?c then _ else _) => destruct c end;
      [|done].
    eapply form_moves_trans; [exact H1|apply form_moves_warn]. }
  eapply form_moves_trans; [exact H2|].
  destruct (has_attr_at "required" input d2); [|apply form_moves_refl].
  apply form_moves_set; [by apply (bool_decide_unpack _)|done|done|by intros [?|?]].
Qed.

Lemma for_each_throwing_app {S A} (step : S → A → outcome S) l1 l2 s :
  for_each_throwing step (l1 ++ l2) s =
  obind (for_each_throwing step l1 s) (for_each_throwing step l2).
Proof.
  revert s. induction l1 as [|x l1 IH]; intros s; [done|]. cbn [app for_each_throwing].
  destruct (step s x) as [s1|msg]; cbn [obind]; [apply IH|done].
Qed.

Lemma input_steps_moves l : ∀ (s s' : state),
  for_each_throwing (input_step random_id parse_selector) l s = Ret s' →
  form_moves (λ _, False) s.1 s'.1.
Proof.
  induction l as [|x l IH]; intros s s'; [intros [= <-]; apply form_moves_refl|].
  cbn [for_each_throwing].
  destruct (input_step random_id parse_selector s x) as [s1|msg] eqn:E; [|done].
  cbn [obind]. intros H.
  eapply form_moves_trans; [by eapply input_step_moves|by apply IH].
Qed.

Lemma form_steps_moves (P : path → Prop) l :
  (∀ x, x ∈ l → P x) →
  ∀ s : state, form_moves P s.1 (fold_left (form_step random_id) l s).1.
Proof.
  intros H. induction l as [|x l IH]; intros s; [apply form_moves_refl|]. cbn [fold_left].
  eapply form_moves_trans.
  - eapply form_moves_mono; [|apply form_step_moves]. intros q ->. apply H. by left.
  - apply IH. intros y Hy. apply H. by right.
Qed.

(** *** The name of a form *)

Lemma name_is_moves (P : path → Prop) f d0 x y d d' :
  ¬ P f → form_moves P d d' → name_is f d0 x y d → name_is f d0 x y d'.
Proof.
  intros Hf ([Hs _] & _ & _ & Hn) (Hd & Hx & Hy).
  split; [by eapply same_shape_trans|].
  rewrite (Hn f "aria-labelledby" Hf) by (by right).
  by rewrite (Hn f "aria-label" Hf) by (by left).
Qed.

Lemma labelled_by_moves (P : path → Prop) f d0 h d d' :
  ¬ P f → form_moves P d d' → labelled_by f d0 h d → labelled_by f d0 h d'.
Proof.
  intros Hf ([Hs _] & Hi & _ & Hn) (Hd & Ht & Hh & Hl).
  split; [by eapply same_shape_trans|].
  assert (attr_at "id" h d' = attr_at "id" h d) as E by (by apply Hi).
  unfold id_at in *. rewrite E. by rewrite (Hn f "aria-labelledby" Hf) by (by right).
Qed.

Lemma same_shape_query_tags_in T ts d d' :
  same_shape d d' →
  querySelector_in T (tags_sel ts) d = querySelector_in T (tags_sel ts) d'.
Proof.
  intros H. unfold querySelector_in, querySelectorAll_in.
  by rewrite (same_shape_query ts d d').
Qed.

Lemma form_names (s s' : state) (f : path) :
  enhanceForms random_id parse_selector s = Ret s' →
  f ∈ querySelectorAll (tag_sel "form") s.1 →
  if has_attr_at "aria-label" f s.1 || has_attr_at "aria-labelledby" f s.1
  then attr_at "aria-label" f s'.1 = attr_at "aria-label" f s.1 ∧
       attr_at "aria-labelledby" f s'.1 = attr_at "aria-labelledby" f s.1
  else match querySelector_in f (tags_sel heading_tags) s.1 with
       | Some h => truthy (id_at h s'.1) = true ∧
                   attr_at "aria-labelledby" f s'.1 = Some (id_at h s'.1)
       | None => attr_at "aria-label" f s'.1 = Some "Form"
       end.
Proof.
  unfold enhanceForms. intros Hrun Hf.
  pose proof (NoDup_querySelectorAll (tag_sel "form") s.1) as Hnd.
  assert (elem_at f s.1 = true) as Hef by (by eapply query_elem_at).
  destruct (list_elem_of_split _ _ Hf) as (l1 & l2 & E). rewrite E in Hnd, Hrun.
  rewrite fold_left_app in Hrun. cbn [fold_left] in Hrun.
  apply NoDup_app in Hnd as (_ & H1 & Hnd). apply NoDup_cons in Hnd as [H2 _].
  set (x0 := attr_at "aria-labelledby" f s.1). set (y0 := attr_at "aria-label" f s.1).
  set (a1 := fold_left (form_step random_id) l1 s) in *.
  assert (name_is f s.1 x0 y0 a1.1) as Ha1.
  { apply (name_is_moves (λ q, q ∈ l1) f s.1 x0 y0 s.1);
      [intros Hin; eapply H1; [done|by left]|by apply form_steps_moves|done]. }
  set (a2 := form_step random_id a1 f) in *.
  assert (form_moves (λ q, q ≠ f) a2.1 s'.1) as Hrest.
  { eapply form_moves_trans.
    - apply (form_steps_moves (λ q, q ≠ f) l2). by intros x Hx ->.
    - eapply form_moves_mono; [|by eapply input_steps_moves]. done. }
  assert (∀ I : document → Prop,
            (∀ d d', form_moves (λ q, q ≠ f) d d' → I d → I d') → I a2.1 → I s'.1)
    as Hend by (intros I HI; by apply HI).
  destruct Ha1 as (Hs1 & Hx1 & Hy1).
  subst a2. unfold form_step in *. unfold has_attr_at in *. rewrite Hx1, Hy1 in *.
  fold x0 y0.
  destruct (bool_decide (is_Some y0) || bool_decide (is_Some x0)) eqn:B.
  - assert (negb (bool_decide (is_Some y0)) && negb (bool_decide (is_Some x0)) = false)
      as B' by (by destruct (bool_decide (is_Some y0)), (bool_decide (is_Some x0))).
    rewrite B' in *.
    assert (name_is f s.1 x0 y0 s'.1) as (_ & Hx & Hy); [|done].
    apply Hend; [intros d d'; apply name_is_moves; by intros H|done].
  - assert (negb (bool_decide (is_Some y0)) && negb (bool_decide (is_Some x0)) = true)
      as B' by (by destruct (bool_decide (is_Some y0)), (bool_decide (is_Some x0))).
    rewrite B' in *.
    rewrite (same_shape_query_tags_in f heading_tags a1.1 s.1 Hs1) in *.
    destruct (querySelector_in f (tags_sel heading_tags) s.1) as [h|] eqn:Eh.
    + assert (labelled_by f s.1 h s'.1) as (_ & Ht & _ & Hl); [|done].
      apply Hend; [intros d d'; apply labelled_by_moves; by intros H|].
      assert (elem_at h a1.1 = true) as Heh.
      { rewrite (same_shape_elem a1.1 s.1) by done.
        unfold querySelector_in in Eh. apply head_Some_elem_of in Eh.
        by eapply query_in_elem_at. }
      destruct (fresh_id_labelled random_id a1 "orm-heading-" "f" h Heh) as [Ft Fi].
      change (String "f" "orm-heading-") with "form-heading-" in *.
      set (s3 := fresh_id random_id "form-heading-" h a1) in *. cbn [fst].
      assert (same_shape s3.1 s.1) as Hs3.
      { eapply same_shape_trans; [|exact Hs1].
        apply (fresh_id_moves (λ _, False) _ h a1). }
      assert (attr_at "id" h (set_at "aria-labelledby" (id_at h s3.1) f s3.1) =
              attr_at "id" h s3.1) as Ei by (by apply attr_at_set_at_ne).
      split; [eapply same_shape_trans; [|exact Hs3];
              apply skel_alter_at, attr_only_setAttribute|].
      unfold id_at in *. rewrite Ei. split; [done|]. split; [done|].
      apply attr_at_set_at_elem. by rewrite (same_shape_elem s3.1 s.1).
    + assert (name_is f s.1 x0 (Some "Form") s'.1) as (_ & Hx & Hy); [|done].
      apply Hend; [intros d d'; apply name_is_moves; by intros H|]. cbn [fst].
      split; [eapply same_shape_trans; [|exact Hs1];
              apply skel_alter_at, attr_only_setAttribute|].
      split; [by rewrite attr_at_set_at_ne|].
      apply attr_at_set_at_elem. by rewrite (same_shape_elem a1.1 s.1).
Qed.

(** X22. After the forms pass a form that had an [aria-label] or an
    [aria-labelledby] has the two as they were; a form that had neither
    is labelled by the first heading inside it, which has a non-empty
    [id], or, without a heading, has the [aria-label] [Form]. *)
Theorem form_pass_names (s s' : state) (f : path) :
  enhanceForms random_id parse_selector s = Ret s' →
  f ∈ querySelectorAll (tag_sel "form") s.1 →
  if has_attr_at "aria-label" f s.1 || has_attr_at "aria-labelledby" f s.1
  then attr_at "aria-label" f s'.1 = attr_at "aria-label" f s.1 ∧
       attr_at "aria-labelledby" f s'.1 = attr_at "aria-labelledby" f s.1
  else match querySelector_in f (tags_sel heading_tags) s.1 with
       | Some h => truthy (id_at h s'.1) = true ∧
                   attr_at "aria-labelledby" f s'.1 = Some (id_at h s'.1)
       | None => attr_at "aria-label" f s'.1 = Some "Form"
       end.
Proof. apply form_names. Qed.

(** *** The inputs *)

(** [input.type] of the element at [q]. *)
Definition type_at (q : path) (d : document) : string :=
  default "" (type_of <$> get_node q d).

Lemma type_kept q d d' : touches form_writes d d' → type_at q d' = type_at q d.
Proof.
  intros [Hs Ha]. unfold type_at.
  pose proof (same_shape_get d' d q Hs) as E.
  assert (attr_at "type" q d' = attr_at "type" q d) as Ht
    by (apply Ha; by apply (bool_decide_unpack _)).
  assert (attr_at "multiple" q d' = attr_at "multiple" q d) as Hm
    by (apply Ha; by apply (bool_decide_unpack _)).
  unfold attr_at in Ht, Hm.
  destruct (get_node q d') as [n'|], (get_node q d) as [n|]; simplify_eq/=; [|done].
  unfold type_of, hasAttribute.
  by rewrite <- (node_tag_skel n'), E, node_tag_skel, Ht, Hm.
Qed.

Lemma required_kept q d d' :
  touches form_writes d d' → has_attr_at "required" q d' = has_attr_at "required" q d.
Proof.
  intros [_ Ha]. unfold has_attr_at. rewrite Ha; [done|by apply (bool_decide_unpack _)].
Qed.

Lemma input_step_settles (s s' : state) q :
  input_step random_id parse_selector s q = Ret s' →
  elem_at q s.1 = true → type_at q s.1 ∉ ["hidden"; "submit"; "button"] →
  truthy (id_at q s'.1) = true ∧
  (has_attr_at "required" q s.1 = true → attr_at "aria-required" q s'.1 = Some "true").
Proof.
  unfold input_step. fold (type_at q s.1). intros Hrun He Ht. revert Hrun.
  rewrite bool_decide_eq_false_2 by done.
  set (s1 := if negb (truthy (id_at q s.1))
             then (set_at "id" ("input-" +:+ random_id s.2) q s.1, S s.2)
             else s).
  assert (form_moves (λ _, False) s.1 s1.1) as M1.
  { subst s1. destruct (truthy (id_at q s.1)) eqn:E; cbn [negb];
      [apply form_moves_refl|]. cbn [fst].
    apply form_moves_set; [by apply (bool_decide_unpack _)|done|done|by intros [?|?]]. }
  assert (truthy (id_at q s1.1) = true) as Hid.
  { subst s1. destruct (truthy (id_at q s.1)) eqn:E; cbn [negb]; [done|]. cbn [fst].
    unfold id_at. by rewrite attr_at_set_at_elem. }
  destruct (if truthy _ then _ else _) as [b|msg]; [|done]. cbn [obind].
  intros [= <-]. cbn [fst].
  set (d2 := if negb _ then _ else s1.1).
  assert (form_moves (λ _, False) s1.1 d2) as M2.
  { subst d2.
    match goal with |- form_moves _ _ (if ?c then _ else _) => destruct c end;
      [apply form_moves_warn|apply form_moves_refl]. }
  assert (form_moves (λ _, False) s.1 d2) as M12 by (by eapply form_moves_trans).
  assert (truthy (id_at q d2) = true) as Hid2.
  { destruct M2 as (_ & Hi & _). unfold id_at in *. by rewrite (Hi q Hid). }
  assert (elem_at q d2 = true) as He2.
  { rewrite (same_shape_elem d2 s.1); [done|apply M12]. }
  rewrite (required_kept q s.1 d2) by apply M12.
  destruct (has_attr_at "required" q s.1).
  - split; [|intros _; by apply attr_at_set_at_elem].
    unfold id_at in *. by rewrite attr_at_set_at_ne.
  - done.
Qed.

(** X23. After the forms pass an [input], [select] or [textarea] whose type
    is not [hidden], [submit] or [button] has a non-empty [id], its own
    when it had one, and is marked [aria-required] when it has the
    attribute [required]. *)
Theorem form_pass_inputs (s s' : state) (q : path) :
  enhanceForms random_id parse_selector s = Ret s' →
  q ∈ querySelectorAll (tags_sel ["input"; "select"; "textarea"]) s.1 →
  type_at q s.1 ∉ ["hidden"; "submit"; "button"] →
  truthy (id_at q s'.1) = true ∧
  (truthy (id_at q s.1) = true → id_at q s'.1 = id_at q s.1) ∧
  (has_attr_at "required" q s.1 = true →
   attr_at "aria-required" q s'.1 = Some "true").
Proof.
  unfold enhanceForms. intros Hrun Hq Ht.
  set (s1 := fold_left (form_step random_id) (querySelectorAll (tag_sel "form") s.1) s)
    in *.
  assert (form_moves (λ _, True) s.1 s1.1) as M1 by (by apply form_steps_moves).
  assert (same_shape s1.1 s.1) as Hs1 by apply M1.
  rewrite (same_shape_query _ s1.1 s.1 Hs1) in Hrun.
  destruct (list_elem_of_split _ _ Hq) as (l1 & l2 & E). rewrite E in Hrun.
  rewrite for_each_throwing_app in Hrun.
  destruct (for_each_throwing _ l1 s1) as [a|msg] eqn:Ea; [|done].
  cbn [obind for_each_throwing] in Hrun.
  destruct (input_step random_id parse_selector a q) as [b|msg] eqn:Eb; [|done].
  cbn [obind] in Hrun.
  assert (form_moves (λ _, True) s.1 a.1) as Ma.
  { eapply form_moves_trans; [exact M1|].
    eapply form_moves_mono; [|by eapply input_steps_moves]. done. }
  assert (form_moves (λ _, True) b.1 s'.1) as Mb.
  { eapply form_moves_mono; [|by eapply input_steps_moves]. done. }
  assert (form_moves (λ _, True) s.1 s'.1) as Mall.
  { eapply form_moves_trans; [exact Ma|]. eapply form_moves_trans; [|exact Mb].
    eapply form_moves_mono; [|by eapply input_step_moves]. done. }
  destruct (input_step_settles a b q Eb) as [Hid Hreq].
  { rewrite (same_shape_elem a.1 s.1) by apply Ma. by eapply query_elem_at. }
  { by rewrite (type_kept q s.1 a.1) by apply Ma. }
  split; [|split].
  - destruct Mb as (_ & Hi & _). unfold id_at in *. by rewrite (Hi q Hid).
  - intros H. destruct Mall as (_ & Hi & _). unfold id_at in *. by rewrite (Hi q H).
  - intros H. destruct Mb as (_ & _ & Hr & _). apply Hr, Hreq.
    by rewrite (required_kept q s.1 a.1) by apply Ma.
Qed.

End form_pass.

(** ** The references the Enhancer writes, under the Auditor *)

Section references_resolve.
Import Checker Enhancer.

Variable random_id : nat → string.
Variable parse_selector : string → outcome selector.

Lemma walk_from_lookup ks : ∀ (i j : nat) k q m,
  ks !! j = Some k → (q, m) ∈ walk_node k → ((i + j)%nat :: q, m) ∈ walk_from i ks.
Proof.
  induction ks as [|k0 ks IH]; intros i j k q m Hk Hin; [done|].
  rewrite walk_from_cons. apply elem_of_app. destruct j as [|j].
  - left. injection Hk as ->. apply list_elem_of_fmap. exists (q, m).
    split; [|done]. unfold under. cbn. by rewrite Nat.add_0_r.
  - right. rewrite Nat.add_succ_r. apply (IH (S i) j k); done.
Qed.

Lemma get_node_walk_from p : ∀ ks n (i : nat),
  get_node p ks = Some n → is_elem n = true →
  ∃ j q, p = j :: q ∧ ((i + j)%nat :: q, n) ∈ walk_from i ks.
Proof.
  induction p as [|j q IH]; intros ks n i Hn He; [done|].
  exists j, q. split; [done|].
  destruct (ks !! j) as [k|] eqn:E; [|by cbn in Hn; rewrite E in Hn].
  apply (walk_from_lookup ks i j k); [done|].
  destruct (decide (q = [])) as [->|Hq].
  - rewrite get_node_one, E in Hn. injection Hn as ->.
    destruct n; [done|]. cbn. by left.
  - rewrite get_node_deeper, E in Hn by done. cbn in Hn.
    destruct k as [s|t a kids]; [by rewrite get_node_nil_kids in Hn|].
    cbn [node_kids] in Hn.
    destruct (IH kids n 0%nat Hn He) as (j' & q' & -> & Hin).
    cbn [walk_node]. right. exact Hin.
Qed.

(** Every element of the tree is met by the walk. *)
Lemma get_node_walk d p n :
  get_node p d = Some n → is_elem n = true → (p, n) ∈ walk d.
Proof.
  intros Hn He. destruct (get_node_walk_from p d n 0%nat Hn He) as (j & q & -> & H).
  exact H.
Qed.

Definition no_space (s : string) : bool :=
  all_chars (λ c, negb (code c =? 32)%nat) s.

Lemma split_space_one v : no_space v = true → split_space v = [v].
Proof.
  induction v as [|c v IH]; [done|]. cbn [no_space all_chars].
  intros [Hc Hv]%andb_true_iff. cbn [split_space].
  apply negb_true_iff in Hc. rewrite Hc. by rewrite (IH Hv).
Qed.

(** An element labelled by an element with a non-empty id: the
    reference is found, and the Auditor has nothing to say of it when
    the id holds no space. *)
Lemma labelled_reference_resolves d T h el :
  elem_at h d = true → truthy (id_at h d) = true →
  attr_at "aria-labelledby" T d = Some (id_at h d) →
  get_node T d = Some el →
  is_Some (getElementById (id_at h d) d) ∧
  (no_space (id_at h d) = true → labelledby_issues d el = []).
Proof.
  intros He Ht Hl Hel.
  assert (is_Some (getElementById (id_at h d) d)) as Hfound.
  { apply getElementById_is_Some. split; [by intros E; rewrite E in Ht|].
    unfold elem_at in He. destruct (get_node h d) as [n|] eqn:En; [|done].
    cbn in He. unfold element_ids. apply list_elem_of_fmap. exists n.
    assert (id_of n = id_at h d) as Hid by (unfold id_at, attr_at; by rewrite En).
    split; [done|]. apply list_elem_of_fmap. exists (h, n). split; [done|].
    apply elem_of_select. split; [|by apply get_node_walk].
    rewrite matches_has_id. cbn [snd]. rewrite He. cbn [andb].
    apply bool_decide_eq_true_2. unfold id_of in Hid.
    destruct (getAttribute "id" n) as [x|]; [by eexists|].
    cbn in Hid. by rewrite <- Hid in Ht. }
  split; [done|]. intros Hs. unfold labelledby_issues.
  unfold attr_at in Hl. rewrite Hel in Hl. cbn in Hl. rewrite Hl.
  cbn [default from_option id]. rewrite (split_space_one _ Hs).
  rewrite filter_cons_False; [done|].
  rewrite bool_decide_eq_true_2 by done. by intros [].
Qed.

(** X24. The heading the tables pass labels a table by is found by
    [getElementById] in the result of the pass, and when its id holds no
    space the Auditor's check of [aria-labelledby] reports nothing for
    the table. *)
Theorem table_reference_resolves (s : state) (T h : path) (el : node) :
  T ∈ querySelectorAll (tag_sel "table") s.1 →
  querySelector_in T (tag_sel "caption") s.1 = None →
  heading_before T s.1 = Some h →
  get_node T (enhanceTables random_id s).1 = Some el →
  is_Some (getElementById (id_at h (enhanceTables random_id s).1)
             (enhanceTables random_id s).1) ∧
  (no_space (id_at h (enhanceTables random_id s).1) = true →
   labelledby_issues (enhanceTables random_id s).1 el = []).
Proof.
  intros HT Hc Hh Hel. pose proof (table_names random_id s T HT) as H.
  rewrite Hc, Hh in H. destruct H as [Ht Hl].
  apply (labelled_reference_resolves _ T); [|done|done|done].
  rewrite (same_shape_elem _ s.1); [by eapply heading_before_elem|].
  apply (fold_state_touches _ (table_step random_id) _ (table_step_touches random_id) s).
Qed.

(** X25. The same for the heading the forms pass labels a form by. *)
Theorem form_reference_resolves (s s' : state) (f h : path) (el : node) :
  enhanceForms random_id parse_selector s = Ret s' →
  f ∈ querySelectorAll (tag_sel "form") s.1 →
  has_attr_at "aria-label" f s.1 || has_attr_at "aria-labelledby" f s.1 = false →
  querySelector_in f (tags_sel heading_tags) s.1 = Some h →
  get_node f s'.1 = Some el →
  is_Some (getElementById (id_at h s'.1) s'.1) ∧
  (no_space (id_at h s'.1) = true → labelledby_issues s'.1 el = []).
Proof.
  intros Hrun Hf Hn Hh Hel.
  pose proof (form_names random_id parse_selector s s' f Hrun Hf) as H.
  rewrite Hn, Hh in H. destruct H as [Ht Hl].
  apply (labelled_reference_resolves _ f); [|done|done|done].
  rewrite (same_shape_elem _ s.1).
  - unfold querySelector_in in Hh. apply head_Some_elem_of in Hh.
    by eapply query_in_elem_at.
  - by apply (enhanceForms_touches random_id parse_selector s s').
Qed.

End references_resolve.

(** ** Examples *)

Section further_examples.
Import Enhancer.

Ltac listed := apply (bool_decide_unpack _); by vm_compute.



(** A heading with an id of its own and one without. *)
Definition headings_with_id : document :=
  [Elem "h1" [("id", "top")] [Text "Title"]; Elem "h3" [] [Text "Set up"]].

Lemma heading_pass_attributes_witness :
  attr_at "tabindex" [0%nat] (enhanceHeadings headings_with_id) = Some "-1" ∧
  attr_at "id" [0%nat] (enhanceHeadings headings_with_id) = Some "top" ∧
  attr_at "tabindex" [1%nat] (enhanceHeadings headings_with_id) = Some "-1".
Proof.
  destruct (heading_pass_attributes headings_with_id [0%nat]) as [H1 H2]; [listed|].
  split; [exact H1|]. split; [rewrite H2; by vm_compute|].
  apply (heading_pass_attributes headings_with_id [1%nat]). listed.
Defined.

Lemma heading_check_after_enhancer_witness :
  ∃ d', enhanceWithAria sample_random_id parse_label_for headings_with_id no_frontmatter
          = Ret d' ∧
        Checker.message <$> Checker.checkHeadingHierarchy d' =
        Checker.message <$> Checker.checkHeadingHierarchy headings_with_id ∧
        length (Checker.checkHeadingHierarchy headings_with_id) = 1%nat.
Proof.
  eexists. split; [by vm_compute|]. split; [|by vm_compute].
  apply (heading_check_after_enhancer sample_random_id parse_label_for headings_with_id
           no_frontmatter); by vm_compute.
Defined.

(** A page with the landmarks the pass labels. *)
Definition page_with_landmarks : document :=
  [Elem "body" []
     [Elem "nav" [] [Text "n"]; Elem "main" [("id", "article")] [Text "m"];
      Elem "aside" [] [Text "a"]; Elem "aside" [("aria-label", "Notes")] [Text "b"]]].

Lemma landmark_pass_with_main_witness :
  attr_at "role" [0; 1]%nat (addDocumentLandmarks page_with_landmarks) = Some "main" ∧
  attr_at "id" [0; 1]%nat (addDocumentLandmarks page_with_landmarks) = Some "article" ∧
  attr_at "aria-label" [0; 0]%nat (addDocumentLandmarks page_with_landmarks) =
    Some "Main Navigation" ∧
  attr_at "aria-label" [0; 2]%nat (addDocumentLandmarks page_with_landmarks) =
    Some "Complementary Content 1" ∧
  attr_at "aria-label" [0; 3]%nat (addDocumentLandmarks page_with_landmarks) =
    Some "Notes".
Proof.
  destruct (landmark_pass_with_main page_with_landmarks [0; 1]%nat)
    as (_ & H1 & H2 & H3 & H4 & _); [by vm_compute|].
  split; [exact H1|]. split; [rewrite H2; by vm_compute|].
  split; [rewrite (H3 [0; 0]%nat); [by vm_compute|listed]|].
  split.
  - destruct (H4 0%nat [0; 2]%nat) as [_ ->]; by vm_compute.
  - destruct (H4 1%nat [0; 3]%nat) as [_ ->]; by vm_compute.
Defined.

(** A table under a heading. *)
Definition page_with_table : document :=
  [Elem "h2" [] [Text "Prices"];
   Elem "table" []
     [Elem "tr" [] [Elem "th" [] [Text "Item"]; Elem "th" [("scope", "row")] [Text "Pen"];
                    Elem "td" [("role", "note")] [Text "1"]]]].

Lemma table_pass_roles_witness :
  attr_at "role" [1%nat] (enhanceTables sample_random_id (page_with_table, 0%nat)).1 =
    Some "table" ∧
  attr_at "role" [1; 0]%nat (enhanceTables sample_random_id (page_with_table, 0%nat)).1 =
    Some "row" ∧
  attr_at "role" [1; 0; 2]%nat (enhanceTables sample_random_id (page_with_table, 0%nat)).1 =
    Some "cell" ∧
  attr_at "scope" [1; 0; 0]%nat (enhanceTables sample_random_id (page_with_table, 0%nat)).1 =
    Some "col" ∧
  attr_at "scope" [1; 0; 1]%nat (enhanceTables sample_random_id (page_with_table, 0%nat)).1 =
    Some "row".
Proof.
  assert ([1%nat] ∈ querySelectorAll (tag_sel "table") (page_with_table, 0%nat).1) as HT
    by listed.
  split; [apply (table_pass_roles sample_random_id (page_with_table, 0%nat) [1%nat] [] HT)|].
  split.
  { apply (table_pass_roles sample_random_id (page_with_table, 0%nat) [1%nat]
             [1; 0]%nat HT). listed. }
  split.
  { apply (table_pass_roles sample_random_id (page_with_table, 0%nat) [1%nat]
             [1; 0; 2]%nat HT). listed. }
  split.
  - destruct (table_pass_roles sample_random_id (page_with_table, 0%nat) [1%nat]
                [1; 0; 0]%nat HT) as (_ & _ & _ & H4).
    rewrite H4; [by vm_compute|listed].
  - destruct (table_pass_roles sample_random_id (page_with_table, 0%nat) [1%nat]
                [1; 0; 1]%nat HT) as (_ & _ & _ & H4).
    rewrite H4; [by vm_compute|listed].
Defined.

Lemma table_pass_names_witness :
  truthy (id_at [0%nat] (enhanceTables sample_random_id (page_with_table, 0%nat)).1) = true ∧
  attr_at "aria-labelledby" [1%nat]
    (enhanceTables sample_random_id (page_with_table, 0%nat)).1 =
  Some (id_at [0%nat] (enhanceTables sample_random_id (page_with_table, 0%nat)).1).
Proof.
  apply (table_pass_names sample_random_id (page_with_table, 0%nat) [1%nat]). listed.
Defined.

(** A code block with a language class. *)
Definition page_with_code : document :=
  [Elem "pre" [] [Elem "code" [("class", "hljs language-js")] [Text "x"]]].


(** A form with a heading and a required field. *)
Definition page_with_form : document :=
  [Elem "form" []
     [Elem "h2" [] [Text "Sign up"];
      Elem "input" [("type", "text"); ("required", "")] []]].

Lemma form_pass_names_witness :
  ∃ s', enhanceForms sample_random_id parse_label_for (page_with_form, 0%nat) = Ret s' ∧
        truthy (id_at [0; 0]%nat s'.1) = true ∧
        attr_at "aria-labelledby" [0%nat] s'.1 = Some (id_at [0; 0]%nat s'.1).
Proof.
  eexists. split; [by vm_compute|].
  lazymatch goal with
  | |- truthy (id_at _ ?s'.1) = true ∧ _ =>
      apply (form_pass_names sample_random_id parse_label_for (page_with_form, 0%nat) s'
               [0%nat]); [by vm_compute|listed]
  end.
Defined.

Lemma form_pass_inputs_witness :
  ∃ s', enhanceForms sample_random_id parse_label_for (page_with_form, 0%nat) = Ret s' ∧
        truthy (id_at [0; 1]%nat s'.1) = true ∧
        attr_at "aria-required" [0; 1]%nat s'.1 = Some "true".
Proof.
  eexists. split; [by vm_compute|].
  lazymatch goal with
  | |- truthy (id_at _ ?s'.1) = true ∧ _ =>
      destruct (form_pass_inputs sample_random_id parse_label_for
                  (page_with_form, 0%nat) s' [0; 1]%nat) as (H1 & _ & H3);
        [by vm_compute|listed| |split; [exact H1|apply H3; by vm_compute]]
  end.
  intros H. apply (bool_decide_pack _) in H. by vm_compute in H.
Defined.

Lemma table_reference_resolves_witness :
  ∃ el, get_node [1%nat] (enhanceTables sample_random_id (page_with_table, 0%nat)).1
          = Some el ∧
        Checker.labelledby_issues
          (enhanceTables sample_random_id (page_with_table, 0%nat)).1 el = [].
Proof.
  eexists. split; [by vm_compute|].
  eapply (table_reference_resolves sample_random_id (page_with_table, 0%nat) [1%nat]
            [0%nat]); [listed|by vm_compute|by vm_compute|by vm_compute|by vm_compute].
Defined.

Lemma form_reference_resolves_witness :
  ∃ s' el, enhanceForms sample_random_id parse_label_for (page_with_form, 0%nat) = Ret s' ∧
           get_node [0%nat] s'.1 = Some el ∧
           Checker.labelledby_issues s'.1 el = [].
Proof.
  do 2 eexists. split; [by vm_compute|]. split; [by vm_compute|].
  eapply (form_reference_resolves sample_random_id parse_label_for
            (page_with_form, 0%nat) _ [0%nat] [0; 0]%nat);
    [by vm_compute|listed|by vm_compute|by vm_compute|by vm_compute|by vm_compute].
Defined.

End further_examples.
